(** * A shallow embedding of [src/refactor-session.ts]

    The session class of shift-refactor keeps a syntax tree of mutable,
    identity-bearing node objects, queues structural edits against node
    identities and merges them in one rewrite pass ([cleanup]).  Node
    objects live in an explicit heap addressed by identity, sessions
    live in an explicit store (a subsession holds a reference to its
    global session), and every method is a state-passing function over
    the pair of the two. *)

From stdpp Require Import gmap strings list fin_maps.
From Stdlib Require Import ZArith.

Set Warnings "-register-all".

Open Scope string_scope.

(* ===================================================================== *)
(** ** JavaScript values that occur in node positions                    *)
(* ===================================================================== *)

(** A value in a node position: [undefined], [null] or a reference to a
    node object, the latter by identity. *)
Inductive NodeRef : Type :=
| Undefined
| Null
| Ref (id : nat).

#[global] Instance NodeRef_eq_dec : EqDecision NodeRef.
Proof. solve_decision. Defined.

(** JavaScript truthiness of such a value ([!x] is its negation). *)
Definition truthy (r : NodeRef) : bool :=
  match r with Ref _ => true | _ => false end.

(** A property of a node object: a string ([name] of an identifier), a
    node position, or an array of node positions ([statements]). *)
Inductive PropVal : Type :=
| PStr (s : string)
| PNode (r : NodeRef)
| PArr (l : list NodeRef).

#[global] Instance PropVal_eq_dec : EqDecision PropVal.
Proof. solve_decision. Defined.

(** A node object: its [type] tag and its own properties, in order. *)
Record NodeObj : Type := MkNode {
  ntype : string;
  props : list (string * PropVal)
}.

#[global] Instance NodeObj_eq_dec : EqDecision NodeObj.
Proof. solve_decision. Defined.

(** [obj[key]] *)
Fixpoint get_prop (key : string) (ps : list (string * PropVal)) : option PropVal :=
  match ps with
  | [] => None
  | (k, v) :: rest => if decide (k = key) then Some v else get_prop key rest
  end.

(** [obj[key] = v] *)
Fixpoint set_prop (key : string) (v : PropVal) (ps : list (string * PropVal))
  : list (string * PropVal) :=
  match ps with
  | [] => [(key, v)]
  | (k, v0) :: rest =>
      if decide (k = key) then (k, v) :: rest else (k, v0) :: set_prop key v rest
  end.

(** [key in obj] *)
Definition has_prop (key : string) (o : NodeObj) : bool :=
  bool_decide (is_Some (get_prop key (props o))).

Definition with_prop (key : string) (v : PropVal) (o : NodeObj) : NodeObj :=
  {| ntype := ntype o; props := set_prop key v (props o) |}.

(** The heap of node objects. *)
Abbreviation Heap := (gmap nat NodeObj).

(* ===================================================================== *)
(** ** The scope analysis' data (package shift-scope)                    *)
(* ===================================================================== *)

Record Declaration : Type := MkDeclaration { decl_node : nat }.
Record Reference : Type := MkReference { ref_node : nat }.

(** A resolved binding, shift-scope's [Variable] object ([Variable] is
    a reserved word here): [name], [declarations], [references].  The
    session keys a [Set] and a [WeakMap] by these objects, so an object
    carries its identity: the number of the analysis run that made it
    ([vrun]) and its number among the objects of that run ([vnum]).
    Two objects with the same fields are two keys. *)
Record ScopeVariable : Type := MkVariable {
  vrun : nat;
  vnum : nat;
  vname : string;
  declarations : list Declaration;
  references : list Reference
}.

(** The identity of a [Variable] object. *)
Definition vid (v : ScopeVariable) : nat * nat := (vrun v, vnum v).

#[global] Instance Declaration_eq_dec : EqDecision Declaration.
Proof. solve_decision. Defined.
#[global] Instance Reference_eq_dec : EqDecision Reference.
Proof. solve_decision. Defined.
#[global] Instance ScopeVariable_eq_dec : EqDecision ScopeVariable.
Proof. solve_decision. Defined.

(** A lexical scope: [astNode], [variableList], [children]. *)
Inductive Scope : Type :=
| MkScope (astNode : nat) (variableList : list ScopeVariable) (children : list Scope).

(** The objects of an analysis are new objects: those of run number
    [run] carry [run] in their identity, whatever the analysis reports
    there. *)
Definition new_variable (run : nat) (v : ScopeVariable) : ScopeVariable :=
  MkVariable run (vnum v) (vname v) (declarations v) (references v).

Fixpoint new_scope (run : nat) (sc : Scope) : Scope :=
  match sc with
  | MkScope astNode variableList children =>
      MkScope astNode (new_variable run <$> variableList)
        ((fix each (l : list Scope) : list Scope :=
            match l with
            | [] => []
            | c :: rest => new_scope run c :: each rest
            end) children)
  end.

(** [ScopeLookup]: the root [scope] and [variableMap], from identifier
    nodes to the variables they resolve to. *)
Record ScopeLookup : Type := MkScopeLookup {
  scope : Scope;
  variableMap : gmap nat (list ScopeVariable)
}.

(* ===================================================================== *)
(** ** Sessions and the store                                            *)
(* ===================================================================== *)

(** A queued insertion: [{after, statement}]. *)
Record Insertion : Type := MkInsertion {
  after : bool;
  statement : NodeRef
}.

(** The fields of a [RefactorSession] object.  [globalSession] is a
    reference into the session store; the [WeakMap] [scopeMap] is keyed
    by the identity of the [Variable] objects, and the [Set]
    [variables] holds each object once, in the order of insertion. *)
Record Session : Type := MkSession {
  nodes : list NodeRef;
  _root : NodeRef;
  globalSession : nat;
  autoCleanup : bool;
  dirty : bool;
  scopeMap : gmap (nat * nat) Scope;
  scopeOwnerMap : gmap nat Scope;
  parentMap : gmap nat NodeRef;
  variables : list ScopeVariable;
  replacements : gmap nat NodeRef;
  deletions : gset nat;
  insertions : gmap nat Insertion;
  lookupTable : option ScopeLookup
}.

Definition set_nodes (v : list NodeRef) (s : Session) : Session :=
  MkSession v (_root s) (globalSession s) (autoCleanup s) (dirty s) (scopeMap s)
    (scopeOwnerMap s) (parentMap s) (variables s) (replacements s) (deletions s)
    (insertions s) (lookupTable s).
Definition set_root (v : NodeRef) (s : Session) : Session :=
  MkSession (nodes s) v (globalSession s) (autoCleanup s) (dirty s) (scopeMap s)
    (scopeOwnerMap s) (parentMap s) (variables s) (replacements s) (deletions s)
    (insertions s) (lookupTable s).
Definition set_globalSession (v : nat) (s : Session) : Session :=
  MkSession (nodes s) (_root s) v (autoCleanup s) (dirty s) (scopeMap s)
    (scopeOwnerMap s) (parentMap s) (variables s) (replacements s) (deletions s)
    (insertions s) (lookupTable s).
Definition set_autoCleanup (v : bool) (s : Session) : Session :=
  MkSession (nodes s) (_root s) (globalSession s) v (dirty s) (scopeMap s)
    (scopeOwnerMap s) (parentMap s) (variables s) (replacements s) (deletions s)
    (insertions s) (lookupTable s).
Definition set_dirty (v : bool) (s : Session) : Session :=
  MkSession (nodes s) (_root s) (globalSession s) (autoCleanup s) v (scopeMap s)
    (scopeOwnerMap s) (parentMap s) (variables s) (replacements s) (deletions s)
    (insertions s) (lookupTable s).
Definition set_scopeMap (v : gmap (nat * nat) Scope) (s : Session) : Session :=
  MkSession (nodes s) (_root s) (globalSession s) (autoCleanup s) (dirty s) v
    (scopeOwnerMap s) (parentMap s) (variables s) (replacements s) (deletions s)
    (insertions s) (lookupTable s).
Definition set_scopeOwnerMap (v : gmap nat Scope) (s : Session) : Session :=
  MkSession (nodes s) (_root s) (globalSession s) (autoCleanup s) (dirty s) (scopeMap s)
    v (parentMap s) (variables s) (replacements s) (deletions s)
    (insertions s) (lookupTable s).
Definition set_parentMap (v : gmap nat NodeRef) (s : Session) : Session :=
  MkSession (nodes s) (_root s) (globalSession s) (autoCleanup s) (dirty s) (scopeMap s)
    (scopeOwnerMap s) v (variables s) (replacements s) (deletions s)
    (insertions s) (lookupTable s).
Definition set_variables (v : list ScopeVariable) (s : Session) : Session :=
  MkSession (nodes s) (_root s) (globalSession s) (autoCleanup s) (dirty s) (scopeMap s)
    (scopeOwnerMap s) (parentMap s) v (replacements s) (deletions s)
    (insertions s) (lookupTable s).
Definition set_replacements (v : gmap nat NodeRef) (s : Session) : Session :=
  MkSession (nodes s) (_root s) (globalSession s) (autoCleanup s) (dirty s) (scopeMap s)
    (scopeOwnerMap s) (parentMap s) (variables s) v (deletions s)
    (insertions s) (lookupTable s).
Definition set_deletions (v : gset nat) (s : Session) : Session :=
  MkSession (nodes s) (_root s) (globalSession s) (autoCleanup s) (dirty s) (scopeMap s)
    (scopeOwnerMap s) (parentMap s) (variables s) (replacements s) v
    (insertions s) (lookupTable s).
Definition set_insertions (v : gmap nat Insertion) (s : Session) : Session :=
  MkSession (nodes s) (_root s) (globalSession s) (autoCleanup s) (dirty s) (scopeMap s)
    (scopeOwnerMap s) (parentMap s) (variables s) (replacements s) (deletions s)
    v (lookupTable s).
Definition set_lookupTable (v : option ScopeLookup) (s : Session) : Session :=
  MkSession (nodes s) (_root s) (globalSession s) (autoCleanup s) (dirty s) (scopeMap s)
    (scopeOwnerMap s) (parentMap s) (variables s) (replacements s) (deletions s)
    (insertions s) v.

(** What the merge pass reports.  [DebugMsg] is a call of [debug(...)];
    the other three are ghost records of a queued mutation being
    applied to a node (the source keeps no such record; in a concrete
    run they show which branch of the callback fired). *)
Inductive Event : Type :=
| DebugMsg (msg : string)
| AppliedReplacement (n : nat)
| AppliedInsertion (n : nat)
| AppliedDeletion (n : nat).

#[global] Instance Event_eq_dec : EqDecision Event.
Proof. solve_decision. Defined.

(** The whole state: node objects, session objects, the log, and the
    number of scope analyses run so far (the source of the identities
    of the objects that an analysis makes). *)
Record World : Type := MkWorld {
  heap : Heap;
  sessions : gmap nat Session;
  log : list Event;
  analyses : nat
}.

Definition set_heap (h : Heap) (w : World) : World :=
  MkWorld h (sessions w) (log w) (analyses w).
Definition set_sessions (ss : gmap nat Session) (w : World) : World :=
  MkWorld (heap w) ss (log w) (analyses w).
Definition add_log (e : Event) (w : World) : World :=
  MkWorld (heap w) (sessions w) (e :: log w) (analyses w).
Definition set_analyses (k : nat) (w : World) : World :=
  MkWorld (heap w) (sessions w) (log w) k.

(** [this.field = ...] *)
Definition upd_session (this : nat) (f : Session -> Session) (w : World) : World :=
  set_sessions (alter f this (sessions w)) w.

(* ===================================================================== *)
(** ** Exceptions and the state-and-exception monad                      *)
(* ===================================================================== *)

Inductive Exn : Type :=
| RefactorError (msg : string)
| Error (msg : string)
| TypeError (msg : string)
| ParserError.

#[global] Instance Exn_eq_dec : EqDecision Exn.
Proof. solve_decision. Defined.

(** The outcome of a call on a state: a value, a thrown exception (the
    state reached when it was thrown stays), or, for the recursive
    calls and the work-list loop, no answer within the fuel. *)
Inductive Outcome (S A : Type) : Type :=
| Ok (a : A) (s : S)
| Throw (e : Exn) (s : S)
| OutOfFuel.

Arguments Ok {S A} a s.
Arguments Throw {S A} e s.
Arguments OutOfFuel {S A}.

Definition St (S A : Type) : Type := S -> Outcome S A.

#[global] Instance St_ret {S} : MRet (St S) := fun _ a s => Ok a s.
#[global] Instance St_bind {S} : MBind (St S) := fun _ _ k m s =>
  match m s with
  | Ok a s' => k a s'
  | Throw e s' => Throw e s'
  | OutOfFuel => OutOfFuel
  end.

Definition throw {S A} (e : Exn) : St S A := fun s => Throw e s.
Definition get_state {S} : St S S := fun s => Ok s s.
Definition modify {S} (f : S -> S) : St S unit := fun s => Ok tt (f s).

(** Reading an object through a reference.  A reference without an
    object does not arise from JavaScript and is reported as a
    [TypeError], as is a property read on [null] or [undefined]. *)
Definition deref (r : NodeRef) : St World NodeObj := fun w =>
  match r with
  | Ref id =>
      match heap w !! id with
      | Some o => Ok o w
      | None => Throw (TypeError "no such object") w
      end
  | _ => Throw (TypeError "Cannot read properties of null or undefined") w
  end.

(** Reading the fields of session object [this]. *)
Definition get_session (this : nat) : St World Session := fun w =>
  match sessions w !! this with
  | Some s => Ok s w
  | None => Throw (TypeError "no such session") w
  end.

(** Running a heap-only computation in a world. *)
Definition on_heap {A} (m : St Heap A) : St World A := fun w =>
  match m (heap w) with
  | Ok a h => Ok a (set_heap h w)
  | Throw e h => Throw e (set_heap h w)
  | OutOfFuel => OutOfFuel
  end.

(** [xs.map(f)] for an effectful [f], in order. *)
Fixpoint mapSt {S A B} (f : A -> St S B) (xs : list A) : St S (list B) :=
  match xs with
  | [] => mret []
  | x :: rest => y ← f x; ys ← mapSt f rest; mret (y :: ys)
  end.

(** [xs.forEach(f)] *)
Fixpoint forEachSt {S A} (f : A -> St S unit) (xs : list A) : St S unit :=
  match xs with
  | [] => mret tt
  | x :: rest => f x;; forEachSt f rest
  end.

(* ===================================================================== *)
(** ** JavaScript arrays                                                 *)
(* ===================================================================== *)

(** [arr.indexOf(x)]: the first position holding [x], or [-1]. *)
Fixpoint indexOf (x : NodeRef) (l : list NodeRef) : Z :=
  match l with
  | [] => (-1)%Z
  | y :: rest =>
      if decide (y = x) then 0%Z
      else let i := indexOf x rest in if (i <? 0)%Z then (-1)%Z else (i + 1)%Z
  end.

(** [arr.splice(start, 0, x)]: a negative [start] counts from the end,
    and [start] is clamped to the array. *)
Definition splice_insert (start : Z) (x : NodeRef) (l : list NodeRef) : list NodeRef :=
  let len := Z.of_nat (length l) in
  let actual := if (start <? 0)%Z then Z.max (len + start) 0 else Z.min start len in
  take (Z.to_nat actual) l ++ x :: drop (Z.to_nat actual) l.

(** [arr[i] = x]: past the end the array grows, with holes. *)
Definition array_set (i : nat) (x : NodeRef) (l : list NodeRef) : list NodeRef :=
  if decide (i < length l) then <[i := x]> l
  else l ++ replicate (i - length l) Undefined ++ [x].

(** [arr.splice(i, 1)] *)
Definition array_remove (i : nat) (l : list NodeRef) : list NodeRef :=
  delete i l.

(* ===================================================================== *)
(** ** The collaborators of the session                                  *)
(* ===================================================================== *)

(** What the session imports and [src/] does not contain: the parser,
    the scope analysis, the code generator, the child-key table of the
    traverser, the selector engine and the helpers of [./util].  They
    are parameters of the development. *)
Record Externals : Type := MkExternals {
  (** shift-parser's [parseScript]: a new [Script] object, or a syntax
      error ([None]). *)
  parseScript : string -> Heap -> option (nat * Heap);
  (** shift-scope's analysis of a tree, and the [variableMap] that
      [new ScopeLookup(scope)] derives from it.  Of the identity of a
      [Variable] object the analysis reports the number within the run
      ([vnum]); [getLookupTable] gives the objects the number of the
      run. *)
  shiftScope : NodeRef -> Heap -> Scope;
  variableMapOf : Scope -> gmap nat (list ScopeVariable);
  (** shift-codegen *)
  codegen : NodeRef -> Heap -> string;
  (** shift-traverser: the child keys it visits for a node type, in
      order; [None] for a type it does not know. *)
  keys : string -> option (list string);
  (** [./query] *)
  query : list NodeRef -> string -> Heap -> list NodeRef;
  (** [./util] *)
  copy : NodeRef -> St Heap NodeRef;
  isStatementType : string -> bool;
  extractStatement : nat -> St Heap NodeRef;
  extractExpression : nat -> St Heap NodeRef;
  buildParentMap : list NodeRef -> Heap -> gmap nat NodeRef
}.

(** The argument of a selection: a selector string, a node, or a list
    of nodes. *)
Inductive SelectorOrNode : Type :=
| Selector (q : string)
| SelNode (n : NodeRef)
| SelNodes (l : list NodeRef).

(** What a replacer function hands back: a node, a string, a promise,
    or something else. *)
Inductive ReplacerResult : Type :=
| RvNode (n : nat)
| RvString (s : string)
| RvPromise
| RvOther.

(** A replacer: a node, source text, or a function of the target node
    (which may build new node objects). *)
Inductive Replacer : Type :=
| ReplNode (n : nat)
| ReplSource (src : string)
| ReplFun (f : NodeRef -> St Heap ReplacerResult).

(** What the constructor accepts: source text, one node, or an array
    (whose entries may be strings, and are then dropped). *)
Inductive Item : Type :=
| ItemStr (s : string)
| ItemNode (r : NodeRef).

Inductive SourceOrNodes : Type :=
| Source (src : string)
| OneNode (n : NodeRef)
| NodeList (l : list Item).

(** [RefactorConfig]: both fields are optional. *)
Record RefactorConfig : Type := MkConfig {
  cfg_autoCleanup : option bool;
  cfg_parentSession : option nat
}.

(* ===================================================================== *)
(** ** The rewrite walk of shift-traverser                               *)
(* ===================================================================== *)

(** [traverser.replace(root, {leave})] is estraverse's work-list loop:
    an element is a node with the place that holds it; entering a node
    pushes a sentinel and the node's children; popping the sentinel
    calls [leave(node, parent)]; a returned value other than
    [undefined] is stored in the element's place, and [this.remove()]
    takes the element out of its place. *)
Module Traverser.

(** The place that holds a visited node: the root holder, a property of
    an object, or a position in an array property of an object. *)
Inductive Slot : Type :=
| RootSlot
| PropSlot (owner : nat) (key : string)
| ArrSlot (owner : nat) (key : string) (idx : nat).

Record Element : Type := MkElement {
  el_node : NodeRef;
  el_ref : Slot
}.

Inductive WorkItem : Type :=
| Sentinel
| Work (e : Element).

Record Machine : Type := MkMachine {
  m_world : World;
  worklist : list WorkItem;
  leavelist : list Element;
  outer_root : NodeRef
}.

(** What a [leave] callback hands back: its return value, and whether
    it called [this.remove()]. *)
Definition Leave : Type := NodeRef -> NodeRef -> St World (NodeRef * bool).

Definition set_array (owner : nat) (key : string) (f : list NodeRef -> list NodeRef)
  (h : Heap) : Heap :=
  alter (fun o =>
    match get_prop key (props o) with
    | Some (PArr l) => with_prop key (PArr (f l)) o
    | _ => o
    end) owner h.

(** [Reference.prototype.replace] *)
Definition slot_replace (r : Slot) (target : NodeRef) (m : Machine) : Machine :=
  match r with
  | RootSlot => MkMachine (m_world m) (worklist m) (leavelist m) target
  | PropSlot owner key =>
      MkMachine (set_heap (alter (with_prop key (PNode target)) owner (heap (m_world m))) (m_world m))
        (worklist m) (leavelist m) (outer_root m)
  | ArrSlot owner key idx =>
      MkMachine (set_heap (set_array owner key (array_set idx target) (heap (m_world m))) (m_world m))
        (worklist m) (leavelist m) (outer_root m)
  end.

(** The loop of [removeElem] over the work list, from its top: the keys
    of the pending elements of the same array go down by one, up to the
    first whose key is below the removed one.  (A pending element of
    the same array with the removed key itself only occurs in a cyclic
    structure.) *)
Fixpoint adjust_keys (owner : nat) (key : string) (idx : nat) (wl : list WorkItem)
  : list WorkItem :=
  match wl with
  | [] => []
  | Work (MkElement n (ArrSlot o k i)) :: rest =>
      if decide (o = owner ∧ k = key) then
        if decide (i < idx) then wl
        else Work (MkElement n (ArrSlot o k (i - 1))) :: adjust_keys owner key idx rest
      else Work (MkElement n (ArrSlot o k i)) :: adjust_keys owner key idx rest
  | item :: rest => item :: adjust_keys owner key idx rest
  end.

(** [removeElem]: [Reference.prototype.remove] splices an array place
    and stores [null] in any other. *)
Definition removeElem (e : Element) (m : Machine) : Machine :=
  match el_ref e with
  | ArrSlot owner key idx =>
      MkMachine (set_heap (set_array owner key (array_remove idx) (heap (m_world m))) (m_world m))
        (adjust_keys owner key idx (worklist m)) (leavelist m) (outer_root m)
  | r => slot_replace r Null m
  end.

(** The elements pushed for the children of an entered node, in the
    order in which they will be popped. *)
Definition array_elements (owner : nat) (key : string) (l : list NodeRef) : list WorkItem :=
  omap (fun '(i, r) => if truthy r then Some (Work (MkElement r (ArrSlot owner key i))) else None)
       (imap (fun i r => (i, r)) l).

Definition child_elements (owner : nat) (o : NodeObj) (candidates : list string)
  : list WorkItem :=
  flat_map (fun key =>
    match get_prop key (props o) with
    | Some (PArr l) => array_elements owner key l
    | Some (PNode r) => if truthy r then [Work (MkElement r (PropSlot owner key))] else []
    | _ => []
    end) candidates.

Section Walk.
Context (E : Externals) (leave : Leave).

(** One turn of the [while (worklist.length)] loop. *)
Definition step : St Machine unit := fun m =>
  match worklist m with
  | [] => Ok tt m
  | Sentinel :: wl =>
      match leavelist m with
      | [] => Throw (TypeError "Cannot read properties of undefined") m
      | e :: ll =>
          match ll with
          | [] => Throw (TypeError "Cannot read properties of undefined") m
          | p :: _ =>
              match leave (el_node e) (el_node p) (m_world m) with
              | Ok (target, removed) w' =>
                  let m1 := MkMachine w' wl ll (outer_root m) in
                  let m2 := if decide (target = Undefined) then m1
                            else slot_replace (el_ref e) target m1 in
                  let m3 := if removed then removeElem e m2 else m2 in
                  Ok tt m3
              | Throw x w' => Throw x (MkMachine w' wl ll (outer_root m))
              | OutOfFuel => OutOfFuel
              end
          end
      end
  | Work e :: wl =>
      match el_node e with
      | Ref id =>
          match heap (m_world m) !! id with
          | None => Throw (TypeError "no such object") m
          | Some o =>
              match keys E (ntype o) with
              | None => Throw (Error "Unknown node type") m
              | Some candidates =>
                  Ok tt (MkMachine (m_world m)
                           (child_elements id o candidates ++ Sentinel :: wl)
                           (e :: leavelist m) (outer_root m))
              end
          end
      | _ => Ok tt (MkMachine (m_world m) wl (leavelist m) (outer_root m))
      end
  end.

Fixpoint run (fuel : nat) : St Machine unit := fun m =>
  match worklist m with
  | [] => Ok tt m
  | _ :: _ =>
      match fuel with
      | 0 => OutOfFuel
      | S f => (step;; run f) m
      end
  end.

(** [traverser.replace(root, {leave})]: the root element is on both
    lists at the start, and the result is what the root holder holds
    at the end. *)
Definition replace (root : NodeRef) (fuel : nat) : St World NodeRef := fun w =>
  let e := MkElement root RootSlot in
  match run fuel (MkMachine w [Work e] [e] root) with
  | Ok _ m => Ok (outer_root m) (m_world m)
  | Throw x m => Throw x (m_world m)
  | OutOfFuel => OutOfFuel
  end.
End Walk.

End Traverser.

(* ===================================================================== *)
(** ** [class RefactorSession]                                           *)
(* ===================================================================== *)

Module RefactorSession.

(** The property of an object as a node position ([undefined] when the
    property is missing or holds no node). *)
Definition prop_ref (key : string) (o : NodeObj) : NodeRef :=
  match get_prop key (props o) with
  | Some (PNode r) => r
  | _ => Undefined
  end.

(** [script.statements[0]] *)
Definition statements0 (script : NodeRef) : St World NodeRef :=
  o ← deref script;
  match get_prop "statements" (props o) with
  | Some (PArr l) => mret (default Undefined (l !! 0))
  | _ => throw (TypeError "Cannot read properties of undefined (reading '0')")
  end.

(** [WeakMap.prototype.set] and [WeakMap.prototype.get] on the scope
    map, and [Set.prototype.add]: all three go by the identity of the
    [Variable] object. *)
Definition scopeMap_set (v : ScopeVariable) (sc : Scope) (m : gmap (nat * nat) Scope)
  : gmap (nat * nat) Scope :=
  <[vid v := sc]> m.

Definition variables_add (v : ScopeVariable) (l : list ScopeVariable) : list ScopeVariable :=
  if decide (vid v ∈ vid <$> l) then l else l ++ [v].

Definition scopeMap_get (v : ScopeVariable) (m : gmap (nat * nat) Scope) : option Scope :=
  m !! vid v.

(** The node type test of [lookupVariable]'s [switch]. *)
Definition lookupKey (node : NodeRef) (o : NodeObj) : NodeRef :=
  let t := ntype o in
  if decide (t = "AssignmentExpression" ∨ t = "VariableDeclarator") then prop_ref "binding" o
  else if decide (t = "AssignmentTargetIdentifier" ∨ t = "IdentifierExpression"
                  ∨ t = "BindingIdentifier") then node
  else if decide (t = "ClassDeclaration" ∨ t = "ClassExpression"
                  ∨ t = "FunctionDeclaration" ∨ t = "FunctionExpression") then prop_ref "name" o
  else Undefined.

Section Methods.
Context (E : Externals).

(** [isStatement] of [./util], by the node's type. *)
Definition isStatement (r : NodeRef) (h : Heap) : bool :=
  match r with
  | Ref id =>
      match h !! id with
      | Some o => isStatementType E (ntype o)
      | None => false
      end
  | _ => false
  end.

(** Modelled from the spec: [findNodes] of [./util] is not under
    [src/]; "a selection (selector string, explicit node, or nested
    session) resolves to a list of target nodes via the Query
    Delegation component". *)
Definition findNodes (ns : list NodeRef) (sel : SelectorOrNode) (h : Heap) : list NodeRef :=
  match sel with
  | Selector q => query E ns q h
  | SelNode n => [n]
  | SelNodes l => l
  end.

Definition parse (src : string) : St World NodeRef := fun w =>
  match parseScript E src (heap w) with
  | Some (tree, h) => Ok (Ref tree) (set_heap h w)
  | None => Throw ParserError w
  end.

(** [isDirty(dirty?)] *)
Definition isDirty (this : nat) (d : option bool) : St World bool :=
  match d with
  | Some b => modify (upd_session this (set_dirty b))
  | None => mret tt
  end;;
  s ← get_session this;
  mret (dirty s).

(** [rebuildParentMap()] *)
Definition rebuildParentMap (this : nat) : St World unit :=
  s ← get_session this;
  w ← get_state;
  modify (upd_session this (set_parentMap (buildParentMap E (nodes s) (heap w)))).

(** [get root()] *)
Fixpoint root (fuel : nat) (this : nat) : St World NodeRef :=
  match fuel with
  | 0 => fun _ => OutOfFuel
  | S f =>
      s ← get_session this;
      if truthy (_root s) then mret (_root s)
      else if decide (this = globalSession s) then throw (Error "why")
      else root f (globalSession s)
  end.

(** The local function [recurse] of [_rebuildScopeMap]. *)
Fixpoint recurse (this : nat) (sc : Scope) : St World unit :=
  match sc with
  | MkScope astNode variableList children =>
      modify (upd_session this
                (fun s => set_scopeOwnerMap (<[astNode := sc]> (scopeOwnerMap s)) s));;
      forEachSt (fun variable =>
        modify (upd_session this (fun s =>
          set_scopeMap (scopeMap_set variable sc (scopeMap s))
            (set_variables (variables_add variable (variables s)) s)))) variableList;;
      (fix each (l : list Scope) : St World unit :=
         match l with
         | [] => mret tt
         | c :: rest => recurse this c;; each rest
         end) children
  end.

(** [getLookupTable()] and [_rebuildScopeMap()], which call each
    other. *)
Fixpoint getLookupTable (fuel : nat) (this : nat) : St World ScopeLookup :=
  match fuel with
  | 0 => fun _ => OutOfFuel
  | S f =>
      s ← get_session this;
      match lookupTable s with
      | Some t => mret t
      | None =>
          r ← root f this;
          w ← get_state;
          let globalScope := new_scope (analyses w) (shiftScope E r (heap w)) in
          modify (set_analyses (S (analyses w)));;
          let t := MkScopeLookup globalScope (variableMapOf E globalScope) in
          modify (upd_session this (set_lookupTable (Some t)));;
          _rebuildScopeMap f this;;
          mret t
      end
  end
with _rebuildScopeMap (fuel : nat) (this : nat) : St World unit :=
  match fuel with
  | 0 => fun _ => OutOfFuel
  | S f =>
      lookupTable ← getLookupTable f this;
      modify (upd_session this (fun s => set_variables [] (set_scopeMap ∅ s)));;
      recurse this (scope lookupTable)
  end.

(** The field initialisers of the class. *)
Definition initial_fields : Session :=
  {| nodes := []; _root := Undefined; globalSession := 0; autoCleanup := true;
     dirty := false; scopeMap := ∅; scopeOwnerMap := ∅; parentMap := ∅;
     variables := []; replacements := ∅; deletions := ∅; insertions := ∅;
     lookupTable := None |}.

(** [new RefactorSession(sourceOrNodes, config)]: the new object is
    allocated in the store, the body runs on it, and its identity is
    the result. *)
Definition constructor (fuel : nat) (sourceOrNodes : SourceOrNodes) (config : RefactorConfig)
  : St World nat :=
  w0 ← get_state;
  let this := fresh (dom (sessions w0)) in
  modify (fun w => set_sessions (<[this := initial_fields]> (sessions w)) w);;
  ns ← match cfg_parentSession config with
       | Some parentSession =>
           p ← get_session parentSession;
           modify (upd_session this (set_globalSession (globalSession p)));;
           match sourceOrNodes with
           | Source _ =>
               throw (Error "Can not initialize child RefactorSession with a new AST")
           | NodeList l =>
               mret (omap (fun x => match x with ItemNode r => Some r | ItemStr _ => None end) l)
           | OneNode n => mret [n]
           end
       | None =>
           ns ← match sourceOrNodes with
                | Source src =>
                    fun w =>
                      match parseScript E src (heap w) with
                      | Some (tree, h) =>
                          Ok [Ref tree] (upd_session this (set_root (Ref tree)) (set_heap h w))
                      | None => Throw (RefactorError "Could not parse passed source") w
                      end
                | NodeList _ =>
                    throw (RefactorError "Must initialize root session with a JavaScript source program (JS source or single Node)")
                | OneNode n =>
                    modify (upd_session this (set_root n));;
                    mret [n]
                end;
           modify (upd_session this (set_globalSession this));;
           mret ns
       end;
  modify (upd_session this (set_nodes ns));;
  match cfg_autoCleanup config with
  | Some b => if b then modify (upd_session this (set_autoCleanup b)) else mret tt
  | None => mret tt
  end;;
  rebuildParentMap this;;
  getLookupTable fuel this;;
  mret this.

(** [subSession(querySessionOrNodes)]: the argument is a selection
    or another session. *)
Definition subSession (fuel : nat) (this : nat) (querySessionOrNodes : SelectorOrNode + nat)
  : St World nat :=
  ns ← match querySessionOrNodes with
       | inr other => o ← get_session other; mret (nodes o)
       | inl sel => s ← get_session this; w ← get_state; mret (findNodes (nodes s) sel (heap w))
       end;
  constructor fuel (NodeList (ItemNode <$> ns)) (MkConfig None (Some this)).

(** [renameInPlace(lookup, newName)] *)
Definition set_name (newName : string) (id : nat) : St World unit :=
  modify (fun w => set_heap (alter (with_prop "name" (PStr newName)) id (heap w)) w).

Definition renameInPlace (lookup : option ScopeVariable) (newName : string) : St World unit :=
  match lookup with
  | None => mret tt
  | Some v =>
      if decide (newName = "") then mret tt
      else
        forEachSt (fun decl => set_name newName (decl_node decl)) (declarations v);;
        forEachSt (fun ref => set_name newName (ref_node ref)) (references v)
  end.

(** [rename(selectorOrNode, newName)] *)
Definition rename (fuel : nat) (this : nat) (sel : SelectorOrNode) (newName : string)
  : St World nat :=
  lookupTable ← getLookupTable fuel this;
  s ← get_session this;
  w ← get_state;
  forEachSt (fun node =>
    o ← deref node;
    let node := if decide (ntype o = "VariableDeclarator") then prop_ref "binding" o else node in
    match node with
    | Ref id =>
        match variableMap lookupTable !! id with
        | None => mret tt
        | Some lookup => renameInPlace (head lookup) newName
        end
    | _ => mret tt
    end) (findNodes (nodes s) sel (heap w));;
  mret this.

(** [_queueDeletion(node)]; a [WeakSet] takes objects only. *)
Fixpoint _queueDeletion (fuel : nat) (this : nat) (node : NodeRef) : St World unit :=
  match fuel with
  | 0 => fun _ => OutOfFuel
  | S f =>
      s ← get_session this;
      if decide (this ≠ globalSession s) then _queueDeletion f (globalSession s) node
      else
        isDirty this (Some true);;
        match node with
        | Ref id => modify (upd_session this (fun s => set_deletions ({[id]} ∪ deletions s) s))
        | _ => throw (TypeError "Invalid value used in weak set")
        end
  end.

(** [_queueReplacement(from, to)]; a [WeakMap] takes objects as keys
    only. *)
Fixpoint _queueReplacement (fuel : nat) (this : nat) (from to : NodeRef) : St World unit :=
  match fuel with
  | 0 => fun _ => OutOfFuel
  | S f =>
      s ← get_session this;
      if decide (this ≠ globalSession s) then _queueReplacement f (globalSession s) from to
      else
        isDirty this (Some true);;
        match from with
        | Ref id =>
            modify (upd_session this (fun s => set_replacements (<[id := to]> (replacements s)) s))
        | _ => throw (TypeError "Invalid value used as weak map key")
        end
  end.

(** The test [node.declaration.declarators.length === 0] of the
    merge pass. *)
Definition declaratorsEmpty (o : NodeObj) : St World bool :=
  match get_prop "declaration" (props o) with
  | Some (PNode declaration) =>
      d ← deref declaration;
      match get_prop "declarators" (props d) with
      | Some (PArr l) => mret (bool_decide (length l = 0))
      | Some (PStr str) => mret (bool_decide (String.length str = 0))
      | Some (PNode (Ref _)) => mret false
      | _ => throw (TypeError "Cannot read properties of undefined (reading 'length')")
      end
  | _ => throw (TypeError "Cannot read properties of undefined (reading 'declarators')")
  end.

(** The [leave] callback of [cleanup]; [_this] is the session that
    runs the merge.  The result is the callback's return value and
    whether it called [this.remove()]. *)
Definition cleanup_leave (_this : nat) : Traverser.Leave := fun node parent =>
  o ← deref node;
  emptied ← (if decide (ntype o = "VariableDeclarationStatement")
             then declaratorsEmpty o else mret false);
  if (emptied : bool) then mret (Undefined, true)
  else
    match node with
    | Ref id =>
        s ← get_session _this;
        match replacements s !! id with
        | Some newNode =>
            modify (upd_session _this (fun s => set_replacements (delete id (replacements s)) s));;
            modify (add_log (AppliedReplacement id));;
            mret (newNode, false)
        | None =>
            match insertions s !! id with
            | Some insertion =>
                w ← get_state;
                if isStatement node (heap w) then
                  p ← deref parent;
                  if has_prop "statements" p then
                    match parent, get_prop "statements" (props p) with
                    | Ref pid, Some (PArr l) =>
                        let statementIndex := indexOf node l in
                        let statementIndex :=
                          if after insertion then (statementIndex + 1)%Z else statementIndex in
                        modify (fun w => set_heap
                          (<[pid := with_prop "statements"
                                      (PArr (splice_insert statementIndex (statement insertion) l)) p]>
                             (heap w)) w);;
                        modify (upd_session _this
                                  (fun s => set_insertions (delete id (insertions s)) s));;
                        modify (add_log (AppliedInsertion id))
                    | _, _ => throw (TypeError "parent.statements.indexOf is not a function")
                    end
                  else modify (add_log (DebugMsg "Tried to insert but I lost track of my parent block :-("))
                else modify (add_log (DebugMsg "Tried to insert a non-Statement. Skipping."))
            | None => mret tt
            end;;
            s ← get_session _this;
            if decide (id ∈ deletions s) then
              modify (upd_session _this (fun s => set_replacements (delete id (replacements s)) s));;
              modify (add_log (AppliedDeletion id));;
              mret (Undefined, true)
            else mret (Undefined, false)
        end
    | _ => mret (Undefined, false)
    end.

(** [cleanup()] *)
Fixpoint cleanup (fuel : nat) (this : nat) : St World nat :=
  match fuel with
  | 0 => fun _ => OutOfFuel
  | S f =>
      s ← get_session this;
      if decide (this ≠ globalSession s) then cleanup f (globalSession s)
      else
        d ← isDirty this None;
        if negb d then mret this
        else
          result ← mapSt (fun node => Traverser.replace E (cleanup_leave this) node f) (nodes s);
          modify (upd_session this (set_lookupTable None));;
          rebuildParentMap this;;
          isDirty this (Some false);;
          modify (upd_session this (set_nodes result));;
          mret this
  end.

(** [conditionalCleanup()] *)
Definition conditionalCleanup (fuel : nat) (this : nat) : St World nat :=
  s ← get_session this;
  if autoCleanup s then cleanup fuel this;; mret this else mret this.

(** [delete(selectorOrNode = this.nodes)] *)
Definition delete (fuel : nat) (this : nat) (selectorOrNode : option SelectorOrNode)
  : St World nat :=
  s ← get_session this;
  w ← get_state;
  let ns := findNodes (nodes s) (default (SelNodes (nodes s)) selectorOrNode) (heap w) in
  (if decide (0 < length ns) then forEachSt (_queueDeletion fuel this) ns else mret tt);;
  conditionalCleanup fuel this.

(** The callback of [nodes.map] in [replace], up to the decision to
    queue: the replacement computed for one target node. *)
Definition replacement_for (replacer : Replacer) (replacementScript : NodeRef)
  (node : NodeRef) : St World NodeRef :=
  match replacer with
  | ReplFun f =>
      rv ← on_heap (f node);
      match rv with
      | RvPromise =>
          throw (RefactorError "Promise returned from replacer function, use .replaceAsync() instead.")
      | RvNode n => mret (Ref n)
      | RvString str =>
          returnedTree ← parse str;
          w ← get_state;
          match returnedTree with
          | Ref tree =>
              if isStatement node (heap w) then on_heap (extractStatement E tree)
              else on_heap (extractExpression E tree)
          | _ => mret Null
          end
      | RvOther => throw (RefactorError "Invalid return type from replacement function")
      end
  | ReplNode n => on_heap (copy E (Ref n))
  | ReplSource _ =>
      if truthy replacementScript then
        w ← get_state;
        if isStatement node (heap w) then
          st ← statements0 replacementScript;
          on_heap (copy E st)
        else
          st ← statements0 replacementScript;
          o ← deref st;
          if decide (ntype o = "ExpressionStatement")
          then on_heap (copy E (prop_ref "expression" o))
          else mret Null
      else mret Null
  end.

(** [replace(selectorOrNode, replacer)] *)
Definition replace (fuel : nat) (this : nat) (selectorOrNode : SelectorOrNode)
  (replacer : Replacer) : St World nat :=
  s ← get_session this;
  w ← get_state;
  let ns := findNodes (nodes s) selectorOrNode (heap w) in
  replacementScript ← match replacer with
                      | ReplSource src => parse src
                      | _ => mret Null
                      end;
  replaced ← mapSt (fun node =>
    replacement ← replacement_for replacer replacementScript node;
    if truthy node && negb (bool_decide (replacement = node)) then
      _queueReplacement fuel this node replacement;;
      mret true
    else mret false) ns;
  conditionalCleanup fuel this;;
  mret (length (filter (fun wasReplaced => wasReplaced = true) replaced)).

(** [first()] *)
Definition first (this : nat) : St World NodeRef :=
  s ← get_session this;
  mret (default Undefined (nodes s !! 0)).

(** The local function [getInsertion] of [insert]; the local variable
    [insertion] it assigns is passed in and handed back. *)
Definition getInsertion (insertion : NodeRef) (program : Replacer) (node : NodeRef)
  : St World (NodeRef * NodeRef) :=
  match program with
  | ReplFun f =>
      result ← on_heap (f node);
      match result with
      | RvNode n => mret (Ref n, insertion)
      | RvString src => script ← parse src; st ← statements0 script; mret (st, insertion)
      | _ => throw ParserError
      end
  | _ =>
      if truthy insertion then c ← on_heap (copy E insertion); mret (c, insertion)
      else
        match program with
        | ReplNode n => c ← on_heap (copy E (Ref n)); mret (c, insertion)
        | ReplSource src => script ← parse src; st ← statements0 script; mret (st, st)
        | ReplFun _ => mret (Undefined, insertion)
        end
  end.

(** The callback of [nodes.forEach] in [insert]. *)
Definition insert_one (this : nat) (replacer : Replacer) (after : bool)
  (insertion : NodeRef) (node : NodeRef) : St World NodeRef :=
  w ← get_state;
  if negb (isStatement node (heap w))
  then throw (RefactorError "Can only insert before or after Statements or Declarations")
  else
    isDirty this (Some true);;
    '(toInsert, insertion) ← getInsertion insertion replacer node;
    w ← get_state;
    if negb (isStatement toInsert (heap w))
    then throw (RefactorError "Will not insert anything but a Statement or Declaration")
    else
      '(st, insertion) ← getInsertion insertion replacer node;
      match node with
      | Ref id =>
          modify (upd_session this
                    (fun s => set_insertions (<[id := MkInsertion after st]> (insertions s)) s));;
          mret insertion
      | _ => throw (TypeError "Invalid value used as weak map key")
      end.

Fixpoint insert_each (this : nat) (replacer : Replacer) (after : bool)
  (insertion : NodeRef) (ns : list NodeRef) : St World unit :=
  match ns with
  | [] => mret tt
  | node :: rest =>
      insertion ← insert_one this replacer after insertion node;
      insert_each this replacer after insertion rest
  end.

(** [insert(selectorOrNode, replacer, after = false)] *)
Fixpoint insert (fuel : nat) (this : nat) (selectorOrNode : SelectorOrNode)
  (replacer : Replacer) (after : bool) : St World nat :=
  match fuel with
  | 0 => fun _ => OutOfFuel
  | S f =>
      s ← get_session this;
      if decide (this ≠ globalSession s)
      then insert f (globalSession s) selectorOrNode replacer after
      else
        w ← get_state;
        insert_each this replacer after Null (findNodes (nodes s) selectorOrNode (heap w));;
        conditionalCleanup f this
  end.

(** [findParents(selectorOrNode)] *)
Definition findParents (this : nat) (selectorOrNode : SelectorOrNode)
  : St World (list NodeRef) :=
  s ← get_session this;
  g ← get_session (globalSession s);
  w ← get_state;
  mret (filter (fun node => truthy node = true)
          ((fun node => match node with
                        | Ref id => default Undefined (parentMap g !! id)
                        | _ => Undefined
                        end) <$> findNodes (nodes s) selectorOrNode (heap w))).

(** [prepend] and [append] *)
Definition prepend (fuel : nat) (this : nat) (selectorOrNode : SelectorOrNode)
  (replacer : Replacer) : St World nat :=
  s ← get_session this;
  insert fuel (globalSession s) selectorOrNode replacer false.

Definition append (fuel : nat) (this : nat) (selectorOrNode : SelectorOrNode)
  (replacer : Replacer) : St World nat :=
  s ← get_session this;
  insert fuel (globalSession s) selectorOrNode replacer true.

(** [getInnerScope(node)] *)
Definition getInnerScope (this : nat) (node : nat) : St World (option Scope) :=
  s ← get_session this;
  mret (scopeOwnerMap s !! node).

(** [lookupVariable(node)]; for an array argument the caller passes
    its first entry. *)
Definition lookupVariable (fuel : nat) (this : nat) (node : NodeRef)
  : St World (option ScopeVariable) :=
  lookupTable ← getLookupTable fuel this;
  o ← deref node;
  match lookupKey node o with
  | Ref key =>
      match variableMap lookupTable !! key with
      | None =>
          throw (Error "Could not find reference to passed identifier. Ensure you are passing a valid Identifier node.")
      | Some lookup =>
          if decide (1 < length lookup)
          then throw (Error "When does this happen? Submit an issue with this case so I can handle it better.")
          else mret (head lookup)
      end
  | _ =>
      throw (Error "Could not find reference to passed identifier. Ensure you are passing a valid Identifier node.")
  end.

(** [lookupScope(variableLookup)], for a variable or a node. *)
Definition lookupScope (fuel : nat) (this : nat) (variableLookup : ScopeVariable + NodeRef)
  : St World (option Scope) :=
  v ← match variableLookup with
      | inl v => mret (Some v)
      | inr node => lookupVariable fuel this node
      end;
  s ← get_session this;
  mret (v ≫= fun v => scopeMap_get v (scopeMap s)).

(** [generate(ast?)] *)
Definition generate (this : nat) (ast : NodeRef) : St World string :=
  d ← isDirty this None;
  if (d : bool) then
    throw (RefactorError "refactor .print() called with a dirty AST. This is almost always a bug. Call .cleanup() before printing.")
  else
    f ← first this;
    w ← get_state;
    mret (codegen E (if truthy ast then ast else f) (heap w)).

(** [replaceRecursive(selectorOrNode, replacer)] *)
Fixpoint replaceRecursive (fuel : nat) (this : nat) (selectorOrNode : SelectorOrNode)
  (replacer : Replacer) : St World nat :=
  match fuel with
  | 0 => fun _ => OutOfFuel
  | S f =>
      nodesReplaced ← replace f this selectorOrNode replacer;
      cleanup f this;;
      (if decide (0 < nodesReplaced)
       then replaceRecursive f this selectorOrNode replacer;; mret tt
       else mret tt);;
      mret this
  end.
End Methods.
End RefactorSession.

(* ===================================================================== *)
(** ** A small instance of the collaborators                             *)
(* ===================================================================== *)

(** A stand-in for the collaborators on a fragment of the Shift AST,
    enough to run the session on concrete trees. *)
Module Demo.

Definition keys (t : string) : option (list string) :=
  if decide (t = "Script") then Some ["directives"; "statements"]
  else if decide (t = "Block") then Some ["statements"]
  else if decide (t = "BlockStatement") then Some ["block"]
  else if decide (t = "ExpressionStatement") then Some ["expression"]
  else if decide (t = "IfStatement") then Some ["test"; "consequent"; "alternate"]
  else if decide (t = "VariableDeclarationStatement") then Some ["declaration"]
  else if decide (t = "VariableDeclaration") then Some ["declarators"]
  else if decide (t = "VariableDeclarator") then Some ["binding"; "init"]
  else if decide (t = "BinaryExpression") then Some ["left"; "right"]
  else if decide (t = "BindingIdentifier" ∨ t = "IdentifierExpression"
                  ∨ t = "LiteralNumericExpression" ∨ t = "EmptyStatement") then Some []
  else None.

Definition isStatementType (t : string) : bool :=
  bool_decide (t ∈ ["BlockStatement"; "ExpressionStatement"; "IfStatement";
                    "VariableDeclarationStatement"; "EmptyStatement";
                    "VariableDeclaration"; "FunctionDeclaration"; "ClassDeclaration"]).

(** The nodes in the child positions of an object, in key order. *)
Definition children (o : NodeObj) : list nat :=
  flat_map (fun key =>
    match get_prop key (props o) with
    | Some (PArr l) => omap (fun r => match r with Ref c => Some c | _ => None end) l
    | Some (PNode (Ref c)) => [c]
    | _ => []
    end) (default [] (keys (ntype o))).

(** Modelled from the spec: [buildParentMap] of [./util] is not under
    [src/]; "built by one full traversal of the managed roots,
    recording each visited node's immediate parent". *)
Fixpoint parents_under (depth : nat) (h : Heap) (id : nat) (acc : gmap nat NodeRef)
  : gmap nat NodeRef :=
  match depth with
  | 0 => acc
  | S d =>
      match h !! id with
      | Some o =>
          foldl (fun acc c => parents_under d h c (<[c := Ref id]> acc)) acc (children o)
      | None => acc
      end
  end.

Definition buildParentMap (ns : list NodeRef) (h : Heap) : gmap nat NodeRef :=
  foldl (fun acc r => match r with Ref id => parents_under (size h) h id acc | _ => acc end) ∅ ns.

(** A deep copy into fresh objects. *)
Fixpoint copy_node (depth : nat) (r : NodeRef) (h : Heap) : NodeRef * Heap :=
  match depth, r with
  | S d, Ref id =>
      match h !! id with
      | Some o =>
          let '(ps, h1) :=
            foldr (fun '(k, v) '(ps, h) =>
                     match v with
                     | PStr s => ((k, PStr s) :: ps, h)
                     | PNode c => let '(c', h') := copy_node d c h in ((k, PNode c') :: ps, h')
                     | PArr l =>
                         let '(l', h') :=
                           foldr (fun c '(l, h) =>
                                    let '(c', h') := copy_node d c h in (c' :: l, h')) ([], h) l in
                         ((k, PArr l') :: ps, h')
                     end) ([], h) (props o) in
          let new := fresh (dom h1) in
          (Ref new, <[new := MkNode (ntype o) ps]> h1)
      | None => (r, h)
      end
  | _, _ => (r, h)
  end.

Definition copy (r : NodeRef) : St Heap NodeRef := fun h =>
  let '(c, h') := copy_node (size h) r h in Ok c h'.

(** A parser for three inputs. *)
Definition parseScript (src : string) (h : Heap) : option (nat * Heap) :=
  let a := fresh (dom h) in
  if decide (src = "x") then
    Some (a + 2, <[a + 2 := MkNode "Script" [("directives", PArr []); ("statements", PArr [Ref (a + 1)])]]>
                   (<[a + 1 := MkNode "ExpressionStatement" [("expression", PNode (Ref a))]]>
                      (<[a := MkNode "IdentifierExpression" [("name", PStr "x")]]> h)))
  else if decide (src = ";") then
    Some (a + 1, <[a + 1 := MkNode "Script" [("directives", PArr []); ("statements", PArr [Ref a])]]>
                   (<[a := MkNode "EmptyStatement" []]> h))
  else if decide (src = "") then
    Some (a, <[a := MkNode "Script" [("directives", PArr []); ("statements", PArr [])]]> h)
  else None.

Definition first_statement (tree : nat) (h : Heap) : NodeRef :=
  match h !! tree with
  | Some o =>
      match get_prop "statements" (props o) with
      | Some (PArr (st :: _)) => st
      | _ => Undefined
      end
  | None => Undefined
  end.

(** Modelled from the spec: [extractStatement] and [extractExpression]
    of [./util] are not under [src/]; the parsed text is "narrowed to a
    single statement or single expression", and a result that
    "resolves to the wrong syntactic category" is an invalid
    replacement value. *)
Definition extractStatement (tree : nat) : St Heap NodeRef := fun h =>
  Ok (first_statement tree h) h.

Definition extractExpression (tree : nat) : St Heap NodeRef := fun h =>
  match first_statement tree h with
  | Ref st =>
      match h !! st with
      | Some o =>
          if decide (ntype o = "ExpressionStatement")
          then Ok (RefactorSession.prop_ref "expression" o) h
          else Throw (RefactorError "Can't replace an expression with a statement") h
      | None => Throw (TypeError "no such object") h
      end
  | _ => Throw (TypeError "Cannot read properties of undefined (reading 'type')") h
  end.

Definition externals : Externals :=
  MkExternals parseScript
    (fun r _ => MkScope (match r with Ref id => id | _ => 0 end) [] [])
    (fun _ => ∅)
    (fun r h => match r with
                | Ref id => default "" (ntype <$> h !! id)
                | _ => ""
                end)
    keys
    (fun _ _ _ => [])
    copy isStatementType extractStatement extractExpression buildParentMap.

(** [a; b; c] as the statements of a script, and a statement [x]
    outside the tree. *)
Definition ident (name : string) : NodeObj :=
  MkNode "IdentifierExpression" [("name", PStr name)].
Definition exprStatement (e : nat) : NodeObj :=
  MkNode "ExpressionStatement" [("expression", PNode (Ref e))].
Definition script (statements : list NodeRef) : NodeObj :=
  MkNode "Script" [("directives", PArr []); ("statements", PArr statements)].

Definition abc_heap : Heap :=
  list_to_map [(1, script [Ref 2; Ref 3; Ref 4]);
               (2, exprStatement 5); (3, exprStatement 6); (4, exprStatement 7);
               (5, ident "a"); (6, ident "b"); (7, ident "c");
               (8, exprStatement 9); (9, ident "x")].

Definition abc_world : World := MkWorld abc_heap ∅ [] 0.

End Demo.

Import RefactorSession.

(* ===================================================================== *)
(** ** Sessions and runs on the small instance                          *)
(* ===================================================================== *)

Module DemoWorlds.
(** The world after [new RefactorSession(script)] on the script of
    [a; b; c]; the session is object 0. *)
Definition root_world : World :=
  match constructor Demo.externals 5 (OneNode (Ref 1)) (MkConfig None None) Demo.abc_world with
  | Ok _ w => w
  | _ => Demo.abc_world
  end.
Definition root_session : Session :=
  default initial_fields (sessions root_world !! 0).

(** The world after [subSession] of statement [b] on top of that; the
    subsession is object 1. *)
Definition sub_world : World :=
  match subSession Demo.externals 5 0 (inl (SelNode (Ref 3))) root_world with
  | Ok _ w => w
  | _ => root_world
  end.
Definition sub_session : Session :=
  default initial_fields (sessions sub_world !! 1).
End DemoWorlds.

Module Runs.

(** A replacer function that hands back node 8. *)
Definition give8 : Replacer := ReplFun (fun _ h => Ok (RvNode 8) h).


(** On the session over [a; b; c]: statement [b] is queued for
    replacement by [x] and for deletion, then committed. *)
Definition replaced_and_deleted : Outcome World nat :=
  (_queueReplacement 5 0 (Ref 3) (Ref 8);;
   _queueDeletion 5 0 (Ref 3);;
   cleanup Demo.externals 50 0) DemoWorlds.root_world.

(** The script [a; b; c] and a second script, [x], outside it. *)
Definition two_scripts : World :=
  MkWorld (<[10 := Demo.script [Ref 8]]> Demo.abc_heap) ∅ [] 0.

(** A session over the first script, and [replace] of that script by
    the second one through a replacer function; auto-cleanup is on, so
    the call commits. *)
Definition root_replaced : Outcome World nat :=
  (g ← constructor Demo.externals 5 (OneNode (Ref 1)) (MkConfig None None);
   replace Demo.externals 50 g (SelNode (Ref 1)) (ReplFun (fun _ h => Ok (RvNode 10) h));;
   mret g) two_scripts.

(** A session built with [autoCleanup: false], then [delete] of
    statement [b]. *)
Definition delete_with_autoCleanup_off : Outcome World nat :=
  (g ← constructor Demo.externals 5 (OneNode (Ref 1)) (MkConfig (Some false) None);
   delete Demo.externals 50 g (Some (SelNode (Ref 3)))) Demo.abc_world.
End Runs.

Module ReplaceRuns.
(** The session over [a; b; c] with its [autoCleanup] field assigned
    [false]. *)
Definition manual_world : World :=
  upd_session 0 (set_autoCleanup false) DemoWorlds.root_world.
Definition manual_session : Session :=
  default initial_fields (sessions manual_world !! 0).
Definition parsed : nat * Heap :=
  default (0, ∅) (Demo.parseScript ";" (heap manual_world)).

(** [replace] of the expression [b] (node 6) by the text [;], on the
    session as the constructor leaves it. *)
Definition replace_by_statement_text : Outcome World nat :=
  replace Demo.externals 50 0 (SelNode (Ref 6)) (ReplSource ";") DemoWorlds.root_world.

(** The same replacement value handed back by a replacer function. *)
Definition replace_by_function : Outcome World nat :=
  replace Demo.externals 50 0 (SelNode (Ref 6))
    (ReplFun (fun _ h => Ok (RvString ";") h)) DemoWorlds.root_world.
End ReplaceRuns.

Module CommitRuns.
(** The session over [a; b; c] with the replacement of [b] by [x]
    queued, and the world after its commit. *)
Definition queued_world : World :=
  match _queueReplacement 5 0 (Ref 3) (Ref 8) DemoWorlds.root_world with
  | Ok _ w => w
  | _ => DemoWorlds.root_world
  end.
Definition committed_world : World :=
  match cleanup Demo.externals 50 0 queued_world with
  | Ok _ w => w
  | _ => queued_world
  end.

(** The session over [a; b; c] with [autoCleanup] off, after [append]
    of [x] relative to [b]: the insertion is queued. *)
Definition insertion_queued : World :=
  match append Demo.externals 50 0 (SelNode (Ref 3)) Runs.give8 ReplaceRuns.manual_world with
  | Ok _ w => w
  | _ => ReplaceRuns.manual_world
  end.
End CommitRuns.

Module ScopeDemo.
(** A scope analysis for [a; b; c]: the script scope lists the
    variable [a]; a scope nested at statement [a] lists a variable
    [arguments]; a scope nested at statement [b] lists [b], an
    [arguments] of its own (another object with the same fields), and
    once more the object [a]. *)
Definition var_a : ScopeVariable := MkVariable 0 0 "a" [] [MkReference 5].
Definition var_b : ScopeVariable := MkVariable 0 1 "b" [] [MkReference 6].
Definition args_a : ScopeVariable := MkVariable 0 2 "arguments" [] [].
Definition args_b : ScopeVariable := MkVariable 0 3 "arguments" [] [].
Definition tree : Scope :=
  MkScope 1 [var_a] [MkScope 2 [args_a] []; MkScope 3 [var_b; args_b; var_a] []].

(** The variables that the scopes of a tree list. *)
Fixpoint listed (sc : Scope) : list ScopeVariable :=
  match sc with
  | MkScope _ variableList children =>
      (variableList ++
       (fix each (l : list Scope) : list ScopeVariable :=
          match l with
          | [] => []
          | c :: rest => listed c ++ each rest
          end) children)%list
  end.

(** A stand-in for [new ScopeLookup(scope)]: the declaration nodes and
    the reference nodes of each listed variable lead to it. *)
Definition variableMapOf (sc : Scope) : gmap nat (list ScopeVariable) :=
  foldr (fun v m =>
           foldr (fun n m => <[n := [v]]> m) m
             ((decl_node <$> declarations v) ++ (ref_node <$> references v))%list)
        ∅ (listed sc).

(** The small instance with that analysis in the place of the empty
    one. *)
Definition externals : Externals :=
  MkExternals Demo.parseScript (fun _ _ => tree) variableMapOf
    (codegen Demo.externals) Demo.keys (query Demo.externals) Demo.copy Demo.isStatementType
    Demo.extractStatement Demo.extractExpression Demo.buildParentMap.

(** A session over the script that has no lookup table yet, and the
    world after [getLookupTable] on it. *)
Definition start_session : Session := set_root (Ref 1) (set_nodes [Ref 1] initial_fields).
Definition start : World := MkWorld Demo.abc_heap {[0 := start_session]} [] 0.
Definition table : ScopeLookup :=
  match getLookupTable externals 5 0 start with
  | Ok t _ => t
  | _ => MkScopeLookup tree ∅
  end.
Definition world : World :=
  match getLookupTable externals 5 0 start with
  | Ok _ w => w
  | _ => start
  end.

(** A root session over the script and a subsession for statement
    [b], both built by the constructor, each with its own analysis. *)
Definition two_sessions : World :=
  match (g ← constructor externals 5 (OneNode (Ref 1)) (MkConfig None None);
         subSession externals 5 g (inl (SelNode (Ref 3)))) Demo.abc_world with
  | Ok _ w => w
  | _ => Demo.abc_world
  end.

(** The world after [rename] of the identifier of statement [b]. *)
Definition renamed_world : World :=
  match rename externals 5 0 (SelNode (Ref 6)) "y" start with
  | Ok _ w => w
  | _ => start
  end.
End ScopeDemo.

Module MoreRuns.
(** A deletion queued through the subsession for statement [b], and
    the world after its commit. *)
Definition sub_queued : World :=
  match _queueDeletion 5 1 (Ref 3) DemoWorlds.sub_world with
  | Ok _ w => w
  | _ => DemoWorlds.sub_world
  end.
Definition sub_committed : World :=
  match cleanup Demo.externals 50 1 sub_queued with
  | Ok _ w => w
  | _ => sub_queued
  end.

(** The session over the script [a; b; c] with the replacement of the
    script itself by the second script queued, and the world after the
    commit. *)
Definition root_queued : World :=
  match (g ← constructor Demo.externals 5 (OneNode (Ref 1)) (MkConfig None None);
         _queueReplacement 5 g (Ref 1) (Ref 10)) Runs.two_scripts with
  | Ok _ w => w
  | _ => Runs.two_scripts
  end.
Definition root_committed : World :=
  match cleanup Demo.externals 50 0 root_queued with
  | Ok _ w => w
  | _ => root_queued
  end.

(** A subsession of the subsession for statement [b]. *)
Definition subsub_world : World :=
  match constructor Demo.externals 5 (OneNode (Ref 6)) (MkConfig None (Some 1))
          DemoWorlds.sub_world with
  | Ok _ w => w
  | _ => DemoWorlds.sub_world
  end.

(** A replacer function that hands back the statement [x] on its first
    run, leaving a mark in the heap, and the identifier of [x] on the
    runs after it. *)
Definition flip_flop : NodeRef -> St Heap ReplacerResult := fun _ h =>
  match h !! 20 with
  | Some _ => Ok (RvNode 9) h
  | None => Ok (RvNode 8) (<[20 := Demo.ident "mark"]> h)
  end.

(** A replacer function that hands back the node it is given. *)
Definition same_node : NodeRef -> St Heap ReplacerResult := fun r h =>
  match r with
  | Ref id => Ok (RvNode id) h
  | _ => Ok RvOther h
  end.

(** The session over [a; b; c], dirty with nothing queued. *)
Definition dirty_world : World := upd_session 0 (set_dirty true) DemoWorlds.root_world.
Definition dirty_session : Session := default initial_fields (sessions dirty_world !! 0).

End MoreRuns.

(* ===================================================================== *)
(** ** The vocabulary of the statements                                  *)
(* ===================================================================== *)

(** A session update that touches the scope maps only. *)
Definition scope_only (F : Session -> Session) : Prop :=
  forall s,
    nodes (F s) = nodes s /\ _root (F s) = _root s
    /\ globalSession (F s) = globalSession s /\ autoCleanup (F s) = autoCleanup s
    /\ dirty (F s) = dirty s /\ parentMap (F s) = parentMap s
    /\ replacements (F s) = replacements s /\ deletions (F s) = deletions s
    /\ insertions (F s) = insertions s /\ lookupTable (F s) = lookupTable s.

(** Session updates that leave everything but the scope tables. *)
Definition scope_upd (F : Session -> Session) : Prop :=
  forall s,
    nodes (F s) = nodes s /\ _root (F s) = _root s
    /\ globalSession (F s) = globalSession s /\ autoCleanup (F s) = autoCleanup s
    /\ dirty (F s) = dirty s /\ parentMap (F s) = parentMap s
    /\ replacements (F s) = replacements s /\ deletions (F s) = deletions s
    /\ insertions (F s) = insertions s.

(** The effect of [if (config.autoCleanup) this.autoCleanup =
    config.autoCleanup] on the new session. *)
Definition auto_assign (a : option bool) : Session -> Session :=
  match a with
  | Some true => set_autoCleanup true
  | _ => id
  end.

(** The constructor from [this.nodes = nodes] on. *)
Definition ctor_tail (E : Externals) (fuel this : nat) (a : option bool) (ns : list NodeRef)
  : St World nat :=
  modify (upd_session this (set_nodes ns));;
  match a with
  | Some b => if b then modify (upd_session this (set_autoCleanup b)) else mret tt
  | None => mret tt
  end;;
  rebuildParentMap E this;;
  getLookupTable E fuel this;;
  mret this.

(** The store once the new session object is allocated with the
    field initialisers. *)
Definition alloc (w : World) : World :=
  set_sessions (<[fresh (dom (sessions w)) := initial_fields]> (sessions w)) w.

(** The entries of an array argument that are no strings. *)
Definition item_nodes (l : list Item) : list NodeRef :=
  omap (fun x => match x with ItemNode r => Some r | ItemStr _ => None end) l.

(** What the constructor leaves in the new session object. *)
Record constructed (E : Externals) (w w' : World) (ns : list NodeRef) (g : nat) (s' : Session)
  : Prop := {
  ctd_nodes : nodes s' = ns;
  ctd_global : globalSession s' = g;
  ctd_auto : autoCleanup s' = true;
  ctd_dirty : dirty s' = false;
  ctd_repl : replacements s' = ∅;
  ctd_del : deletions s' = ∅;
  ctd_ins : insertions s' = ∅;
  ctd_parent : parentMap s' = buildParentMap E ns (heap w');
  ctd_others : forall i, i <> fresh (dom (sessions w)) -> sessions w' !! i = sessions w !! i
}.

(** The heap after [name] has been assigned on each of [ids]. *)
Definition renamed (newName : string) (ids : list nat) (h : Heap) : Heap :=
  foldl (fun h id => alter (with_prop "name" (PStr newName)) id h) h ids.

(** The nodes that [renameInPlace] assigns to: the declaration nodes
    and the reference nodes of the variable. *)
Definition rename_targets (v : ScopeVariable) : list nat :=
  (decl_node <$> declarations v) ++ (ref_node <$> references v).

(** The effect of (part of) a commit by session [g] on the store and
    the log: there are new events [evs]; no other session changes; of
    [g] only the two maps [replacements] and [insertions] change, and
    an entry leaves a map exactly when the matching event is among the
    new ones. *)
Definition commit_rel (g : nat) (w w' : World) : Prop :=
  exists evs : list Event, log w' = (evs ++ log w)%list
    /\ (forall i, i <> g -> sessions w' !! i = sessions w !! i)
    /\ forall s, sessions w !! g = Some s ->
         exists s', sessions w' !! g = Some s'
           /\ s' = set_insertions (insertions s') (set_replacements (replacements s') s)
           /\ (forall n, replacements s' !! n =
                 if decide (AppliedReplacement n ∈ evs) then None else replacements s !! n)
           /\ (forall n, insertions s' !! n =
                 if decide (AppliedInsertion n ∈ evs) then None else insertions s !! n).

(** The fields of the committing session after the walk: what [cleanup]
    assigns after [nodes.map] has returned. *)
Definition after_walk (E : Externals) (old_nodes result : list NodeRef) (h : Heap)
  : Session -> Session :=
  set_nodes result ∘ set_dirty false ∘ set_parentMap (buildParentMap E old_nodes h)
    ∘ set_lookupTable None.

(** The first test of the [leave] callback does not fire on [o]: [o]
    is no variable declaration statement, or its declaration (a node
    outside [avoid]) has a declarator. *)
Definition keeps_declarators (avoid : list nat) (h : Heap) (o : NodeObj) : bool :=
  if decide (ntype o = "VariableDeclarationStatement") then
    match get_prop "declaration" (props o) with
    | Some (PNode (Ref d)) =>
        bool_decide (d ∉ avoid) &&
        match h !! d with
        | Some dobj =>
            match get_prop "declarators" (props dobj) with
            | Some (PArr (_ :: _)) => true
            | _ => false
            end
        | None => false
        end
    | _ => false
    end
  else true.

(** [quiet E avoid h d r]: the tree under [r], of depth below [d], is
    made of objects of [h] of known types, none of them in [avoid] and
    none a variable declaration statement without declarators. *)
Fixpoint quiet (E : Externals) (avoid : list nat) (h : Heap) (d : nat) (r : NodeRef) : bool :=
  match d with
  | 0 => false
  | S d' =>
      match r with
      | Ref id =>
          match h !! id with
          | Some o =>
              bool_decide (id ∉ avoid) && keeps_declarators avoid h o &&
              match keys E (ntype o) with
              | Some ks =>
                  forallb (fun item => match item with
                                       | Traverser.Work e => quiet E avoid h d' (Traverser.el_node e)
                                       | Traverser.Sentinel => false
                                       end) (Traverser.child_elements id o ks)
              | None => false
              end
          | None => false
          end
      | _ => false
      end
  end.

Definition quiet_items (E : Externals) (avoid : list nat) (h : Heap) (d : nat)
  (items : list Traverser.WorkItem) : bool :=
  forallb (fun item => match item with
                       | Traverser.Work e => quiet E avoid h d (Traverser.el_node e)
                       | Traverser.Sentinel => false
                       end) items.

(** Session [g] has nothing queued for a node outside [avoid]. *)
Definition calm (g : nat) (avoid : list nat) (w : World) : Prop :=
  exists s, sessions w !! g = Some s
    /\ forall id, id ∉ avoid ->
         replacements s !! id = None /\ insertions s !! id = None /\ id ∉ deletions s.

(** [reaches E g m m']: the loop, started in [m], comes to [m'] after
    some turns, whatever fuel is left for the rest. *)
Definition reaches (E : Externals) (g : nat) (m m' : Traverser.Machine) : Prop :=
  exists k, forall fuel,
    Traverser.run E (cleanup_leave E g) (k + fuel) m
    = Traverser.run E (cleanup_leave E g) fuel m'.

(** [k] turns of the loop of the walk. *)
Fixpoint turns (E : Externals) (leave : Traverser.Leave) (k : nat)
  : St Traverser.Machine unit :=
  match k with
  | 0 => mret tt
  | S k' => Traverser.step E leave;; turns E leave k'
  end.

(** The machine at the start of the walk of [root] in world [w]. *)
Definition walk_start (root : NodeRef) (w : World) : Traverser.Machine :=
  let e := Traverser.MkElement root Traverser.RootSlot in
  Traverser.MkMachine w [Traverser.Work e] [e] root.

(** During the commit that session [g] runs over the roots [roots],
    started in world [w], the loop comes to the machine [m]: the walks
    of the roots before one of them have returned, and the walk of that
    one has made some turns. *)
Definition commit_at (E : Externals) (g : nat) (roots : list NodeRef) (w : World)
  (m : Traverser.Machine) : Prop :=
  exists done root rest fuel res w1 k,
    roots = (done ++ root :: rest)%list
    /\ mapSt (fun node => Traverser.replace E (cleanup_leave E g) node fuel) done w = Ok res w1
    /\ turns E (cleanup_leave E g) k (walk_start root w1) = Ok tt m.

(** The next turn of the loop in [m] is the call of [leave] on the node
    [n], with [parent] as its parent. *)
Definition leaving (m : Traverser.Machine) (n : nat) (parent : NodeRef) : Prop :=
  exists wl e p ll,
    Traverser.worklist m = Traverser.Sentinel :: wl
    /\ Traverser.leavelist m = e :: p :: ll
    /\ Traverser.el_node e = Ref n /\ Traverser.el_node p = parent.

(** In [m] the callback applies the queued replacement of [n]: the
    replacement map of session [g] has an entry [x] for [n], and the
    call on [n] hands [x] to the traverser, which stores it in the
    place of [n]. *)
Definition applies_replacement (E : Externals) (g : nat) (m : Traverser.Machine) (n : nat)
  : Prop :=
  exists parent s x w1,
    leaving m n parent /\ sessions (Traverser.m_world m) !! g = Some s
    /\ replacements s !! n = Some x
    /\ cleanup_leave E g (Ref n) parent (Traverser.m_world m) = Ok (x, false) w1.

(** In [m] the callback applies the queued insertion of [n]: the
    insertion map of session [g] has an entry for [n], and the call on
    [n] writes to the tree (it splices the queued statement into the
    statement list of the parent). *)
Definition applies_insertion (E : Externals) (g : nat) (m : Traverser.Machine) (n : nat)
  : Prop :=
  exists parent s ins res w1,
    leaving m n parent /\ sessions (Traverser.m_world m) !! g = Some s
    /\ insertions s !! n = Some ins
    /\ cleanup_leave E g (Ref n) parent (Traverser.m_world m) = Ok res w1
    /\ heap w1 <> heap (Traverser.m_world m).

(** The statement list after the splice. *)
Definition spliced (a b c : nat) (ins : Insertion) : list NodeRef :=
  if after ins then [Ref a; Ref b; statement ins; Ref c]
  else [Ref a; statement ins; Ref b; Ref c].

(** The world after the walk. *)
Definition inserted_world (g p a b c : nat) (ins : Insertion) (po : NodeObj) (w0 : World)
  : World :=
  add_log (AppliedInsertion b)
    (upd_session g (fun s => set_insertions (base.delete b (insertions s)) s)
       (set_heap (<[p := with_prop "statements" (PArr (spliced a b c ins)) po]> (heap w0)) w0)).

(** The fields of a scope. *)
Definition scope_astNode (sc : Scope) : nat :=
  match sc with MkScope astNode _ _ => astNode end.
Definition scope_variableList (sc : Scope) : list ScopeVariable :=
  match sc with MkScope _ variableList _ => variableList end.

(** [within sc top]: [sc] is [top] or a scope nested in it. *)
Inductive within (sc : Scope) : Scope -> Prop :=
| within_here : within sc sc
| within_child astNode variableList children c :
    c ∈ children -> within sc c -> within sc (MkScope astNode variableList children).

(** What [recurse] assigns for one variable of a scope, and the fields
    of the session after [recurse(scope)]. *)
Definition note_variable (sc : Scope) (s : Session) (variable : ScopeVariable) : Session :=
  set_scopeMap (scopeMap_set variable sc (scopeMap s))
    (set_variables (variables_add variable (variables s)) s).

Fixpoint recurse_fields (sc : Scope) (s : Session) : Session :=
  match sc with
  | MkScope astNode variableList children =>
      (fix each (l : list Scope) (s : Session) : Session :=
         match l with
         | [] => s
         | c :: rest => each rest (recurse_fields c s)
         end) children
        (foldl (note_variable sc)
           (set_scopeOwnerMap (<[astNode := sc]> (scopeOwnerMap s)) s) variableList)
  end.

Definition recurse_each (l : list Scope) (s : Session) : Session :=
  foldl (fun s c => recurse_fields c s) s l.

(** The scope [sc] lists the [Variable] object of identity [i]. *)
Definition lists (sc : Scope) (i : nat * nat) : Prop :=
  exists v, v ∈ scope_variableList sc /\ vid v = i.

(** The scope tables of a session agree with the scope tree [top]: no
    two entries of [variables] are the same object, each of them is
    listed by a scope of the tree, the scope map sends it to a scope of
    the tree that lists it, and the scope map has no other key. *)
Definition tables_ok (top : Scope) (s : Session) : Prop :=
  NoDup (vid <$> variables s)
  /\ (forall v, v ∈ variables s ->
        (exists sc, within sc top /\ v ∈ scope_variableList sc)
        /\ exists sc, scopeMap_get v (scopeMap s) = Some sc
                      /\ lists sc (vid v) /\ within sc top)
  /\ forall i, is_Some (scopeMap s !! i) -> i ∈ vid <$> variables s.

(** The scope owner map has, at node [a], a scope of the tree [top]
    whose node is [a]. *)
Definition owner_has (top : Scope) (s : Session) (a : nat) : Prop :=
  exists sc, scopeOwnerMap s !! a = Some sc /\ scope_astNode sc = a /\ within sc top.

(** What a part of the rebuild that visits the scopes [covers] does to
    the tables of a session. *)
Definition scope_effect (top : Scope) (F : Session -> Session) (covers : Scope -> Prop)
  : Prop :=
  forall s,
    (tables_ok top s -> tables_ok top (F s))
    /\ (forall v, v ∈ variables s -> v ∈ variables (F s))
    /\ (forall sc' v, covers sc' -> v ∈ scope_variableList sc' ->
          vid v ∈ vid <$> variables (F s))
    /\ (forall a, owner_has top s a -> owner_has top (F s) a)
    /\ (forall sc', covers sc' -> owner_has top (F s) (scope_astNode sc')).

(** The lookup table that [getLookupTable] builds in world [w] for the
    root [r]: the objects of the analysis, new in [w]. *)
Definition analysed (E : Externals) (r : NodeRef) (w : World) : ScopeLookup :=
  let globalScope := new_scope (analyses w) (shiftScope E r (heap w)) in
  MkScopeLookup globalScope (variableMapOf E globalScope).

(** The session object after [getLookupTable] has built the table [t]. *)
Definition with_tables (t : ScopeLookup) (s : Session) : Session :=
  recurse_fields (scope t) (set_variables [] (set_scopeMap ∅ (set_lookupTable (Some t) s))).

(** The session [s] delegates to a session of the store that is its
    own global session. *)
Definition delegates_flat (w : World) (s : Session) : bool :=
  match sessions w !! globalSession s with
  | Some gs => bool_decide (globalSession gs = globalSession s)
  | None => false
  end.

(** Every session of the store does: delegation chains have length at
    most one. *)
Definition flat (w : World) : Prop :=
  map_Forall (fun _ s => delegates_flat w s = true) (sessions w).

#[global] Instance flat_dec (w : World) : Decision (flat w).
Proof. unfold flat. apply _. Defined.

(** Two heaps hold the same objects up to the [name] properties. *)
Definition same_but_name (h h' : Heap) : Prop :=
  forall id,
    match h !! id, h' !! id with
    | Some o, Some o' =>
        ntype o' = ntype o
        /\ forall key, key <> "name" -> get_prop key (props o') = get_prop key (props o)
    | None, None => True
    | _, _ => False
    end.





(** Whether a call has returned a value (and has neither thrown nor
    run out of fuel). *)
Definition returns {S A} (o : Outcome S A) : bool :=
  match o with
  | Ok _ _ => true
  | _ => false
  end.

(* ===================================================================== *)
(** ** Reasoning about the monad                                         *)
(* ===================================================================== *)

Lemma bind_Ok {S A B} (m : St S A) (k : A -> St S B) s a s' :
  m s = Ok a s' -> (m ≫= k) s = k a s'.
Proof. intros H. unfold mbind, St_bind. by rewrite H. Qed.

Lemma bind_Throw {S A B} (m : St S A) (k : A -> St S B) s e s' :
  m s = Throw e s' -> (m ≫= k) s = Throw e s'.
Proof. intros H. unfold mbind, St_bind. by rewrite H. Qed.

Lemma bind_inv_Ok {S A B} (m : St S A) (k : A -> St S B) s b s'' :
  (m ≫= k) s = Ok b s'' -> exists a s', m s = Ok a s' /\ k a s' = Ok b s''.
Proof.
  unfold mbind, St_bind. destruct (m s) as [a s'| |]; try discriminate.
  intros H. by exists a, s'.
Qed.

Lemma get_session_Ok this w s :
  sessions w !! this = Some s -> get_session this w = Ok s w.
Proof. intros H. unfold get_session. by rewrite H. Qed.

Lemma get_session_inv this w s w' :
  get_session this w = Ok s w' -> w' = w /\ sessions w !! this = Some s.
Proof.
  unfold get_session. destruct (sessions w !! this); intros H; inversion H; auto.
Qed.

Ltac st_unfold :=
  unfold mbind, St_bind, mret, St_ret, modify, get_state, throw in *.

(* ===================================================================== *)
(** ** The session store and the scope tables                            *)
(* ===================================================================== *)

Lemma sessions_upd_eq this f w :
  sessions (upd_session this f w) !! this = f <$> sessions w !! this.
Proof. unfold upd_session. simpl. by rewrite lookup_alter_eq. Qed.

Lemma sessions_upd_ne this i f w :
  i <> this -> sessions (upd_session this f w) !! i = sessions w !! i.
Proof. intros H. unfold upd_session. simpl. by rewrite lookup_alter_ne. Qed.

Lemma upd_session_compose this f g w :
  upd_session this f (upd_session this g w) = upd_session this (f ∘ g) w.
Proof.
  unfold upd_session, set_sessions. simpl. f_equal.
  by rewrite alter_alter_eq.
Qed.

Lemma scope_only_id : scope_only id.
Proof. intros s. repeat split. Qed.

Lemma scope_only_compose F G : scope_only F -> scope_only G -> scope_only (F ∘ G).
Proof.
  intros HF HG s. specialize (HF (G s)). specialize (HG s). simpl.
  destruct HF as (?&?&?&?&?&?&?&?&?&?), HG as (?&?&?&?&?&?&?&?&?&?).
  repeat split; congruence.
Qed.

Lemma upd_session_id this w : upd_session this id w = w.
Proof.
  unfold upd_session, set_sessions. destruct w; simpl. f_equal.
  by apply alter_id.
Qed.

Lemma set_analyses_same w : set_analyses (analyses w) w = w.
Proof. by destruct w. Qed.

Lemma set_analyses_twice k k' w : set_analyses k (set_analyses k' w) = set_analyses k w.
Proof. done. Qed.

Lemma set_analyses_upd k this f w :
  set_analyses k (upd_session this f w) = upd_session this f (set_analyses k w).
Proof. done. Qed.

Lemma Scope_ind' (P : Scope -> Prop)
  (H : forall astNode variableList children,
      Forall P children -> P (MkScope astNode variableList children)) :
  forall sc, P sc.
Proof.
  fix IH 1. intros [astNode variableList children]. apply H.
  induction children as [|c rest IHrest]; constructor; [apply IH | apply IHrest].
Qed.

Section Scope.
Context (E : Externals).

Lemma forEach_modify {A} this (G : A -> Session -> Session) (l : list A) :
  (forall a, scope_only (G a)) ->
  exists F, scope_only F /\
    forall w, forEachSt (fun a => modify (upd_session this (G a))) l w = Ok tt (upd_session this F w).
Proof.
  intros HG. induction l as [|a l (F & HF & IH)].
  - exists id. split; [apply scope_only_id|]. intros w. simpl. by rewrite upd_session_id.
  - exists (F ∘ G a). split; [by apply scope_only_compose|].
    intros w. simpl. st_unfold. rewrite IH. by rewrite upd_session_compose.
Qed.

Lemma recurse_Ok this sc :
  exists F, scope_only F /\ forall w, recurse this sc w = Ok tt (upd_session this F w).
Proof.
  induction sc as [astNode variableList children IH] using Scope_ind'.
  simpl.
  destruct (forEach_modify this
    (fun variable s => set_scopeMap (scopeMap_set variable (MkScope astNode variableList children) (scopeMap s))
            (set_variables (variables_add variable (variables s)) s)) variableList) as (F1 & HF1 & H1).
  { intros a s. repeat split. }
  assert (exists F2, scope_only F2 /\ forall w,
    (fix each (l : list Scope) : St World () :=
       match l with
       | [] => mret ()
       | c :: rest => recurse this c;; each rest
       end) children w = Ok tt (upd_session this F2 w)) as (F2 & HF2 & H2).
  { clear H1. induction IH as [|c rest Hc _ IHr].
    - exists id. split; [apply scope_only_id|]. intros w. st_unfold. by rewrite upd_session_id.
    - destruct Hc as (Fc & HFc & Hc). destruct IHr as (F & HF & IHr).
      exists (F ∘ Fc). split; [by apply scope_only_compose|].
      intros w. st_unfold. rewrite Hc. rewrite IHr. by rewrite upd_session_compose. }
  eexists (F2 ∘ F1 ∘ (fun s => set_scopeOwnerMap (<[astNode := MkScope astNode variableList children]> (scopeOwnerMap s)) s)).
  split.
  { apply scope_only_compose; [by apply scope_only_compose|]. intros s. repeat split. }
  intros w. st_unfold. rewrite H1, H2. by rewrite !upd_session_compose.
Qed.

Lemma scope_only_upd F : scope_only F -> scope_upd F.
Proof. intros H s. destruct (H s) as (?&?&?&?&?&?&?&?&?&?). repeat split; done. Qed.

Lemma scope_upd_compose F G : scope_upd F -> scope_upd G -> scope_upd (F ∘ G).
Proof.
  intros HF HG s. specialize (HF (G s)). specialize (HG s). simpl.
  destruct HF as (?&?&?&?&?&?&?&?&?), HG as (?&?&?&?&?&?&?&?&?).
  repeat split; congruence.
Qed.

Ltac solve_scope_upd :=
  lazymatch goal with
  | |- scope_upd (_ ∘ _) => apply scope_upd_compose; solve_scope_upd
  | |- scope_upd _ =>
      first [ assumption | by apply scope_only_upd | by (intros ?; repeat split) ]
  end.

Lemma root_frame fuel this w r w' : root fuel this w = Ok r w' -> w' = w.
Proof.
  revert this. induction fuel as [|f IH]; intros this; simpl; [done|].
  st_unfold. unfold get_session.
  destruct (sessions w !! this) as [s|]; [|done].
  destruct (truthy (_root s)); [by inversion 1|].
  case_decide; [done|]. apply IH.
Qed.

Lemma root_own f this w s :
  sessions w !! this = Some s -> truthy (_root s) = true ->
  root (S f) this w = Ok (_root s) w.
Proof.
  intros Hs Ht. simpl. st_unfold. rewrite (get_session_Ok _ _ _ Hs). by rewrite Ht.
Qed.

Lemma root_global f this w s gs :
  sessions w !! this = Some s -> truthy (_root s) = false ->
  this <> globalSession s ->
  sessions w !! globalSession s = Some gs -> truthy (_root gs) = true ->
  root (S (S f)) this w = Ok (_root gs) w.
Proof.
  intros Hs Ht Hne Hg Hgt. simpl. st_unfold.
  rewrite (get_session_Ok _ _ _ Hs). rewrite Ht.
  rewrite decide_False by done.
  rewrite (get_session_Ok _ _ _ Hg). by rewrite Hgt.
Qed.

Lemma getLookupTable_cached f this w s t :
  sessions w !! this = Some s -> lookupTable s = Some t ->
  getLookupTable E (S f) this w = Ok t w.
Proof.
  intros Hs Ht. simpl. st_unfold. rewrite (get_session_Ok _ _ _ Hs). by rewrite Ht.
Qed.

Lemma getLookupTable_build f this w s r :
  sessions w !! this = Some s -> lookupTable s = None ->
  root (S (S f)) this w = Ok r w ->
  let t := analysed E r w in
  exists F, scope_only F /\
    getLookupTable E (S (S (S f))) this w
    = Ok t (upd_session this (F ∘ set_lookupTable (Some t)) (set_analyses (S (analyses w)) w)).
Proof.
  intros Hs Hnone Hroot t.
  destruct (recurse_Ok this (scope t)) as (F & HF & Hrec).
  exists (F ∘ (fun s => set_variables [] (set_scopeMap ∅ s))). split.
  { apply scope_only_compose; [done|]. intros s0. repeat split. }
  cbn [getLookupTable _rebuildScopeMap]. unfold mbind, St_bind, mret, St_ret, modify, get_state.
  rewrite (get_session_Ok _ _ _ Hs). rewrite Hnone. rewrite Hroot.
  fold (analysed E r w). fold t.
  set (w1 := set_analyses (S (analyses w)) w).
  assert (Hs' : sessions (upd_session this (set_lookupTable (Some t)) w1) !! this
                = Some (set_lookupTable (Some t) s)).
  { rewrite sessions_upd_eq. cbn [sessions w1 set_analyses]. by rewrite Hs. }
  rewrite (get_session_Ok _ _ _ Hs'). cbn [lookupTable set_lookupTable].
  rewrite Hrec. by rewrite !upd_session_compose.
Qed.

Lemma getLookupTable_frame fuel this w t w' :
  getLookupTable E fuel this w = Ok t w' ->
  exists F k, scope_upd F /\ w' = upd_session this F (set_analyses k w).
Proof.
  revert w t w'. induction fuel as [fuel IH] using lt_wf_ind. intros w t w'.
  destruct fuel as [|f]; [done|].
  cbn [getLookupTable]. unfold mbind, St_bind, mret, St_ret, modify, get_state, get_session.
  destruct (sessions w !! this) as [s|] eqn:Hs; [|done].
  destruct (lookupTable s) as [t0|] eqn:Ht.
  { inversion 1; subst. exists id, (analyses w').
    split; [|by rewrite set_analyses_same, upd_session_id].
    intros ?. repeat split. }
  destruct (root f this w) as [r w1| |] eqn:Hroot; try done.
  apply root_frame in Hroot as Hw1. subst w1.
  destruct f as [|f2]; [done|].
  cbn [_rebuildScopeMap]. unfold mbind, St_bind, mret, St_ret, modify, get_state.
  destruct (getLookupTable E f2 this _) as [t2 w2| |] eqn:Hget; try done.
  apply IH in Hget as (F2 & k2 & HF2 & ->); [|lia].
  destruct (recurse_Ok this (scope t2)) as (F & HF & Hrec).
  rewrite Hrec. inversion 1; subst.
  eexists _, k2. split; [|by rewrite set_analyses_upd, set_analyses_twice, !upd_session_compose].
  solve_scope_upd.
Qed.
End Scope.

(* ===================================================================== *)
(** ** The constructor                                                   *)
(* ===================================================================== *)

Section Ctor.
Context (E : Externals).

Lemma ctor_tail_step fuel this a ns w s :
  sessions w !! this = Some s ->
  ctor_tail E fuel this a ns w =
  (getLookupTable E fuel this;; mret this)
    (upd_session this
       (set_parentMap (buildParentMap E ns (heap w)) ∘ auto_assign a ∘ set_nodes ns) w).
Proof.
  intros Hs. unfold ctor_tail, rebuildParentMap.
  unfold mbind at 1 2 3, St_bind at 1 2 3. unfold modify at 1.
  assert (Hs1 : forall F, sessions (upd_session this F w) !! this = Some (F s)).
  { intros F. by rewrite sessions_upd_eq, Hs. }
  destruct a as [[]|]; cbn [auto_assign];
    unfold mbind at 1 2, St_bind at 1 2, modify, mret, St_ret, get_state;
    rewrite ?upd_session_compose; rewrite (get_session_Ok _ _ _ (Hs1 _));
    rewrite ?upd_session_compose; reflexivity.
Qed.

Lemma ctor_tail_inv fuel this a ns w s r w' :
  sessions w !! this = Some s ->
  ctor_tail E fuel this a ns w = Ok r w' ->
  r = this /\ exists F k, scope_upd F /\
    w' = upd_session this
           (F ∘ (set_parentMap (buildParentMap E ns (heap w)) ∘ auto_assign a ∘ set_nodes ns))
           (set_analyses k w).
Proof.
  intros Hs. rewrite (ctor_tail_step _ _ _ _ _ _ Hs).
  unfold mbind, St_bind, mret, St_ret.
  destruct (getLookupTable E fuel this _) as [t w2| |] eqn:Hget; try done.
  apply getLookupTable_frame in Hget as (F & k & HF & ->).
  inversion 1; subst. split; [done|]. exists F, k. split; [done|].
  by rewrite set_analyses_upd, !upd_session_compose.
Qed.

Lemma ctor_tail_Ok f this a ns w s r :
  sessions w !! this = Some s -> lookupTable s = None ->
  (forall w1 s1, sessions w1 !! this = Some s1 -> _root s1 = _root s ->
      globalSession s1 = globalSession s ->
      (forall i, i <> this -> sessions w1 !! i = sessions w !! i) ->
      root (S (S f)) this w1 = Ok r w1) ->
  exists F t, scope_only F /\
    ctor_tail E (S (S (S f))) this a ns w
    = Ok this (upd_session this
         (F ∘ set_lookupTable (Some t)
            ∘ (set_parentMap (buildParentMap E ns (heap w)) ∘ auto_assign a ∘ set_nodes ns))
         (set_analyses (S (analyses w)) w)).
Proof.
  intros Hs Hnone Hroot. rewrite (ctor_tail_step _ _ _ _ _ _ Hs).
  match goal with |- context [_ (upd_session this ?G w)] => set (w2 := upd_session this G w) end.
  assert (exists s2, sessions w2 !! this = Some s2 /\ lookupTable s2 = None
                 /\ _root s2 = _root s /\ globalSession s2 = globalSession s)
    as (s2 & Hs2 & Hn2 & Hr2 & Hg2).
  { eexists. split; [unfold w2; by rewrite sessions_upd_eq, Hs|].
    destruct a as [[]|]; simpl; repeat split; done. }
  assert (Hroot2 : root (S (S f)) this w2 = Ok r w2).
  { apply (Hroot _ _ Hs2 Hr2 Hg2). intros i Hi. unfold w2. by rewrite sessions_upd_ne. }
  destruct (getLookupTable_build E f this w2 s2 r Hs2 Hn2 Hroot2) as (F & HF & Hget).
  exists F. eexists. split; [done|].
  unfold mbind, St_bind, mret, St_ret. rewrite Hget. unfold w2.
  by rewrite set_analyses_upd, !upd_session_compose.
Qed.
End Ctor.

Section CtorUnfold.
Context (E : Externals).

Lemma constructor_eq fuel son cfg w :
  let this := fresh (dom (sessions w)) in
  let a := cfg_autoCleanup cfg in
  constructor E fuel son cfg w =
  match cfg_parentSession cfg with
  | Some p =>
      match sessions (alloc w) !! p with
      | None => Throw (TypeError "no such session") (alloc w)
      | Some ps =>
          let w1 := upd_session this (set_globalSession (globalSession ps)) (alloc w) in
          match son with
          | Source _ =>
              Throw (Error "Can not initialize child RefactorSession with a new AST") w1
          | NodeList l => ctor_tail E fuel this a (item_nodes l) w1
          | OneNode n => ctor_tail E fuel this a [n] w1
          end
      end
  | None =>
      match son with
      | Source src =>
          match parseScript E src (heap w) with
          | Some (tree, h) =>
              ctor_tail E fuel this a [Ref tree]
                (upd_session this (set_globalSession this)
                   (upd_session this (set_root (Ref tree)) (set_heap h (alloc w))))
          | None => Throw (RefactorError "Could not parse passed source") (alloc w)
          end
      | NodeList _ =>
          Throw (RefactorError "Must initialize root session with a JavaScript source program (JS source or single Node)") (alloc w)
      | OneNode n =>
          ctor_tail E fuel this a [n]
            (upd_session this (set_globalSession this)
               (upd_session this (set_root n) (alloc w)))
      end
  end.
Proof.
  intros this a. unfold constructor, ctor_tail.
  unfold mbind, St_bind, mret, St_ret, modify, get_state, throw, get_session at 1.
  fold (alloc w). fold this.
  destruct (cfg_parentSession cfg) as [p|].
  - destruct (sessions (alloc w) !! p) as [ps|]; [|done].
    destruct son; try done.
  - destruct son as [src|n|l]; try done.
    cbn [heap alloc set_sessions].
    destruct (parseScript E src (heap w)) as [[tree h]|]; done.
Qed.
End CtorUnfold.

Lemma fresh_session_ne (w : World) p ps :
  sessions w !! p = Some ps -> p <> fresh (dom (sessions w)).
Proof.
  intros Hp ->. pose proof (is_fresh (dom (sessions w))) as Hf.
  apply Hf. apply elem_of_dom. eauto.
Qed.

Lemma sessions_alloc_eq w :
  sessions (alloc w) !! fresh (dom (sessions w)) = Some initial_fields.
Proof. unfold alloc. simpl. by rewrite lookup_insert_eq. Qed.

Lemma sessions_alloc_ne w i :
  i <> fresh (dom (sessions w)) -> sessions (alloc w) !! i = sessions w !! i.
Proof. intros H. unfold alloc. simpl. by rewrite lookup_insert_ne. Qed.

Section CtorState.
Context (E : Externals).

Lemma constructed_intro w w0 a ns s0 F :
  scope_upd F ->
  sessions w0 !! fresh (dom (sessions w)) = Some s0 ->
  (forall i, i <> fresh (dom (sessions w)) -> sessions w0 !! i = sessions w !! i) ->
  autoCleanup s0 = true -> dirty s0 = false -> replacements s0 = ∅ ->
  deletions s0 = ∅ -> insertions s0 = ∅ ->
  let G := F ∘ (set_parentMap (buildParentMap E ns (heap w0)) ∘ auto_assign a ∘ set_nodes ns) in
  sessions (upd_session (fresh (dom (sessions w))) G w0) !! fresh (dom (sessions w)) = Some (G s0)
  /\ constructed E w (upd_session (fresh (dom (sessions w))) G w0) ns (globalSession s0) (G s0).
Proof.
  intros HF Hs0 Hoth Ha Hd Hr Hdel Hi G.
  split; [by rewrite sessions_upd_eq, Hs0|].
  unfold G. cbn [compose].
  destruct (HF (set_parentMap (buildParentMap E ns (heap w0)) (auto_assign a (set_nodes ns s0))))
    as (?&?&?&?&?&?&?&?&?).
  assert (Haa : forall s, autoCleanup s = true -> autoCleanup (auto_assign a s) = true).
  { intros s Hs. by destruct a as [[]|]. }
  split.
  - rewrite H. by destruct a as [[]|].
  - rewrite H1. by destruct a as [[]|].
  - rewrite H2. cbn [set_parentMap autoCleanup]. by apply Haa.
  - rewrite H3. by destruct a as [[]|].
  - rewrite H5. by destruct a as [[]|].
  - rewrite H6. by destruct a as [[]|].
  - rewrite H7. by destruct a as [[]|].
  - rewrite H4. done.
  - intros i Hi'. rewrite sessions_upd_ne by done. by apply Hoth.
Qed.

(** Whatever the arguments, a session that the constructor returns
    has the stated fields. *)
Lemma constructor_inv fuel son cfg w r w' :
  constructor E fuel son cfg w = Ok r w' ->
  r = fresh (dom (sessions w)) /\
  exists s' ns g, sessions w' !! r = Some s' /\ constructed E w w' ns g s'.
Proof.
  rewrite constructor_eq. cbv zeta.
  set (this := fresh (dom (sessions w))).
  assert (Hne : forall i, i <> this -> sessions (alloc w) !! i = sessions w !! i).
  { intros i Hi. by apply sessions_alloc_ne. }
  assert (Hfin : forall ns w0 s0,
    sessions w0 !! this = Some s0 ->
    (forall i, i <> this -> sessions w0 !! i = sessions w !! i) ->
    autoCleanup s0 = true -> dirty s0 = false -> replacements s0 = ∅ ->
    deletions s0 = ∅ -> insertions s0 = ∅ ->
    ctor_tail E fuel this (cfg_autoCleanup cfg) ns w0 = Ok r w' ->
    r = this /\ exists s' ns g, sessions w' !! r = Some s' /\ constructed E w w' ns g s').
  { intros ns w0 s0 Hs0 Hoth Ha Hd Hr Hdel Hi Htail.
    apply (ctor_tail_inv E _ _ _ _ _ _ _ _ Hs0) in Htail as (-> & F & k & HF & ->).
    split; [done|].
    destruct (constructed_intro w (set_analyses k w0) (cfg_autoCleanup cfg) ns s0 F HF Hs0 Hoth
                Ha Hd Hr Hdel Hi) as (Hl & Hc).
    eauto. }
  destruct (cfg_parentSession cfg) as [p|].
  - destruct (sessions (alloc w) !! p) as [ps|] eqn:Hp; [|done].
    destruct son as [src|n|l]; [done| |].
    + apply (Hfin _ _ (set_globalSession (globalSession ps) initial_fields)); try done.
      * rewrite sessions_upd_eq. unfold this. by rewrite sessions_alloc_eq.
      * intros i Hi. rewrite sessions_upd_ne by done. by apply Hne.
    + apply (Hfin _ _ (set_globalSession (globalSession ps) initial_fields)); try done.
      * rewrite sessions_upd_eq. unfold this. by rewrite sessions_alloc_eq.
      * intros i Hi. rewrite sessions_upd_ne by done. by apply Hne.
  - destruct son as [src|n|l]; [| |done].
    + destruct (parseScript E src (heap w)) as [[tree h]|]; [|done].
      apply (Hfin _ _ (set_globalSession this (set_root (Ref tree) initial_fields))); try done.
      * rewrite !sessions_upd_eq. cbn [sessions set_heap]. unfold this. by rewrite sessions_alloc_eq.
      * intros i Hi. rewrite !sessions_upd_ne by done. cbn [sessions set_heap]. by apply Hne.
    + apply (Hfin _ _ (set_globalSession this (set_root n initial_fields))); try done.
      * rewrite !sessions_upd_eq. unfold this. by rewrite sessions_alloc_eq.
      * intros i Hi. rewrite !sessions_upd_ne by done. by apply Hne.
Qed.
End CtorState.

Section CtorAccepts.
Context (E : Externals).

Lemma ctor_tail_accepts f a ns w w0 s0 r :
  let this := fresh (dom (sessions w)) in
  sessions w0 !! this = Some s0 ->
  (forall i, i <> this -> sessions w0 !! i = sessions w !! i) ->
  autoCleanup s0 = true -> dirty s0 = false -> replacements s0 = ∅ ->
  deletions s0 = ∅ -> insertions s0 = ∅ -> lookupTable s0 = None ->
  (forall w1 s1, sessions w1 !! this = Some s1 -> _root s1 = _root s0 ->
      globalSession s1 = globalSession s0 ->
      (forall i, i <> this -> sessions w1 !! i = sessions w0 !! i) ->
      root (S (S f)) this w1 = Ok r w1) ->
  exists w' s', ctor_tail E (S (S (S f))) this a ns w0 = Ok this w'
    /\ sessions w' !! this = Some s' /\ constructed E w w' ns (globalSession s0) s'
    /\ is_Some (lookupTable s') /\ heap w' = heap w0.
Proof.
  intros this Hs0 Hoth Ha Hd Hr Hdel Hi Hn Hroot.
  destruct (ctor_tail_Ok E f this a ns w0 s0 r Hs0 Hn Hroot) as (F & t & HF & Htail).
  rewrite Htail.
  assert (HF' : scope_upd (F ∘ set_lookupTable (Some t))).
  { apply scope_upd_compose; [by apply scope_only_upd|]. intros ?. repeat split. }
  destruct (constructed_intro E w (set_analyses (S (analyses w0)) w0) a ns s0 _ HF' Hs0 Hoth
              Ha Hd Hr Hdel Hi) as (Hl & Hc).
  eexists _, _. split; [reflexivity|]. split; [exact Hl|]. split; [exact Hc|].
  split; [|done].
  cbn [compose heap set_analyses]. destruct (HF (set_lookupTable (Some t)
    (set_parentMap (buildParentMap E ns (heap w0)) (auto_assign a (set_nodes ns s0)))))
    as (?&?&?&?&?&?&?&?&?&Hlt).
  rewrite Hlt. by eexists.
Qed.

Lemma constructor_child_accepts f son a p ps gs w :
  let this := fresh (dom (sessions w)) in
  sessions w !! p = Some ps ->
  sessions w !! globalSession ps = Some gs ->
  truthy (_root gs) = true ->
  forall ns, match son with
             | Source _ => False
             | OneNode n => ns = [n]
             | NodeList l => ns = item_nodes l
             end ->
  exists w' s', constructor E (S (S (S f))) son (MkConfig a (Some p)) w = Ok this w'
    /\ sessions w' !! this = Some s' /\ constructed E w w' ns (globalSession ps) s'
    /\ is_Some (lookupTable s') /\ heap w' = heap w.
Proof.
  intros this Hp Hg Hroot ns Hson.
  rewrite constructor_eq. cbv zeta. cbn [cfg_parentSession cfg_autoCleanup]. fold this.
  pose proof (fresh_session_ne _ _ _ Hp) as Hpne.
  pose proof (fresh_session_ne _ _ _ Hg) as Hgne. fold this in Hpne, Hgne.
  rewrite (sessions_alloc_ne _ _ Hpne), Hp.
  set (w0 := upd_session this (set_globalSession (globalSession ps)) (alloc w)).
  assert (Hs0 : sessions w0 !! this = Some (set_globalSession (globalSession ps) initial_fields)).
  { unfold w0. rewrite sessions_upd_eq. unfold this. by rewrite sessions_alloc_eq. }
  assert (Hoth : forall i, i <> this -> sessions w0 !! i = sessions w !! i).
  { intros i Hi. unfold w0. rewrite sessions_upd_ne by done. by apply sessions_alloc_ne. }
  assert (Hr : forall w1 s1, sessions w1 !! this = Some s1 ->
      _root s1 = _root (set_globalSession (globalSession ps) initial_fields) ->
      globalSession s1 = globalSession (set_globalSession (globalSession ps) initial_fields) ->
      (forall i, i <> this -> sessions w1 !! i = sessions w0 !! i) ->
      root (S (S f)) this w1 = Ok (_root gs) w1).
  { intros w1 s1 Hs1 Hr1 Hg1 Ho1. cbn in Hr1, Hg1.
    apply (root_global _ _ _ s1 gs); try done.
    - by rewrite Hr1.
    - rewrite Hg1. done.
    - rewrite Hg1. rewrite Ho1 by done. rewrite Hoth by done. done. }
  destruct (ctor_tail_accepts f a ns w w0 _ _ Hs0 Hoth eq_refl eq_refl eq_refl eq_refl eq_refl
              eq_refl Hr) as (w' & s' & Ht & Hl & Hc & Hlt & Hh).
  exists w', s'. destruct son as [src|n|l]; [done| |]; subst ns;
    (split; [exact Ht|]; split; [exact Hl|]; split; [exact Hc|]; split; [exact Hlt|]; exact Hh).
Qed.

Lemma constructor_root_node_accepts f n a w :
  let this := fresh (dom (sessions w)) in
  truthy n = true ->
  exists w' s', constructor E (S (S (S f))) (OneNode n) (MkConfig a None) w = Ok this w'
    /\ sessions w' !! this = Some s' /\ constructed E w w' [n] this s'
    /\ is_Some (lookupTable s') /\ heap w' = heap w /\ _root s' = n.
Proof.
  intros this Hn.
  rewrite constructor_eq. cbv zeta. cbn [cfg_parentSession cfg_autoCleanup]. fold this.
  set (w0 := upd_session this (set_globalSession this) (upd_session this (set_root n) (alloc w))).
  set (s0 := set_globalSession this (set_root n initial_fields)).
  assert (Hs0 : sessions w0 !! this = Some s0).
  { unfold w0. rewrite !sessions_upd_eq. unfold this. by rewrite sessions_alloc_eq. }
  assert (Hoth : forall i, i <> this -> sessions w0 !! i = sessions w !! i).
  { intros i Hi. unfold w0. rewrite !sessions_upd_ne by done. by apply sessions_alloc_ne. }
  assert (Hr : forall w1 s1, sessions w1 !! this = Some s1 ->
      _root s1 = _root s0 -> globalSession s1 = globalSession s0 ->
      (forall i, i <> this -> sessions w1 !! i = sessions w0 !! i) ->
      root (S (S f)) this w1 = Ok n w1).
  { intros w1 s1 Hs1 Hr1 Hg1 Ho1. cbn in Hr1.
    rewrite <- Hr1. apply root_own; [done|]. by rewrite Hr1. }
  destruct (ctor_tail_accepts f a [n] w w0 _ _ Hs0 Hoth eq_refl eq_refl eq_refl eq_refl eq_refl
              eq_refl Hr) as (w' & s' & Ht & Hl & Hc & Hlt & Hh).
  exists w', s'. split; [exact Ht|]. split; [exact Hl|]. split; [exact Hc|].
  split; [exact Hlt|]. split; [exact Hh|].
  (* the root field *)
  cbv zeta in Ht. apply ctor_tail_inv with (s := s0) in Ht as (_ & F & k & HF & ->); [|done].
  unfold this in Hl, Hs0. rewrite sessions_upd_eq in Hl. cbn [sessions set_analyses] in Hl.
  rewrite Hs0 in Hl. inversion Hl; subst s'. cbn [compose].
  match goal with |- _root (F ?x) = _ => destruct (HF x) as (?&Hroot&?) end. rewrite Hroot. by destruct a as [[]|].
Qed.
End CtorAccepts.

Section CtorKinds.
Context (E : Externals).

Lemma constructor_root_source_accepts f src tree h a w :
  let this := fresh (dom (sessions w)) in
  parseScript E src (heap w) = Some (tree, h) ->
  exists w' s', constructor E (S (S (S f))) (Source src) (MkConfig a None) w = Ok this w'
    /\ sessions w' !! this = Some s' /\ constructed E w w' [Ref tree] this s'
    /\ is_Some (lookupTable s') /\ heap w' = h.
Proof.
  intros this Hparse.
  rewrite constructor_eq. cbv zeta. cbn [cfg_parentSession cfg_autoCleanup]. fold this.
  rewrite Hparse.
  set (w0 := upd_session this (set_globalSession this)
               (upd_session this (set_root (Ref tree)) (set_heap h (alloc w)))).
  set (s0 := set_globalSession this (set_root (Ref tree) initial_fields)).
  assert (Hs0 : sessions w0 !! this = Some s0).
  { unfold w0. rewrite !sessions_upd_eq. cbn [sessions set_heap]. unfold this.
    by rewrite sessions_alloc_eq. }
  assert (Hoth : forall i, i <> this -> sessions w0 !! i = sessions w !! i).
  { intros i Hi. unfold w0. rewrite !sessions_upd_ne by done. cbn [sessions set_heap].
    by apply sessions_alloc_ne. }
  assert (Hr : forall w1 s1, sessions w1 !! this = Some s1 ->
      _root s1 = _root s0 -> globalSession s1 = globalSession s0 ->
      (forall i, i <> this -> sessions w1 !! i = sessions w0 !! i) ->
      root (S (S f)) this w1 = Ok (Ref tree) w1).
  { intros w1 s1 Hs1 Hr1 Hg1 Ho1. cbn in Hr1.
    rewrite <- Hr1. apply root_own; [done|]. by rewrite Hr1. }
  destruct (ctor_tail_accepts E f a [Ref tree] w w0 _ _ Hs0 Hoth eq_refl eq_refl eq_refl eq_refl
              eq_refl eq_refl Hr) as (w' & s' & Ht & Hl & Hc & Hlt & Hh).
  exists w', s'. split; [exact Ht|]. split; [exact Hl|]. split; [exact Hc|].
  split; [exact Hlt|]. exact Hh.
Qed.
End CtorKinds.

(** C10.  A root session (no parent session) built from a list of
    nodes always throws a [RefactorError], and a subsession built from
    source text always throws (an [Error] when the parent session
    exists); a subsession does accept a list of nodes, and a root
    session accepts one node or source text that parses. *)
Theorem constructor_argument_kinds (E : Externals) (fuel f : nat) (a : option bool)
    (w : World) (l : list Item) (src : string) (p : nat) :
  let this := fresh (dom (sessions w)) in
  (exists w', constructor E fuel (NodeList l) (MkConfig a None) w
     = Throw (RefactorError "Must initialize root session with a JavaScript source program (JS source or single Node)") w')
  /\ (exists e w', constructor E fuel (Source src) (MkConfig a (Some p)) w = Throw e w')
  /\ (forall ps, sessions w !! p = Some ps ->
        exists w', constructor E fuel (Source src) (MkConfig a (Some p)) w
          = Throw (Error "Can not initialize child RefactorSession with a new AST") w')
  /\ (forall ps gs, sessions w !! p = Some ps ->
        sessions w !! globalSession ps = Some gs -> truthy (_root gs) = true ->
        exists w' s', constructor E (S (S (S f))) (NodeList l) (MkConfig a (Some p)) w = Ok this w'
          /\ sessions w' !! this = Some s' /\ nodes s' = item_nodes l
          /\ globalSession s' = globalSession ps)
  /\ (forall n, truthy n = true ->
        exists w' s', constructor E (S (S (S f))) (OneNode n) (MkConfig a None) w = Ok this w'
          /\ sessions w' !! this = Some s' /\ nodes s' = [n] /\ globalSession s' = this)
  /\ (forall tree h, parseScript E src (heap w) = Some (tree, h) ->
        exists w' s', constructor E (S (S (S f))) (Source src) (MkConfig a None) w = Ok this w'
          /\ sessions w' !! this = Some s' /\ nodes s' = [Ref tree] /\ globalSession s' = this).
Proof.
  intros this. repeat split.
  - rewrite constructor_eq. cbn [cfg_parentSession]. cbv zeta. eauto.
  - rewrite constructor_eq. cbn [cfg_parentSession]. cbv zeta.
    destruct (sessions (alloc w) !! p); eauto.
  - intros ps Hp. rewrite constructor_eq. cbn [cfg_parentSession].
    rewrite (sessions_alloc_ne _ _ (fresh_session_ne _ _ _ Hp)), Hp. cbv zeta. eauto.
  - intros ps gs Hp Hg Hroot.
    destruct (constructor_child_accepts E f (NodeList l) a p ps gs w Hp Hg Hroot _ eq_refl)
      as (w' & s' & Hc & Hl & [] & _).
    exists w', s'. done.
  - intros n Hn.
    destruct (constructor_root_node_accepts E f n a w Hn) as (w' & s' & Hc & Hl & [] & _).
    exists w', s'. done.
  - intros tree h Hparse.
    destruct (constructor_root_source_accepts E f src tree h a w Hparse)
      as (w' & s' & Hc & Hl & [] & _).
    exists w', s'. done.
Qed.

(** C4 (what the code does).  Whatever the [autoCleanup] option says,
    a session that the constructor returns has [autoCleanup] on: the
    option is only ever assigned when it is true. *)
Theorem constructor_autoCleanup_stays_on (E : Externals) (fuel : nat) (son : SourceOrNodes)
    (cfg : RefactorConfig) (w : World) (this : nat) (w' : World) :
  constructor E fuel son cfg w = Ok this w' ->
  exists s', sessions w' !! this = Some s' /\ autoCleanup s' = true.
Proof.
  intros H. apply constructor_inv in H as (-> & s' & ns & g & Hl & []). eauto.
Qed.

(** On the store that holds the session over [a; b; c]: a subsession
    from an array (whose string entry is dropped), a root session from
    one node, and a root session from the text [x]. *)
Lemma constructor_argument_kinds_witness :
  (exists w' s', constructor Demo.externals 5 (NodeList [ItemNode (Ref 3); ItemStr "x"])
                   (MkConfig None (Some 0)) DemoWorlds.root_world = Ok 1 w'
     /\ sessions w' !! 1 = Some s' /\ nodes s' = [Ref 3] /\ globalSession s' = 0)
  /\ (exists w' s', constructor Demo.externals 5 (OneNode (Ref 1)) (MkConfig None None)
                      DemoWorlds.root_world = Ok 1 w'
     /\ sessions w' !! 1 = Some s' /\ nodes s' = [Ref 1] /\ globalSession s' = 1)
  /\ (exists w' s', constructor Demo.externals 5 (Source "x") (MkConfig None None)
                      DemoWorlds.root_world = Ok 1 w'
     /\ sessions w' !! 1 = Some s' /\ nodes s' = [Ref 12] /\ globalSession s' = 1).
Proof.
  pose proof (constructor_argument_kinds Demo.externals 5 2 None DemoWorlds.root_world
                [ItemNode (Ref 3); ItemStr "x"] "x" 0) as H.
  destruct H as (_ & _ & _ & Hsub & Hnode & Hsrc).
  split; [|split].
  - apply (Hsub DemoWorlds.root_session DemoWorlds.root_session); vm_compute; reflexivity.
  - apply (Hnode (Ref 1)). reflexivity.
  - apply (Hsrc 12 (snd (default (0, ∅) (Demo.parseScript "x" (heap DemoWorlds.root_world))))).
    vm_compute. reflexivity.
Defined.

(** [new RefactorSession(script, {autoCleanup: false})] on the script
    of [a; b; c]. *)
Lemma constructor_autoCleanup_stays_on_witness :
  exists s', sessions (match constructor Demo.externals 5 (OneNode (Ref 1))
                               (MkConfig (Some false) None) Demo.abc_world with
                       | Ok _ w => w
                       | _ => Demo.abc_world
                       end) !! 0 = Some s' /\ autoCleanup s' = true.
Proof.
  apply (constructor_autoCleanup_stays_on Demo.externals 5 (OneNode (Ref 1))
           (MkConfig (Some false) None) Demo.abc_world 0).
  vm_compute. reflexivity.
Defined.

(* ===================================================================== *)
(** ** Renaming                                                          *)
(* ===================================================================== *)

Lemma get_set_prop_eq key v ps : get_prop key (set_prop key v ps) = Some v.
Proof.
  induction ps as [|[k v0] ps IH]; simpl.
  - by rewrite decide_True.
  - destruct (decide (k = key)); simpl.
    + by rewrite decide_True.
    + by rewrite decide_False.
Qed.

Lemma get_set_prop_ne key key' v ps :
  key' <> key -> get_prop key' (set_prop key v ps) = get_prop key' ps.
Proof.
  intros Hne. induction ps as [|[k v0] ps IH]; simpl.
  - by rewrite decide_False.
  - destruct (decide (k = key)); simpl.
    + subst. by rewrite !decide_False.
    + destruct (decide (k = key')); done.
Qed.

Lemma set_prop_idemp key v ps : set_prop key v (set_prop key v ps) = set_prop key v ps.
Proof.
  induction ps as [|[k v0] ps IH]; simpl.
  - by rewrite decide_True.
  - destruct (decide (k = key)); simpl.
    + by rewrite decide_True.
    + rewrite decide_False by done. by rewrite IH.
Qed.

Lemma with_prop_idemp key v o : with_prop key v (with_prop key v o) = with_prop key v o.
Proof. unfold with_prop. simpl. by rewrite set_prop_idemp. Qed.

Lemma renamed_lookup newName ids h id :
  renamed newName ids h !! id =
  if decide (id ∈ ids) then with_prop "name" (PStr newName) <$> h !! id else h !! id.
Proof.
  unfold renamed. revert h. induction ids as [|i ids IH]; intros h.
  - cbn [foldl]. case_decide as Hin; [by apply elem_of_nil in Hin|done].
  - cbn [foldl]. rewrite IH. destruct (decide (i = id)) as [->|Hne].
    + rewrite lookup_alter_eq.
      destruct (decide (id ∈ id :: ids)) as [_|Hn]; [|by destruct Hn; left].
      case_decide; [|done].
      destruct (h !! id); simpl; [|done]. by rewrite with_prop_idemp.
    + rewrite lookup_alter_ne by done.
      destruct (decide (id ∈ ids)) as [Hin|Hin].
      * destruct (decide (id ∈ i :: ids)) as [_|Hn]; [done|]. destruct Hn. by right.
      * destruct (decide (id ∈ i :: ids)) as [Hn|_]; [|done].
        apply elem_of_cons in Hn as [->|?]; done.
Qed.

Lemma forEach_set_name {A} newName (f : A -> nat) (l : list A) w :
  forEachSt (fun x => set_name newName (f x)) l w
  = Ok tt (set_heap (renamed newName (f <$> l) (heap w)) w).
Proof.
  revert w. induction l as [|x l IH]; intros w; simpl.
  - unfold mret, St_ret. by destruct w.
  - unfold mbind, St_bind, set_name, modify. rewrite IH. done.
Qed.

(** C8.  [renameInPlace] on a resolved variable and a non-empty new
    name returns at once with the [name] property of every declaration
    node and every reference node of the variable set to the new name
    (nothing else of those objects changes), every other object of the
    heap as it was, and the sessions (the mutation queues and the dirty
    flags among their fields) untouched; it does nothing when the
    variable is absent or the new name is empty. *)
Theorem renameInPlace_spec (lookup : ScopeVariable) (newName : string) (w : World) :
  renameInPlace None newName w = Ok tt w
  /\ renameInPlace (Some lookup) "" w = Ok tt w
  /\ (newName <> "" ->
      exists w', renameInPlace (Some lookup) newName w = Ok tt w'
        /\ sessions w' = sessions w /\ log w' = log w
        /\ (forall id, id ∈ rename_targets lookup ->
              heap w' !! id = with_prop "name" (PStr newName) <$> heap w !! id)
        /\ (forall id o, id ∈ rename_targets lookup -> heap w !! id = Some o ->
              exists o', heap w' !! id = Some o' /\ ntype o' = ntype o
                /\ get_prop "name" (props o') = Some (PStr newName)
                /\ forall key, key <> "name" -> get_prop key (props o') = get_prop key (props o))
        /\ (forall id, id ∉ rename_targets lookup -> heap w' !! id = heap w !! id)).
Proof.
  split; [done|]. split; [done|].
  intros Hne. unfold renameInPlace. rewrite decide_False by done.
  unfold mbind, St_bind. rewrite forEach_set_name. rewrite forEach_set_name.
  eexists. split; [reflexivity|]. cbn [heap sessions log set_heap].
  assert (Hl : forall id,
    renamed newName (ref_node <$> references lookup)
      (renamed newName (decl_node <$> declarations lookup) (heap w)) !! id
    = if decide (id ∈ rename_targets lookup)
      then with_prop "name" (PStr newName) <$> heap w !! id else heap w !! id).
  { intros id. unfold renamed at 1 2. rewrite <- foldl_app. apply renamed_lookup. }
  split; [done|]. split; [done|]. split; [|split].
  - intros id Hin. rewrite Hl. by rewrite decide_True.
  - intros id o Hin Ho. rewrite Hl. rewrite decide_True by done. rewrite Ho. simpl.
    eexists. split; [reflexivity|]. split; [done|]. split.
    + apply get_set_prop_eq.
    + intros key Hk. by apply get_set_prop_ne.
  - intros id Hin. rewrite Hl. by rewrite decide_False.
Qed.

(** Renaming the variable whose one reference is the identifier of
    statement [b] to [y]. *)
Lemma renameInPlace_spec_witness :
  exists w', renameInPlace (Some (MkVariable 0 1 "b" [] [MkReference 6])) "y" Demo.abc_world = Ok tt w'
    /\ heap w' !! 6 = Some (MkNode "IdentifierExpression" [("name", PStr "y")])
    /\ heap w' !! 5 = Some (MkNode "IdentifierExpression" [("name", PStr "a")]).
Proof.
  destruct (renameInPlace_spec (MkVariable 0 1 "b" [] [MkReference 6]) "y" Demo.abc_world)
    as (_ & _ & H).
  destruct H as (w' & Hr & _ & _ & Hin & _ & Hout); [discriminate|].
  exists w'. split; [exact Hr|]. split.
  - rewrite Hin; [reflexivity|]. apply list_elem_of_singleton. reflexivity.
  - rewrite Hout; [reflexivity|]. intros H%list_elem_of_singleton. discriminate H.
Defined.

(* ===================================================================== *)
(** ** What the merge pass does to the session that runs it              *)
(* ===================================================================== *)

Lemma commit_rel_refl g w : commit_rel g w w.
Proof.
  exists []. split; [done|]. split; [done|].
  intros s Hs. exists s. split; [done|]. split; [by destruct s|].
  split; intros n; (case_decide as H; [by apply elem_of_nil in H|done]).
Qed.

Lemma commit_rel_trans g w1 w2 w3 :
  commit_rel g w1 w2 -> commit_rel g w2 w3 -> commit_rel g w1 w3.
Proof.
  intros (e1 & Hl1 & Ho1 & Hs1) (e2 & Hl2 & Ho2 & Hs2).
  exists (e2 ++ e1)%list. split; [by rewrite Hl2, Hl1, app_assoc|].
  split; [intros i Hi; by rewrite Ho2, Ho1|].
  intros s Hs. destruct (Hs1 s Hs) as (s2 & Hs2' & Heq2 & Hr2 & Hi2).
  destruct (Hs2 s2 Hs2') as (s3 & Hs3 & Heq3 & Hr3 & Hi3).
  exists s3. split; [done|]. split.
  { rewrite Heq3. rewrite Heq2. by destruct s. }
  split; intros n.
  - rewrite Hr3, Hr2.
    destruct (decide (AppliedReplacement n ∈ e2)), (decide (AppliedReplacement n ∈ e1)),
      (decide (AppliedReplacement n ∈ (e2 ++ e1)%list)) as [Hin|Hout]; try done;
      exfalso; rewrite elem_of_app in *; tauto.
  - rewrite Hi3, Hi2.
    destruct (decide (AppliedInsertion n ∈ e2)), (decide (AppliedInsertion n ∈ e1)),
      (decide (AppliedInsertion n ∈ (e2 ++ e1)%list)) as [Hin|Hout]; try done;
      exfalso; rewrite elem_of_app in *; tauto.
Qed.

(** A change of the heap alone is no change for [commit_rel]. *)
Lemma commit_rel_heap g w w' h : commit_rel g w w' -> commit_rel g w (set_heap h w').
Proof. done. Qed.

Lemma commit_rel_heap_l g w w' h : commit_rel g w w' -> commit_rel g (set_heap h w) w'.
Proof. done. Qed.

Lemma commit_rel_log g w e :
  (forall n, e <> AppliedReplacement n) -> (forall n, e <> AppliedInsertion n) ->
  commit_rel g w (add_log e w).
Proof.
  intros Hr Hi. exists [e]. split; [done|]. split; [done|].
  intros s Hs. exists s. split; [done|]. split; [by destruct s|].
  split; intros n; (case_decide as H; [|done]);
    apply list_elem_of_singleton in H; symmetry in H; [by apply Hr in H|by apply Hi in H].
Qed.

Lemma commit_rel_replaced g w id :
  commit_rel g w
    (add_log (AppliedReplacement id)
       (upd_session g (fun s => set_replacements (base.delete id (replacements s)) s) w)).
Proof.
  exists [AppliedReplacement id]. split; [done|].
  split; [intros i Hi; cbn; by rewrite lookup_alter_ne|].
  intros s Hs. eexists. split; [cbn; by rewrite lookup_alter_eq, Hs|].
  split; [done|]. cbn. split; intros n.
  - case_decide as H.
    + apply list_elem_of_singleton in H. inversion H; subst. apply lookup_delete_eq.
    + rewrite lookup_delete_ne; [done|]. intros ->. apply H. by apply list_elem_of_singleton.
  - case_decide as H; [|done]. apply list_elem_of_singleton in H. discriminate.
Qed.

Lemma commit_rel_inserted g w id h :
  commit_rel g w
    (add_log (AppliedInsertion id)
       (upd_session g (fun s => set_insertions (base.delete id (insertions s)) s) (set_heap h w))).
Proof.
  exists [AppliedInsertion id]. split; [done|].
  split; [intros i Hi; cbn; by rewrite lookup_alter_ne|].
  intros s Hs. eexists. split; [cbn; by rewrite lookup_alter_eq, Hs|].
  split; [done|]. cbn. split; intros n.
  - case_decide as H; [|done]. apply list_elem_of_singleton in H. discriminate.
  - case_decide as H.
    + apply list_elem_of_singleton in H. inversion H; subst. apply lookup_delete_eq.
    + rewrite lookup_delete_ne; [done|]. intros ->. apply H. by apply list_elem_of_singleton.
Qed.

Lemma commit_rel_delete_absent g w s id :
  sessions w !! g = Some s -> replacements s !! id = None ->
  upd_session g (fun s => set_replacements (base.delete id (replacements s)) s) w = w.
Proof.
  intros Hs Hn. unfold upd_session, set_sessions. destruct w as [h ss l k]. cbn in *. f_equal.
  apply alter_id. intros x Hx. rewrite Hs in Hx. inversion Hx; subst x.
  rewrite delete_id by done. by destruct s.
Qed.

Lemma deref_inv r w o w' : deref r w = Ok o w' -> w' = w /\ exists id, r = Ref id /\ heap w !! id = Some o.
Proof.
  unfold deref. destruct r as [| |id]; try done.
  destruct (heap w !! id) eqn:H; [|done]. inversion 1; subst. eauto.
Qed.

Section Leave.
Context (E : Externals).

Lemma declaratorsEmpty_frame o w b w' : declaratorsEmpty o w = Ok b w' -> w' = w.
Proof.
  unfold declaratorsEmpty.
  destruct (get_prop "declaration" (props o)) as [[|r|]|]; try done.
  unfold mbind, St_bind. destruct (deref r w) as [d w1| |] eqn:Hd; try done.
  apply deref_inv in Hd as (-> & _).
  destruct (get_prop "declarators" (props d)) as [[|[]|]|]; try done;
    unfold mret, St_ret; by inversion 1.
Qed.

(** Whenever the callback returns, it has changed the session as
    [commit_rel] says. *)
Lemma cleanup_leave_rel g node parent w res w' :
  cleanup_leave E g node parent w = Ok res w' -> commit_rel g w w'.
Proof.
  unfold cleanup_leave. unfold mbind at 1, St_bind at 1.
  destruct (deref node w) as [o w1| |] eqn:Hd; try done.
  apply deref_inv in Hd as (-> & id & -> & Ho).
  unfold mbind at 1, St_bind at 1.
  destruct ((if decide (ntype o = "VariableDeclarationStatement")
             then declaratorsEmpty o else mret false) w) as [emptied w1| |] eqn:Hem; try done.
  assert (w1 = w) as ->.
  { destruct (decide _); [by apply declaratorsEmpty_frame in Hem|].
    unfold mret, St_ret in Hem. by inversion Hem. }
  destruct emptied.
  { unfold mret, St_ret. inversion 1; subst. apply commit_rel_refl. }
  unfold mbind at 1, St_bind at 1.
  destruct (get_session g w) as [s w1| |] eqn:Hs; try done.
  apply get_session_inv in Hs as (-> & Hs).
  destruct (replacements s !! id) as [newNode|] eqn:Hrep.
  { unfold mbind, St_bind, modify, mret, St_ret. inversion 1; subst.
    apply commit_rel_replaced. }
  unfold mbind at 1, St_bind at 1.
  match goal with |- context [match ?m w with _ => _ end] =>
    destruct (m w) as [[] w1| |] eqn:Hins; try done;
    assert (commit_rel g w w1 /\ (forall s1, sessions w1 !! g = Some s1 ->
               replacements s1 = replacements s)) as (Hrel1 & Hrep1)
  end.
  { destruct (insertions s !! id) as [insertion|].
    - unfold mbind at 1, St_bind at 1, get_state at 1 in Hins.
      destruct (isStatement E (Ref id) (heap w)).
      + unfold mbind at 1, St_bind at 1 in Hins.
        destruct (deref parent w) as [p w2| |] eqn:Hp; try done.
        apply deref_inv in Hp as (-> & pid & -> & Hp).
        destruct (has_prop "statements" p).
        * destruct (get_prop "statements" (props p)) as [[| |l]|]; try done.
          unfold mbind, St_bind, modify in Hins. inversion Hins; subst w1.
          split; [apply commit_rel_inserted|].
          intros s1. cbn. rewrite lookup_alter_eq, Hs. by inversion 1.
        * unfold modify in Hins. inversion Hins; subst w1.
          split; [by apply commit_rel_log|]. intros s1. cbn. rewrite Hs. by inversion 1.
      + unfold modify in Hins. inversion Hins; subst w1.
        split; [by apply commit_rel_log|]. intros s1. cbn. rewrite Hs. by inversion 1.
    - unfold mret, St_ret in Hins. inversion Hins; subst w1.
      split; [apply commit_rel_refl|]. intros s1. rewrite Hs. by inversion 1. }
  unfold mbind at 1, St_bind at 1.
  destruct (get_session g w1) as [s1 w2| |] eqn:Hs1; try done.
  apply get_session_inv in Hs1 as (-> & Hs1).
  destruct (decide (id ∈ deletions s1)).
  - unfold mbind, St_bind, modify, mret, St_ret. inversion 1; subst.
    rewrite (commit_rel_delete_absent g w1 s1 id Hs1).
    + eapply commit_rel_trans; [exact Hrel1|]. by apply commit_rel_log.
    + by rewrite (Hrep1 _ Hs1).
  - unfold mret, St_ret. inversion 1; subst. done.
Qed.
End Leave.

Section Walk.
Context (E : Externals) (g : nat).

Lemma slot_replace_world r target m :
  exists h, Traverser.m_world (Traverser.slot_replace r target m)
            = set_heap h (Traverser.m_world m).
Proof.
  destruct r; cbn; [exists (heap (Traverser.m_world m)); by destruct (Traverser.m_world m)| |];
    eauto.
Qed.

Lemma removeElem_world e m :
  exists h, Traverser.m_world (Traverser.removeElem e m) = set_heap h (Traverser.m_world m).
Proof.
  unfold Traverser.removeElem. destruct (Traverser.el_ref e) eqn:Hr.
  - apply (slot_replace_world Traverser.RootSlot).
  - apply (slot_replace_world (Traverser.PropSlot owner key)).
  - cbn. eauto.
Qed.

Lemma step_rel m m' :
  Traverser.step E (cleanup_leave E g) m = Ok tt m' ->
  commit_rel g (Traverser.m_world m) (Traverser.m_world m').
Proof.
  unfold Traverser.step.
  destruct (Traverser.worklist m) as [|[|e] wl].
  - inversion 1; subst. apply commit_rel_refl.
  - destruct (Traverser.leavelist m) as [|e [|p ll]]; try done.
    destruct (cleanup_leave E g _ _ _) as [[target removed] w'| |] eqn:Hleave; try done.
    apply cleanup_leave_rel in Hleave.
    inversion 1; subst m'. clear H.
    set (m1 := Traverser.MkMachine w' wl (p :: ll) (Traverser.outer_root m)).
    set (m2 := if decide (target = Undefined) then m1
               else Traverser.slot_replace (Traverser.el_ref e) target m1).
    assert (H2 : exists h, Traverser.m_world m2 = set_heap h w').
    { unfold m2. case_decide.
      - exists (heap w'). by destruct w'.
      - apply (slot_replace_world _ _ m1). }
    destruct H2 as (h2 & H2).
    destruct removed.
    + destruct (removeElem_world e m2) as (h3 & H3). rewrite H3, H2. done.
    + rewrite H2. done.
  - destruct (Traverser.el_node e) as [| |id].
    + inversion 1; subst. apply commit_rel_refl.
    + inversion 1; subst. apply commit_rel_refl.
    + destruct (heap (Traverser.m_world m) !! id) as [o|]; try done.
      destruct (keys E (ntype o)); try done.
      inversion 1; subst. apply commit_rel_refl.
Qed.

Lemma run_rel fuel m m' :
  Traverser.run E (cleanup_leave E g) fuel m = Ok tt m' ->
  commit_rel g (Traverser.m_world m) (Traverser.m_world m').
Proof.
  revert m. induction fuel as [|f IH]; intros m; simpl.
  - destruct (Traverser.worklist m); [|done]. inversion 1; subst. apply commit_rel_refl.
  - destruct (Traverser.worklist m) eqn:Hwl.
    { inversion 1; subst. apply commit_rel_refl. }
    unfold mbind, St_bind.
    destruct (Traverser.step E (cleanup_leave E g) m) as [[] m1| |] eqn:Hstep; try done.
    intros Hrun. eapply commit_rel_trans; [by apply step_rel|by apply IH].
Qed.

Lemma replace_rel fuel root w result w' :
  Traverser.replace E (cleanup_leave E g) root fuel w = Ok result w' ->
  commit_rel g w w'.
Proof.
  unfold Traverser.replace.
  destruct (Traverser.run _ _ _ _) as [[] m| |] eqn:Hrun; try done.
  apply run_rel in Hrun. inversion 1; subst. done.
Qed.

Lemma mapSt_replace_rel fuel roots w result w' :
  mapSt (fun node => Traverser.replace E (cleanup_leave E g) node fuel) roots w = Ok result w' ->
  commit_rel g w w'.
Proof.
  revert w result w'. induction roots as [|r roots IH]; intros w result w'; simpl.
  - inversion 1; subst. apply commit_rel_refl.
  - unfold mbind at 1, St_bind at 1.
    destruct (Traverser.replace _ _ _ _ _) as [y w1| |] eqn:Hr; try done.
    apply replace_rel in Hr.
    unfold mbind at 1, St_bind at 1.
    destruct (mapSt _ roots w1) as [ys w2| |] eqn:Hm; try done.
    apply IH in Hm. inversion 1; subst.
    eapply commit_rel_trans; eauto.
Qed.
End Walk.

Section Cleanup.
Context (E : Externals).

Lemma bind_modify {S B} (f : S -> S) (k : unit -> St S B) s :
  (modify f ≫= k) s = k tt (f s).
Proof. reflexivity. Qed.

Lemma isDirty_get this w s :
  sessions w !! this = Some s -> isDirty this None w = Ok (dirty s) w.
Proof.
  intros Hs. unfold isDirty, mbind, St_bind, mret, St_ret.
  by rewrite (get_session_Ok _ _ _ Hs).
Qed.

Lemma isDirty_set this w s b :
  sessions w !! this = Some s ->
  isDirty this (Some b) w = Ok b (upd_session this (set_dirty b) w).
Proof.
  intros Hs. unfold isDirty, mbind, St_bind, mret, St_ret, modify.
  assert (Ha : sessions (upd_session this (set_dirty b) w) !! this = Some (set_dirty b s)).
  { by rewrite sessions_upd_eq, Hs. }
  by rewrite (get_session_Ok _ _ _ Ha).
Qed.

Lemma rebuildParentMap_eq this w s :
  sessions w !! this = Some s ->
  rebuildParentMap E this w
  = Ok tt (upd_session this (set_parentMap (buildParentMap E (nodes s) (heap w))) w).
Proof.
  intros Hs. unfold rebuildParentMap, mbind, St_bind, get_state, modify.
  by rewrite (get_session_Ok _ _ _ Hs).
Qed.

(** [cleanup] unfolded: it runs on the global session [r] of [this];
    on a clean session it does nothing; on a dirty one it walks the
    roots and then assigns the four fields. *)
Lemma cleanup_inv fuel this w r w' :
  cleanup E fuel this w = Ok r w' ->
  exists s, sessions w !! r = Some s /\ globalSession s = r /\
    ((dirty s = false /\ w' = w) \/
     (dirty s = true /\ exists f w1 result,
         mapSt (fun node => Traverser.replace E (cleanup_leave E r) node f) (nodes s) w
           = Ok result w1
         /\ commit_rel r w w1
         /\ w' = upd_session r (after_walk E (nodes s) result (heap w1)) w1)).
Proof.
  revert this. induction fuel as [|f IH]; intros this; [done|].
  cbn [cleanup]. unfold mbind at 1, St_bind at 1.
  destruct (get_session this w) as [s w0| |] eqn:Hs; try done.
  apply get_session_inv in Hs as (-> & Hs).
  destruct (decide (this <> globalSession s)) as [Hne|Heq]; [by apply IH|].
  assert (globalSession s = this) as Hg by (destruct (decide (this = globalSession s)); done).
  rewrite (bind_Ok _ _ _ _ _ (isDirty_get _ _ _ Hs)).
  destruct (dirty s) eqn:Hd; cbn [negb].
  2:{ unfold mret, St_ret. inversion 1; subst. exists s. eauto. }
  unfold mbind at 1, St_bind at 1.
  destruct (mapSt _ (nodes s) w) as [result w1| |] eqn:Hmap; try done.
  pose proof (mapSt_replace_rel E this f (nodes s) w result w1 Hmap) as Hrel.
  destruct Hrel as (evs & Hlog & Hoth & Hses). destruct (Hses s Hs) as (s1 & Hs1 & Heq1 & Hr1 & Hi1).
  assert (Ha : forall F, sessions (upd_session this F w1) !! this = Some (F s1)).
  { intros F. by rewrite sessions_upd_eq, Hs1. }
  rewrite bind_modify.
  rewrite (bind_Ok _ _ _ _ _ (rebuildParentMap_eq _ _ _ (Ha _))).
  rewrite upd_session_compose.
  rewrite (bind_Ok _ _ _ _ _ (isDirty_set _ _ _ false (Ha _))).
  rewrite upd_session_compose.
  unfold modify, mbind, St_bind, mret, St_ret. rewrite upd_session_compose.
  inversion 1; subst. exists s. split; [done|]. split; [done|]. right. split; [done|].
  exists f, w1, result. split; [done|]. split; [by exists evs|].
  unfold after_walk.
  cbn [heap upd_session set_sessions nodes set_lookupTable]. rewrite Heq1. reflexivity.
Qed.
End Cleanup.

(* ===================================================================== *)
(** ** The entries that a commit takes out of the maps                   *)
(* ===================================================================== *)


Section Entries.
Context (E : Externals) (g : nat).






















End Entries.

(* ===================================================================== *)
(** ** Claims about the commit                                           *)
(* ===================================================================== *)



(** In that commit the ninth turn of the walk is the call of the
    callback on [b], and it applies the queued replacement. *)
Lemma commit_applies_queued_replacement :
  exists m, commit_at Demo.externals 0 [Ref 1] CommitRuns.queued_world m
            /\ applies_replacement Demo.externals 0 m 3.
Proof.
  eexists. split.
  - exists [], (Ref 1), [], 0, [], CommitRuns.queued_world, 8.
    split; [reflexivity|]. split; [reflexivity|]. vm_compute. reflexivity.
  - eexists _, _, _, _. split.
    + eexists _, _, _, _. repeat split; reflexivity.
    + split; [vm_compute; reflexivity|]. split; [vm_compute; reflexivity|].
      vm_compute. reflexivity.
Qed.

(** With the insertion of [x] after [b] queued, the ninth turn of the
    walk is the call of the callback on [b], and it applies the queued
    insertion. *)
Lemma commit_applies_queued_insertion :
  exists m, commit_at Demo.externals 0 [Ref 1] CommitRuns.insertion_queued m
            /\ applies_insertion Demo.externals 0 m 3.
Proof.
  eexists. split.
  - exists [], (Ref 1), [], 0, [], CommitRuns.insertion_queued, 8.
    split; [reflexivity|]. split; [reflexivity|]. vm_compute. reflexivity.
  - eexists _, _, _, _, _. split.
    + eexists _, _, _, _. repeat split; reflexivity.
    + split; [vm_compute; reflexivity|]. split; [vm_compute; reflexivity|].
      split; [vm_compute; reflexivity|].
      intros Heq. apply (f_equal (fun h => h !! 1)) in Heq. vm_compute in Heq. discriminate Heq.
Qed.

(** The parent index that [cleanup] leaves on a dirty session is built
    from the node list the session held before the commit, and the new
    node list is assigned after it. *)
Lemma cleanup_parentMap_of_old_nodes (E : Externals) (fuel this : nat) (w : World)
    (r : nat) (w' : World) (s : Session) :
  cleanup E fuel this w = Ok r w' ->
  sessions w !! r = Some s -> dirty s = true ->
  exists s', sessions w' !! r = Some s'
    /\ parentMap s' = buildParentMap E (nodes s) (heap w')
    /\ dirty s' = false /\ lookupTable s' = None.
Proof.
  intros H Hs Hd.
  apply cleanup_inv in H as (s0 & Hs0 & Hg & [(Hd0 & ->)|(_ & f & w1 & result & Hmap & Hrel & ->)]).
  { rewrite Hs in Hs0. inversion Hs0; subst. congruence. }
  rewrite Hs in Hs0. inversion Hs0; subst s0.
  destruct Hrel as (evs & Hlog & Hoth & Hses).
  destruct (Hses s Hs) as (s1 & Hs1 & _).
  eexists. split; [by rewrite sessions_upd_eq, Hs1|]. done.
Qed.

(** A commit leaves the session that ran it clean. *)
Lemma cleanup_leaves_clean (E : Externals) (fuel this : nat) (w : World) (r : nat) (w' : World) :
  cleanup E fuel this w = Ok r w' ->
  exists s', sessions w' !! r = Some s' /\ dirty s' = false /\ globalSession s' = r.
Proof.
  intros H. apply cleanup_inv in H as (s & Hs & Hg & [(Hd & ->)|(Hd & f & w1 & result & Hmap & Hrel & ->)]).
  - eauto.
  - destruct Hrel as (evs & Hlog & Hoth & Hses).
    destruct (Hses s Hs) as (s1 & Hs1 & Heq1 & _).
    eexists. split; [by rewrite sessions_upd_eq, Hs1|]. cbn. split; [done|].
    rewrite Heq1. done.
Qed.

(* ===================================================================== *)
(** ** Concrete runs                                                     *)
(* ===================================================================== *)


(** C1 (what the code does).  Statement [b] of [a; b; c] is queued for
    replacement by [x] and for deletion; after the commit the list is
    [a; x; c]: the replacement is in the tree, and [b] is still in the
    deletion set. *)
Theorem replacement_wins_over_deletion :
  exists w' s', Runs.replaced_and_deleted = Ok 0 w'
    /\ heap w' !! 1 = Some (Demo.script [Ref 2; Ref 8; Ref 4])
    /\ sessions w' !! 0 = Some s'
    /\ replacements s' = ∅ /\ deletions s' = {[3]}
    /\ log w' = [AppliedReplacement 3].
Proof.
  eexists _, _. split; [vm_compute; reflexivity|].
  split; [vm_compute; reflexivity|]. split; [vm_compute; reflexivity|].
  split; [reflexivity|]. split; vm_compute; reflexivity.
Qed.

(** C5 (what the code does).  A session over the script [a; b; c]
    replaces that script by the script [x] and commits: afterwards the
    session's node list is the new script, whose statement is node 8,
    and the parent index is the one built from the old node list: it
    has no entry for node 8 and still maps statement [b] to the old
    script; a parent query for node 8 finds nothing. *)
Theorem parent_index_built_from_old_roots :
  exists w' s', Runs.root_replaced = Ok 0 w'
    /\ sessions w' !! 0 = Some s' /\ nodes s' = [Ref 10] /\ dirty s' = false
    /\ heap w' !! 10 = Some (Demo.script [Ref 8])
    /\ parentMap s' !! 8 = None /\ parentMap s' !! 3 = Some (Ref 1)
    /\ parentMap s' = buildParentMap Demo.externals [Ref 1] (heap w')
    /\ findParents Demo.externals 0 (SelNode (Ref 8)) w' = Ok [] w'.
Proof.
  eexists _, _. split; [vm_compute; reflexivity|].
  split; [vm_compute; reflexivity|]. split; [reflexivity|]. split; [reflexivity|].
  repeat split; vm_compute; reflexivity.
Qed.

(** C4 (what the code does, continued).  On a session built with
    [autoCleanup: false], [delete] commits at once: statement [b] is
    gone from the list and the session is clean. *)
Lemma delete_commits_with_autoCleanup_off :
  exists w' s', Runs.delete_with_autoCleanup_off = Ok 0 w'
    /\ heap w' !! 1 = Some (Demo.script [Ref 2; Ref 4])
    /\ sessions w' !! 0 = Some s' /\ autoCleanup s' = true /\ dirty s' = false.
Proof.
  eexists _, _. split; [vm_compute; reflexivity|].
  split; [vm_compute; reflexivity|]. split; [vm_compute; reflexivity|].
  split; reflexivity.
Qed.

(* ===================================================================== *)
(** ** Queueing, and what a subsession forwards                          *)
(* ===================================================================== *)

Lemma queueDeletion_forward f this s node w :
  sessions w !! this = Some s -> this <> globalSession s ->
  _queueDeletion (S f) this node w = _queueDeletion f (globalSession s) node w.
Proof.
  intros Hs Hne. cbn [_queueDeletion]. unfold mbind at 1, St_bind at 1.
  rewrite (get_session_Ok _ _ _ Hs). by rewrite decide_True.
Qed.

Lemma queueDeletion_global f g s n w :
  sessions w !! g = Some s -> globalSession s = g ->
  _queueDeletion (S f) g (Ref n) w
  = Ok tt (upd_session g (fun s => set_deletions ({[n]} ∪ deletions s) (set_dirty true s)) w).
Proof.
  intros Hs Hg. cbn [_queueDeletion]. unfold mbind at 1, St_bind at 1.
  rewrite (get_session_Ok _ _ _ Hs). rewrite decide_False by (intros H; by apply H).
  rewrite (bind_Ok _ _ _ _ _ (isDirty_set _ _ _ true Hs)).
  unfold modify. by rewrite upd_session_compose.
Qed.


Lemma queueReplacement_global f g s n to w :
  sessions w !! g = Some s -> globalSession s = g ->
  _queueReplacement (S f) g (Ref n) to w
  = Ok tt (upd_session g (fun s => set_replacements (<[n := to]> (replacements s))
                                     (set_dirty true s)) w).
Proof.
  intros Hs Hg. cbn [_queueReplacement]. unfold mbind at 1, St_bind at 1.
  rewrite (get_session_Ok _ _ _ Hs). rewrite decide_False by (intros H; by apply H).
  rewrite (bind_Ok _ _ _ _ _ (isDirty_set _ _ _ true Hs)).
  unfold modify. by rewrite upd_session_compose.
Qed.

Section Forward.
Context (E : Externals).



Lemma generate_dirty this s ast w :
  sessions w !! this = Some s -> dirty s = true ->
  generate E this ast w
  = Throw (RefactorError "refactor .print() called with a dirty AST. This is almost always a bug. Call .cleanup() before printing.") w.
Proof.
  intros Hs Hd. unfold generate.
  rewrite (bind_Ok _ _ _ _ _ (isDirty_get _ _ _ Hs)). by rewrite Hd.
Qed.

Lemma generate_clean this s ast w :
  sessions w !! this = Some s -> dirty s = false ->
  generate E this ast w
  = Ok (codegen E (if truthy ast then ast else default Undefined (nodes s !! 0)) (heap w)) w.
Proof.
  intros Hs Hd. unfold generate.
  rewrite (bind_Ok _ _ _ _ _ (isDirty_get _ _ _ Hs)). rewrite Hd.
  unfold first, mbind, St_bind, mret, St_ret, get_state.
  by rewrite (get_session_Ok _ _ _ Hs).
Qed.

(** After a commit has returned, the session that ran it prints. *)
Lemma generate_after_cleanup fuel this ast w r w' :
  cleanup E fuel this w = Ok r w' -> exists text, generate E r ast w' = Ok text w'.
Proof.
  intros H. apply cleanup_leaves_clean in H as (s' & Hs' & Hd & _).
  eexists. by apply (generate_clean _ s').
Qed.
End Forward.

(** C9 (what the code does).  A mutation queued through a subsession
    lands in the global session, whose dirty flag goes on; [generate] on
    the global session then fails with the dirty-print error, but
    [generate] on the subsession reads the subsession's own flag, which
    nothing sets, and prints. *)
Theorem generate_on_subsession_ignores_pending (E : Externals) (f sub g n : nat)
    (ss gs : Session) (ast : NodeRef) (w : World) :
  sessions w !! sub = Some ss -> globalSession ss = g -> sub <> g ->
  sessions w !! g = Some gs -> globalSession gs = g -> dirty ss = false ->
  exists w' gs',
    _queueDeletion (S (S f)) sub (Ref n) w = Ok tt w'
    /\ sessions w' !! g = Some gs' /\ n ∈ deletions gs' /\ dirty gs' = true
    /\ sessions w' !! sub = Some ss
    /\ generate E g ast w'
       = Throw (RefactorError "refactor .print() called with a dirty AST. This is almost always a bug. Call .cleanup() before printing.") w'
    /\ generate E sub ast w'
       = Ok (codegen E (if truthy ast then ast else default Undefined (nodes ss !! 0)) (heap w')) w'.
Proof.
  intros Hss Hg Hne Hgs Hgg Hd. subst g.
  rewrite (queueDeletion_forward _ _ _ _ _ Hss Hne).
  rewrite (queueDeletion_global _ _ _ _ _ Hgs Hgg).
  eexists _, _. split; [reflexivity|].
  assert (Hs' : sessions (upd_session (globalSession ss)
                   (fun s => set_deletions ({[n]} ∪ deletions s) (set_dirty true s)) w)
                !! sub = Some ss).
  { by rewrite sessions_upd_ne. }
  split; [by rewrite sessions_upd_eq, Hgs|]. cbn [deletions set_deletions dirty set_dirty].
  split; [set_solver|]. split; [done|]. split; [done|]. split.
  - eapply generate_dirty; [by rewrite sessions_upd_eq, Hgs|done].
  - by apply generate_clean.
Qed.

(** The subsession for statement [b] of the session over [a; b; c]. *)
Lemma generate_on_subsession_ignores_pending_witness :
  exists w' gs',
    _queueDeletion 5 1 (Ref 3) DemoWorlds.sub_world = Ok tt w'
    /\ sessions w' !! 0 = Some gs' /\ 3 ∈ deletions gs' /\ dirty gs' = true
    /\ sessions w' !! 1 = Some DemoWorlds.sub_session
    /\ generate Demo.externals 0 Undefined w'
       = Throw (RefactorError "refactor .print() called with a dirty AST. This is almost always a bug. Call .cleanup() before printing.") w'
    /\ generate Demo.externals 1 Undefined w'
       = Ok (codegen Demo.externals (default Undefined (nodes DemoWorlds.sub_session !! 0)) (heap w')) w'.
Proof.
  apply (generate_on_subsession_ignores_pending Demo.externals 3 1 0 3
           DemoWorlds.sub_session DemoWorlds.root_session Undefined DemoWorlds.sub_world).
  - vm_compute. reflexivity.
  - reflexivity.
  - discriminate.
  - vm_compute. reflexivity.
  - reflexivity.
  - reflexivity.
Defined.




(* ===================================================================== *)
(** ** Replacement values                                                *)
(* ===================================================================== *)

Lemma deref_Ok id o w : heap w !! id = Some o -> deref (Ref id) w = Ok o w.
Proof. intros H. unfold deref. by rewrite H. Qed.

Lemma statements0_Ok tree script l w :
  heap w !! tree = Some script ->
  get_prop "statements" (props script) = Some (PArr l) ->
  statements0 (Ref tree) w = Ok (default Undefined (l !! 0)) w.
Proof.
  intros Ht Hs. unfold statements0.
  rewrite (bind_Ok _ _ _ _ _ (deref_Ok _ _ _ Ht)). by rewrite Hs.
Qed.

Section Replace.
Context (E : Externals).

Lemma conditionalCleanup_off fuel this s w :
  sessions w !! this = Some s -> autoCleanup s = false ->
  conditionalCleanup E fuel this w = Ok this w.
Proof.
  intros Hs Ha. unfold conditionalCleanup.
  rewrite (bind_Ok _ _ _ _ _ (get_session_Ok _ _ _ Hs)). by rewrite Ha.
Qed.

(** The replacement computed for a target in expression position
    from replacer text whose first statement is no expression
    statement is [null], and no exception. *)
Lemma replacement_for_wrong_category src tree id script st rest sto w :
  isStatement E (Ref id) (heap w) = false ->
  heap w !! tree = Some script ->
  get_prop "statements" (props script) = Some (PArr (Ref st :: rest)) ->
  heap w !! st = Some sto -> ntype sto <> "ExpressionStatement" ->
  replacement_for E (ReplSource src) (Ref tree) (Ref id) w = Ok Null w.
Proof.
  intros Hnot Htree Hstmts Hst Hty. unfold replacement_for. cbn [truthy].
  unfold get_state at 1. unfold mbind at 1, St_bind at 1. rewrite Hnot.
  rewrite (bind_Ok _ _ _ _ _ (statements0_Ok _ _ _ _ Htree Hstmts)).
  cbn [lookup list_lookup default]. rewrite (bind_Ok _ _ _ _ _ (deref_Ok _ _ _ Hst)).
  by rewrite decide_False.
Qed.
End Replace.

(** C6 (what the code does).  [replace] with replacer text whose first
    statement is no expression statement, on a target that is no
    statement: the call returns 1, raises nothing, and has queued
    [null] as the replacement of the target. *)
Theorem replace_queues_null_for_wrong_category (E : Externals) (f this id tree st : nat)
    (s : Session) (src : string) (h : Heap) (script sto : NodeObj) (rest : list NodeRef)
    (w : World) :
  sessions w !! this = Some s -> globalSession s = this -> autoCleanup s = false ->
  parseScript E src (heap w) = Some (tree, h) ->
  h !! tree = Some script ->
  get_prop "statements" (props script) = Some (PArr (Ref st :: rest)) ->
  h !! st = Some sto -> ntype sto <> "ExpressionStatement" ->
  isStatement E (Ref id) h = false ->
  exists w' s',
    replace E (S f) this (SelNode (Ref id)) (ReplSource src) w = Ok 1 w'
    /\ sessions w' !! this = Some s'
    /\ replacements s' !! id = Some Null /\ dirty s' = true.
Proof.
  intros Hs Hg Ha Hparse Htree Hstmts Hst Hty Hnot.
  unfold replace. rewrite (bind_Ok _ _ _ _ _ (get_session_Ok _ _ _ Hs)).
  unfold get_state at 1. unfold mbind at 1, St_bind at 1.
  cbn [findNodes]. unfold parse at 1. unfold mbind at 1, St_bind at 1. rewrite Hparse.
  cbn [mapSt].
  set (w1 := set_heap h w).
  assert (Hs1 : sessions w1 !! this = Some s) by done.
  rewrite (bind_Ok _ _ w1 [true]
             (upd_session this (fun s => set_replacements (<[id := Null]> (replacements s))
                                           (set_dirty true s)) w1)).
  2:{ rewrite (bind_Ok _ _ _ true
                 (upd_session this (fun s => set_replacements (<[id := Null]> (replacements s))
                                               (set_dirty true s)) w1)); [done|].
      rewrite (bind_Ok _ _ _ _ _
                 (replacement_for_wrong_category E src tree id script st rest sto w1
                    Hnot Htree Hstmts Hst Hty)).
      cbn [truthy andb negb]. rewrite bool_decide_eq_false_2 by discriminate. cbn [negb].
      by rewrite (bind_Ok _ _ _ _ _ (queueReplacement_global f this s id Null w1 Hs1 Hg)). }
  assert (Hs2 : sessions (upd_session this
                   (fun s => set_replacements (<[id := Null]> (replacements s)) (set_dirty true s))
                   w1) !! this
                = Some (set_replacements (<[id := Null]> (replacements s)) (set_dirty true s)))
    by (by rewrite sessions_upd_eq, Hs1).
  rewrite (bind_Ok _ _ _ _ _ (conditionalCleanup_off E _ _ _ _ Hs2 Ha)).
  eexists _, _. split; [reflexivity|]. split; [exact Hs2|].
  split; [apply lookup_insert_eq|done].
Qed.

(** The expression of statement [b] and the text [;], on the session
    over [a; b; c] with [autoCleanup] assigned [false]. *)
Lemma replace_queues_null_for_wrong_category_witness :
  exists w' s',
    replace Demo.externals 4 0 (SelNode (Ref 6)) (ReplSource ";") ReplaceRuns.manual_world
      = Ok 1 w'
    /\ sessions w' !! 0 = Some s'
    /\ replacements s' !! 6 = Some Null /\ dirty s' = true.
Proof.
  apply (replace_queues_null_for_wrong_category Demo.externals 3 0 6
           (fst ReplaceRuns.parsed) 10 ReplaceRuns.manual_session ";" (snd ReplaceRuns.parsed)
           (Demo.script [Ref 10]) (MkNode "EmptyStatement" []) [] ReplaceRuns.manual_world).
  - vm_compute. reflexivity.
  - reflexivity.
  - reflexivity.
  - vm_compute. reflexivity.
  - vm_compute. reflexivity.
  - reflexivity.
  - vm_compute. reflexivity.
  - discriminate.
  - vm_compute. reflexivity.
Defined.

(** With [autoCleanup] on, the same call commits the queued [null]: the
    expression statement ends with [null] as its expression. *)
Lemma replace_by_statement_text_nulls_the_target :
  exists w', ReplaceRuns.replace_by_statement_text = Ok 1 w'
    /\ heap w' !! 3 = Some (MkNode "ExpressionStatement" [("expression", PNode Null)]).
Proof. eexists. split; vm_compute; reflexivity. Qed.

(** The sibling path: the same text handed back by a replacer function
    is refused with a [RefactorError] (by [extractExpression], here as
    the spec describes it), and nothing is queued. *)
Lemma replace_by_function_throws :
  exists msg w' s', ReplaceRuns.replace_by_function = Throw (RefactorError msg) w'
    /\ sessions w' !! 0 = Some s' /\ replacements s' = ∅ /\ dirty s' = false.
Proof. eexists _, _, _. split; [vm_compute; reflexivity|]. split; vm_compute; done. Qed.

(* ===================================================================== *)
(** ** Walking a part of the tree that has nothing pending               *)
(* ===================================================================== *)

Section Quiet.
Context (E : Externals) (g : nat) (avoid : list nat).

Lemma keeps_declarators_sound h o w :
  heap w = h -> keeps_declarators avoid h o = true ->
  (if decide (ntype o = "VariableDeclarationStatement")
   then declaratorsEmpty o else mret false) w = Ok false w.
Proof.
  intros <-. unfold keeps_declarators. destruct (decide _); [|done].
  unfold declaratorsEmpty.
  destruct (get_prop "declaration" (props o)) as [[|[| |d]|]|]; try done.
  intros [_ H]%andb_prop.
  destruct (heap w !! d) as [dobj|] eqn:Hd; [|done].
  rewrite (bind_Ok _ _ _ _ _ (deref_Ok _ _ _ Hd)).
  destruct (get_prop "declarators" (props dobj)) as [[| |[|? ?]]|]; done.
Qed.

(** On a node with nothing pending the callback does nothing. *)
Lemma cleanup_leave_quiet id o parent w :
  heap w !! id = Some o -> keeps_declarators avoid (heap w) o = true ->
  id ∉ avoid -> calm g avoid w ->
  cleanup_leave E g (Ref id) parent w = Ok (Undefined, false) w.
Proof.
  intros Ho Hk Hid (s & Hs & Hcalm). destruct (Hcalm id Hid) as (Hr & Hi & Hd).
  unfold cleanup_leave.
  rewrite (bind_Ok _ _ _ _ _ (deref_Ok _ _ _ Ho)).
  rewrite (bind_Ok _ _ _ _ _ (keeps_declarators_sound _ o w eq_refl Hk)).
  rewrite (bind_Ok _ _ _ _ _ (get_session_Ok _ _ _ Hs)). rewrite Hr, Hi.
  rewrite (bind_Ok _ _ _ tt w eq_refl).
  rewrite (bind_Ok _ _ _ _ _ (get_session_Ok _ _ _ Hs)).
  by rewrite decide_False.
Qed.

Lemma run_step m m' fuel :
  Traverser.worklist m <> [] ->
  Traverser.step E (cleanup_leave E g) m = Ok tt m' ->
  Traverser.run E (cleanup_leave E g) (S fuel) m = Traverser.run E (cleanup_leave E g) fuel m'.
Proof.
  intros Hwl Hstep. cbn [Traverser.run]. destruct (Traverser.worklist m); [done|].
  by rewrite (bind_Ok _ _ _ _ _ Hstep).
Qed.

(** Walking quiet elements takes them off the work list and changes
    nothing else. *)
Lemma run_quiet d w :
  calm g avoid w ->
  (forall r slot wl pe ll outer,
      quiet E avoid (heap w) d r = true ->
      exists k, forall fuel,
        Traverser.run E (cleanup_leave E g) (k + fuel)
          (Traverser.MkMachine w (Traverser.Work (Traverser.MkElement r slot) :: wl) (pe :: ll) outer)
        = Traverser.run E (cleanup_leave E g) fuel (Traverser.MkMachine w wl (pe :: ll) outer))
  /\ (forall items wl pe ll outer,
      quiet_items E avoid (heap w) d items = true ->
      exists k, forall fuel,
        Traverser.run E (cleanup_leave E g) (k + fuel)
          (Traverser.MkMachine w (items ++ wl) (pe :: ll) outer)
        = Traverser.run E (cleanup_leave E g) fuel (Traverser.MkMachine w wl (pe :: ll) outer)).
Proof.
  intros Hcalm. induction d as [|d [IHnode IHitems]].
  - split; [done|].
    intros items wl pe ll outer Hq. destruct items as [|[|e] items]; [|done|done].
    exists 0. done.
  - assert (Hnode : forall r slot wl pe ll outer,
      quiet E avoid (heap w) (S d) r = true ->
      exists k, forall fuel,
        Traverser.run E (cleanup_leave E g) (k + fuel)
          (Traverser.MkMachine w (Traverser.Work (Traverser.MkElement r slot) :: wl) (pe :: ll) outer)
        = Traverser.run E (cleanup_leave E g) fuel (Traverser.MkMachine w wl (pe :: ll) outer)).
    { intros r slot wl pe ll outer Hq. cbn [quiet] in Hq.
      destruct r as [| |id]; try done.
      destruct (heap w !! id) as [o|] eqn:Ho; [|done].
      apply andb_prop in Hq as [[Hav Hk]%andb_prop Hq].
      apply bool_decide_eq_true in Hav.
      destruct (keys E (ntype o)) as [ks|] eqn:Hks; [|done].
      destruct (IHitems (Traverser.child_elements id o ks) (Traverser.Sentinel :: wl)
                  (Traverser.MkElement (Ref id) slot) (pe :: ll) outer Hq) as (k & Hk').
      exists (S (k + 1)). intros fuel.
      cbn [Nat.add]. erewrite run_step; [| done |].
      2:{ unfold Traverser.step. cbn. rewrite Ho, Hks. reflexivity. }
      rewrite <- Nat.add_assoc. rewrite Hk'. cbn [Nat.add].
      erewrite run_step; [reflexivity | done |].
      unfold Traverser.step. cbn.
      rewrite (cleanup_leave_quiet id o _ w Ho Hk Hav Hcalm). cbn.
      reflexivity. }
    split; [exact Hnode|].
    intros items. induction items as [|[|e] items IH]; intros wl pe ll outer Hq.
    + exists 0. done.
    + done.
    + cbn in Hq. apply andb_prop in Hq as [Hq1 Hq2].
      destruct e as [r slot].
      destruct (Hnode r slot (items ++ wl)%list pe ll outer Hq1) as (k1 & Hk1).
      destruct (IH wl pe ll outer Hq2) as (k2 & Hk2).
      exists (k1 + k2). intros fuel. rewrite <- Nat.add_assoc. cbn [app].
      rewrite Hk1. apply Hk2.
Qed.
End Quiet.

Section Frame.
Context (E : Externals) (avoid : list nat).

Lemma keeps_declarators_frame h h' o :
  (forall id, id ∉ avoid -> h' !! id = h !! id) ->
  keeps_declarators avoid h o = true -> keeps_declarators avoid h' o = true.
Proof.
  intros Hag. unfold keeps_declarators. destruct (decide _); [|done].
  destruct (get_prop "declaration" (props o)) as [[|[| |d]|]|]; try done.
  intros [Hd H]%andb_prop. rewrite Hd. cbn [andb].
  apply bool_decide_eq_true in Hd. by rewrite (Hag d Hd).
Qed.

(** [quiet] only reads objects outside [avoid]. *)
Lemma quiet_frame h h' d r :
  (forall id, id ∉ avoid -> h' !! id = h !! id) ->
  quiet E avoid h d r = true -> quiet E avoid h' d r = true.
Proof.
  intros Hag. revert r. induction d as [|d IH]; intros r; [done|].
  cbn [quiet]. destruct r as [| |id]; try done.
  destruct (decide (id ∈ avoid)) as [Hin|Hnin].
  { destruct (h !! id); [|done]. rewrite bool_decide_eq_false_2; [done|]. by intros H. }
  rewrite (Hag id Hnin). destruct (h !! id) as [o|]; [|done].
  intros [[Hav Hk]%andb_prop Hq]%andb_prop. rewrite Hav.
  rewrite (keeps_declarators_frame h h' o Hag Hk). cbn [andb].
  destruct (keys E (ntype o)) as [ks|]; [|done].
  revert Hq. generalize (Traverser.child_elements id o ks). intros items.
  induction items as [|[|e] items IHi]; cbn; try done.
  intros [H1 H2]%andb_prop. rewrite (IH _ H1). cbn. by apply IHi.
Qed.

Lemma quiet_items_frame h h' d items :
  (forall id, id ∉ avoid -> h' !! id = h !! id) ->
  quiet_items E avoid h d items = true -> quiet_items E avoid h' d items = true.
Proof.
  intros Hag. unfold quiet_items.
  induction items as [|[|e] items IHi]; cbn; try done.
  intros [H1 H2]%andb_prop. rewrite (quiet_frame h h' d _ Hag H1). cbn. by apply IHi.
Qed.

Lemma quiet_not_avoided h d id : quiet E avoid h d (Ref id) = true -> id ∉ avoid.
Proof.
  destruct d as [|d]; [done|]. cbn [quiet]. destruct (h !! id); [|done].
  intros [[Hav _]%andb_prop _]%andb_prop. by apply bool_decide_eq_true in Hav.
Qed.
End Frame.

Section Insertion.
Context (E : Externals) (g : nat).

(** The callback on an anchor whose parent has a statement list: the
    queued statement is spliced into the parent's list, and the entry
    is taken out of the insertion map. *)
Lemma cleanup_leave_inserts avoid b bo p po l s ins w :
  heap w !! b = Some bo -> keeps_declarators avoid (heap w) bo = true ->
  isStatementType E (ntype bo) = true ->
  heap w !! p = Some po -> get_prop "statements" (props po) = Some (PArr l) ->
  sessions w !! g = Some s ->
  replacements s !! b = None -> insertions s !! b = Some ins -> b ∉ deletions s ->
  cleanup_leave E g (Ref b) (Ref p) w
  = Ok (Undefined, false)
      (add_log (AppliedInsertion b)
         (upd_session g (fun s => set_insertions (base.delete b (insertions s)) s)
            (set_heap
               (<[p := with_prop "statements"
                         (PArr (splice_insert
                                  (if after ins then (indexOf (Ref b) l + 1)%Z
                                   else indexOf (Ref b) l)
                                  (statement ins) l)) po]> (heap w)) w))).
Proof.
  intros Hb Hk Hst Hp Hl Hs Hr Hi Hd. unfold cleanup_leave.
  rewrite (bind_Ok _ _ _ _ _ (deref_Ok _ _ _ Hb)).
  rewrite (bind_Ok _ _ _ _ _ (keeps_declarators_sound avoid _ bo w eq_refl Hk)).
  rewrite (bind_Ok _ _ _ _ _ (get_session_Ok _ _ _ Hs)). rewrite Hr, Hi.
  match goal with |- (?m ≫= ?k) w = Ok ?res ?w1 =>
    rewrite (bind_Ok m k w tt w1)
  end.
  - assert (Hs1 : forall h F e, sessions (add_log e (upd_session g F (set_heap h w))) !! g = Some (F s)).
    { intros h F e. cbn. by rewrite lookup_alter_eq, Hs. }
    rewrite (bind_Ok _ _ _ _ _ (get_session_Ok _ _ _ (Hs1 _ _ _))).
    cbn [deletions set_insertions]. by rewrite decide_False.
  - unfold get_state at 1. unfold mbind at 1, St_bind at 1.
    unfold isStatement. rewrite Hb, Hst.
    rewrite (bind_Ok _ _ _ _ _ (deref_Ok _ _ _ Hp)).
    unfold has_prop. rewrite Hl. rewrite bool_decide_eq_true_2 by eauto.
    reflexivity.
Qed.
End Insertion.

Lemma reaches_trans E g m1 m2 m3 : reaches E g m1 m2 -> reaches E g m2 m3 -> reaches E g m1 m3.
Proof.
  intros (k1 & H1) (k2 & H2). exists (k1 + k2). intros fuel.
  rewrite <- Nat.add_assoc. rewrite H1. apply H2.
Qed.

Lemma reaches_step E g m m' :
  Traverser.worklist m <> [] -> Traverser.step E (cleanup_leave E g) m = Ok tt m' ->
  reaches E g m m'.
Proof. intros Hwl Hstep. exists 1. intros fuel. by apply run_step. Qed.

Lemma child_elements_app id o ks1 k ks2 :
  Traverser.child_elements id o (ks1 ++ k :: ks2)%list
  = (Traverser.child_elements id o ks1 ++ Traverser.child_elements id o [k]
      ++ Traverser.child_elements id o ks2)%list.
Proof.
  unfold Traverser.child_elements. rewrite flat_map_app. cbn [flat_map].
  by rewrite app_nil_r.
Qed.

Section InsertWalk.
Context (E : Externals) (g p a b c : nat) (ins : Insertion) (po bo : NodeObj)
  (ks1 ks2 kb : list string) (d : nat) (w0 : World) (s0 : Session).
Hypothesis Hs0 : sessions w0 !! g = Some s0.
Hypothesis Hrep : replacements s0 = ∅.
Hypothesis Hdel : deletions s0 = ∅.
Hypothesis Hins : insertions s0 = {[b := ins]}.
Hypothesis Hp : heap w0 !! p = Some po.
Hypothesis Hpty : ntype po <> "VariableDeclarationStatement".
Hypothesis Hks : keys E (ntype po) = Some (ks1 ++ "statements" :: ks2)%list.
Hypothesis Hst : get_prop "statements" (props po) = Some (PArr [Ref a; Ref b; Ref c]).
Hypothesis Hq1 :
  quiet_items E [p; b] (heap w0) d (Traverser.child_elements p po ks1) = true.
Hypothesis Hq2 :
  quiet_items E [p; b] (heap w0) d (Traverser.child_elements p po ks2) = true.
Hypothesis Hqa : quiet E [p; b] (heap w0) d (Ref a) = true.
Hypothesis Hqc : quiet E [p; b] (heap w0) d (Ref c) = true.
Hypothesis Hb : heap w0 !! b = Some bo.
Hypothesis Hkb : keys E (ntype bo) = Some kb.
Hypothesis Hbk : keeps_declarators [p; b] (heap w0) bo = true.
Hypothesis Hqb :
  quiet_items E [p; b] (heap w0) d (Traverser.child_elements b bo kb) = true.
Hypothesis Hbst : isStatementType E (ntype bo) = true.

Lemma calm_before : calm g [p; b] w0.
Proof.
  exists s0. split; [done|]. intros id Hid. rewrite Hrep, Hdel, Hins.
  split; [done|]. split; [|set_solver].
  apply lookup_singleton_ne. intros ->. apply Hid. set_solver.
Qed.

Lemma calm_after avoid : calm g avoid (inserted_world g p a b c ins po w0).
Proof.
  eexists. split; [cbn; by rewrite lookup_alter_eq, Hs0|].
  intros id _. cbn. rewrite Hrep, Hdel, Hins.
  split; [done|]. split; [|set_solver].
  by rewrite delete_singleton_eq.
Qed.

Lemma heap_after id :
  id ∉ [p; b] -> heap (inserted_world g p a b c ins po w0) !! id = heap w0 !! id.
Proof.
  intros Hid. cbn. rewrite lookup_insert_ne; [done|]. intros ->. apply Hid. set_solver.
Qed.

Lemma anchor_index : a <> b.
Proof.
  intros ->. apply (quiet_not_avoided E [p; b]) in Hqa. apply Hqa. set_solver.
Qed.

Lemma walk_inserts :
  exists K, forall fuel,
    Traverser.replace E (cleanup_leave E g) (Ref p) (K + fuel) w0
    = Ok (Ref p) (inserted_world g p a b c ins po w0).
Proof.
  set (pe := Traverser.MkElement (Ref p) Traverser.RootSlot).
  set (be := Traverser.MkElement (Ref b) (Traverser.ArrSlot p "statements" 1)).
  set (I1 := Traverser.child_elements p po ks1).
  set (I2 := Traverser.child_elements p po ks2).
  set (Wa := Traverser.Work (Traverser.MkElement (Ref a) (Traverser.ArrSlot p "statements" 0))).
  set (Wc := Traverser.Work (Traverser.MkElement (Ref c) (Traverser.ArrSlot p "statements" 2))).
  pose proof calm_before as Hcalm.
  destruct (run_quiet E g [p; b] d w0 Hcalm) as [Hnode Hitems].
  pose proof (calm_after [p; b]) as Hcalm1.
  destruct (run_quiet E g [p; b] d (inserted_world g p a b c ins po w0) Hcalm1) as [Hnode1 Hitems1].
  assert (Hreach : reaches E g
            (Traverser.MkMachine w0 [Traverser.Work pe] [pe] (Ref p))
            (Traverser.MkMachine (inserted_world g p a b c ins po w0) [] [pe] (Ref p))).
  { (* enter p *)
    eapply reaches_trans.
    { apply reaches_step; [done|]. unfold Traverser.step. cbn. rewrite Hp, Hks.
      rewrite child_elements_app. reflexivity. }
    fold I1 I2. unfold Traverser.child_elements at 1. cbn [flat_map]. rewrite Hst.
    cbn [Traverser.array_elements imap omap list_omap truthy app]. cbn. fold Wa Wc be.
    (* the keys before [statements] *)
    eapply reaches_trans.
    { rewrite <- app_assoc. apply (Hitems I1 _ pe [pe] (Ref p) Hq1). }
    (* a *)
    eapply reaches_trans.
    { cbn [app]. apply (Hnode (Ref a) _ _ pe [pe] (Ref p) Hqa). }
    (* enter b *)
    eapply reaches_trans.
    { apply reaches_step; [done|]. unfold Traverser.step. cbn. rewrite Hb, Hkb. reflexivity. }
    (* the children of b *)
    eapply reaches_trans.
    { apply (Hitems _ _ be [pe; pe] (Ref p) Hqb). }
    (* leave b *)
    assert (Hw1 : add_log (AppliedInsertion b)
             (upd_session g (fun s => set_insertions (base.delete b (insertions s)) s)
                (set_heap
                   (<[p := with_prop "statements"
                             (PArr (splice_insert
                                      (if after ins
                                       then (indexOf (Ref b) [Ref a; Ref b; Ref c] + 1)%Z
                                       else indexOf (Ref b) [Ref a; Ref b; Ref c])
                                      (statement ins) [Ref a; Ref b; Ref c])) po]> (heap w0)) w0))
             = (inserted_world g p a b c ins po w0)).
    { unfold inserted_world, spliced. pose proof anchor_index as Hab.
      cbn [indexOf]. rewrite decide_False by (intros H; inversion H; done).
      rewrite decide_True by done. cbn. by destruct (after ins). }
    eapply reaches_trans.
    { apply reaches_step; [done|]. unfold Traverser.step. cbn.
      rewrite (cleanup_leave_inserts E g [p; b] b bo p po [Ref a; Ref b; Ref c] s0 ins w0
                 Hb Hbk Hbst Hp Hst Hs0).
      - rewrite Hw1. reflexivity.
      - by rewrite Hrep.
      - rewrite Hins. apply lookup_singleton_eq.
      - rewrite Hdel. set_solver. }
    (* c *)
    eapply reaches_trans.
    { apply (Hnode1 (Ref c) _ _ pe [pe] (Ref p)).
      apply (quiet_frame E [p; b] (heap w0)); [apply heap_after|done]. }
    (* the keys after [statements] *)
    eapply reaches_trans.
    { apply (Hitems1 I2 _ pe [pe] (Ref p)).
      apply (quiet_items_frame E [p; b] (heap w0)); [apply heap_after|done]. }
    (* leave p *)
    apply reaches_step; [done|]. unfold Traverser.step. cbn [Traverser.worklist Traverser.leavelist].
    rewrite (cleanup_leave_quiet E g [] p (with_prop "statements" (PArr (spliced a b c ins)) po) _
               (inserted_world g p a b c ins po w0)).
    - cbn. reflexivity.
    - cbn. apply lookup_insert_eq.
    - unfold keeps_declarators. cbn [ntype with_prop]. by rewrite decide_False.
    - set_solver.
    - apply calm_after. }
  destruct Hreach as (K & HK). exists K. intros fuel.
  unfold Traverser.replace. fold pe. rewrite HK.
  destruct fuel; reflexivity.
Qed.
End InsertWalk.

Lemma set_heap_id w : set_heap (heap w) w = w.
Proof. by destruct w. Qed.

Lemma bind_get_state {S B} (k : S -> St S B) s : (get_state ≫= k) s = k s s.
Proof. reflexivity. Qed.

Section InsertApi.
Context (E : Externals).

(** [cleanup] on a dirty global session, given the outcome of the walk
    over its roots. *)
Lemma cleanup_run f g s w result w1 s1 :
  sessions w !! g = Some s -> globalSession s = g -> dirty s = true ->
  mapSt (fun node => Traverser.replace E (cleanup_leave E g) node f) (nodes s) w = Ok result w1 ->
  sessions w1 !! g = Some s1 -> nodes s1 = nodes s ->
  cleanup E (S f) g w = Ok g (upd_session g (after_walk E (nodes s) result (heap w1)) w1).
Proof.
  intros Hs Hg Hd Hmap Hs1 Hn. cbn [cleanup].
  rewrite (bind_Ok _ _ _ _ _ (get_session_Ok _ _ _ Hs)).
  rewrite decide_False by (intros H; by apply H).
  rewrite (bind_Ok _ _ _ _ _ (isDirty_get _ _ _ Hs)). rewrite Hd. cbn [negb].
  rewrite (bind_Ok _ _ _ _ _ Hmap).
  assert (Ha : forall F, sessions (upd_session g F w1) !! g = Some (F s1)).
  { intros F. by rewrite sessions_upd_eq, Hs1. }
  rewrite bind_modify.
  rewrite (bind_Ok _ _ _ _ _ (rebuildParentMap_eq _ _ _ _ (Ha _))).
  rewrite upd_session_compose.
  rewrite (bind_Ok _ _ _ _ _ (isDirty_set _ _ _ false (Ha _))).
  rewrite upd_session_compose. rewrite bind_modify. rewrite upd_session_compose.
  unfold mret, St_ret, after_walk. cbn [heap upd_session set_sessions nodes set_lookupTable].
  by rewrite Hn.
Qed.

Lemma cleanup_clean f g s w :
  sessions w !! g = Some s -> globalSession s = g -> dirty s = false ->
  cleanup E (S f) g w = Ok g w.
Proof.
  intros Hs Hg Hd. cbn [cleanup].
  rewrite (bind_Ok _ _ _ _ _ (get_session_Ok _ _ _ Hs)).
  rewrite decide_False by (intros H; by apply H).
  rewrite (bind_Ok _ _ _ _ _ (isDirty_get _ _ _ Hs)). by rewrite Hd.
Qed.

(** [insert] on the global session, for one anchor and a replacer
    function that hands back the node [x]: the insertion is queued,
    and then [conditionalCleanup] runs. *)
Lemma insert_queues f g s b bo x xo fn aft w :
  sessions w !! g = Some s -> globalSession s = g ->
  heap w !! b = Some bo -> isStatementType E (ntype bo) = true ->
  heap w !! x = Some xo -> isStatementType E (ntype xo) = true ->
  (forall h, fn (Ref b) h = Ok (RvNode x) h) ->
  insert E (S f) g (SelNode (Ref b)) (ReplFun fn) aft w
  = conditionalCleanup E f g
      (upd_session g (fun s => set_insertions (<[b := MkInsertion aft (Ref x)]> (insertions s))
                                 (set_dirty true s)) w).
Proof.
  intros Hs Hg Hb Hbst Hx Hxst Hfn. cbn [insert].
  rewrite (bind_Ok _ _ _ _ _ (get_session_Ok _ _ _ Hs)).
  rewrite decide_False by (intros H; by apply H).
  rewrite bind_get_state. cbn [findNodes insert_each].
  set (wq := upd_session g (fun s => set_insertions (<[b := MkInsertion aft (Ref x)]> (insertions s))
                                       (set_dirty true s)) w).
  rewrite (bind_Ok _ _ w tt wq); [done|].
  rewrite (bind_Ok _ _ w Null wq); [done|].
  unfold insert_one. rewrite bind_get_state.
  unfold isStatement at 1. rewrite Hb, Hbst. cbn [negb].
  rewrite (bind_Ok _ _ _ _ _ (isDirty_set _ _ _ true Hs)).
  assert (Hget : forall w', getInsertion E Null (ReplFun fn) (Ref b) w' = Ok (Ref x, Null) w').
  { intros w'. unfold getInsertion, on_heap. unfold mbind at 1, St_bind at 1.
    rewrite Hfn. by rewrite set_heap_id. }
  rewrite (bind_Ok _ _ _ _ _ (Hget _)).
  rewrite bind_get_state.
  unfold isStatement at 1. cbn [heap upd_session set_sessions]. rewrite Hx, Hxst. cbn [negb].
  rewrite (bind_Ok _ _ _ _ _ (Hget _)).
  rewrite bind_modify. unfold wq. by rewrite upd_session_compose.
Qed.
End InsertApi.

Section InsertThenCommit.
Context (E : Externals) (g p a b c x : nat) (po bo xo : NodeObj)
  (ks1 ks2 kb : list string) (d : nat) (fn : NodeRef -> St Heap ReplacerResult)
  (w : World) (s : Session).
Hypothesis Hs : sessions w !! g = Some s.
Hypothesis Hg : globalSession s = g.
Hypothesis Hnodes : nodes s = [Ref p].
Hypothesis Hrep : replacements s = ∅.
Hypothesis Hdel : deletions s = ∅.
Hypothesis Hins : insertions s = ∅.
Hypothesis Hp : heap w !! p = Some po.
Hypothesis Hpty : ntype po <> "VariableDeclarationStatement".
Hypothesis Hks : keys E (ntype po) = Some (ks1 ++ "statements" :: ks2)%list.
Hypothesis Hst : get_prop "statements" (props po) = Some (PArr [Ref a; Ref b; Ref c]).
Hypothesis Hq1 : quiet_items E [p; b] (heap w) d (Traverser.child_elements p po ks1) = true.
Hypothesis Hq2 : quiet_items E [p; b] (heap w) d (Traverser.child_elements p po ks2) = true.
Hypothesis Hqa : quiet E [p; b] (heap w) d (Ref a) = true.
Hypothesis Hqc : quiet E [p; b] (heap w) d (Ref c) = true.
Hypothesis Hb : heap w !! b = Some bo.
Hypothesis Hkb : keys E (ntype bo) = Some kb.
Hypothesis Hbk : keeps_declarators [p; b] (heap w) bo = true.
Hypothesis Hqb : quiet_items E [p; b] (heap w) d (Traverser.child_elements b bo kb) = true.
Hypothesis Hbst : isStatementType E (ntype bo) = true.
Hypothesis Hx : heap w !! x = Some xo.
Hypothesis Hxst : isStatementType E (ntype xo) = true.
Hypothesis Hfn : forall h, fn (Ref b) h = Ok (RvNode x) h.

Lemma insert_then_commit aft :
  exists K, forall fuel, K <= fuel ->
    exists w' s',
      (insert E fuel g (SelNode (Ref b)) (ReplFun fn) aft;; cleanup E fuel g) w = Ok g w'
      /\ heap w' !! p
         = Some (with_prop "statements" (PArr (spliced a b c (MkInsertion aft (Ref x)))) po)
      /\ sessions w' !! g = Some s' /\ dirty s' = false /\ insertions s' = ∅
      /\ nodes s' = [Ref p].
Proof.
  set (ins := MkInsertion aft (Ref x)).
  set (wq := upd_session g (fun s => set_insertions (<[b := ins]> (insertions s))
                                       (set_dirty true s)) w).
  set (sq := set_insertions (<[b := ins]> (insertions s)) (set_dirty true s)).
  assert (Hsq : sessions wq !! g = Some sq) by (unfold wq; by rewrite sessions_upd_eq, Hs).
  assert (Hiq : insertions sq = {[b := ins]}).
  { unfold sq. cbn. rewrite Hins. apply insert_empty. }
  destruct (walk_inserts E g p a b c ins po bo ks1 ks2 kb d wq sq Hsq Hrep Hdel Hiq
              Hp Hpty Hks Hst Hq1 Hq2 Hqa Hqc Hb Hkb Hbk Hqb Hbst) as (K1 & Hwalk).
  set (w1 := inserted_world g p a b c ins po wq) in *.
  set (wfin := upd_session g (after_walk E [Ref p] [Ref p] (heap w1)) w1).
  assert (Hs1 : sessions w1 !! g = Some (set_insertions (base.delete b (insertions sq)) sq)).
  { unfold w1, inserted_world, add_log. cbn [sessions]. rewrite sessions_upd_eq.
    cbn [sessions set_heap]. by rewrite Hsq. }
  assert (Hcommit : forall f', cleanup E (S (K1 + f')) g wq = Ok g wfin).
  { intros f'.
    rewrite (cleanup_run E (K1 + f') g sq wq [Ref p] w1
               (set_insertions (base.delete b (insertions sq)) sq) Hsq Hg eq_refl).
    - unfold wfin. cbn [nodes sq set_insertions set_dirty]. by rewrite Hnodes.
    - cbn [nodes sq set_insertions set_dirty]. rewrite Hnodes. cbn [mapSt].
      rewrite (bind_Ok _ _ _ _ _ (Hwalk f')). reflexivity.
    - exact Hs1.
    - reflexivity. }
  assert (Hsfin : sessions wfin !! g
                  = Some (after_walk E [Ref p] [Ref p] (heap w1)
                            (set_insertions (base.delete b (insertions sq)) sq))).
  { unfold wfin. by rewrite sessions_upd_eq, Hs1. }
  exists (K1 + 2). intros fuel Hfuel.
  destruct (Nat.le_exists_sub _ _ Hfuel) as (f' & -> & _).
  replace (f' + (K1 + 2)) with (S (S (K1 + f'))) by lia.
  exists wfin. eexists. split; [|split; [|split; [exact Hsfin|]]].
  - assert (Hq : insert E (S (S (K1 + f'))) g (SelNode (Ref b)) (ReplFun fn) aft w
                 = conditionalCleanup E (S (K1 + f')) g wq).
    { apply (insert_queues E _ g s b bo x xo fn aft w Hs Hg Hb Hbst Hx Hxst Hfn). }
    destruct (autoCleanup s) eqn:Hauto.
    + rewrite (bind_Ok _ _ w g wfin).
      * apply (cleanup_clean E _ g _ _ Hsfin); [exact Hg|reflexivity].
      * rewrite Hq. unfold conditionalCleanup.
        rewrite (bind_Ok _ _ _ _ _ (get_session_Ok _ _ _ Hsq)).
        cbn [autoCleanup sq set_insertions set_dirty]. rewrite Hauto.
        rewrite (bind_Ok _ _ _ _ _ (Hcommit f')). reflexivity.
    + rewrite (bind_Ok _ _ w g wq).
      * replace (S (S (K1 + f'))) with (S (K1 + S f')) by lia. apply Hcommit.
      * rewrite Hq. unfold conditionalCleanup.
        rewrite (bind_Ok _ _ _ _ _ (get_session_Ok _ _ _ Hsq)).
        cbn [autoCleanup sq set_insertions set_dirty]. by rewrite Hauto.
  - unfold wfin, w1, inserted_world. cbn [heap upd_session set_sessions add_log set_heap].
    by rewrite lookup_insert_eq.
  - cbn [dirty insertions nodes after_walk compose set_nodes set_dirty set_parentMap
           set_lookupTable set_insertions sq].
    rewrite Hins. split; [done|]. split; [|done].
    rewrite delete_insert_eq. apply delete_empty.
Qed.
End InsertThenCommit.

(** C7.  A tree whose root [p] holds the statement list [a; b; c],
    with distinct node identities, no variable declaration statement
    without declarators and nothing else pending, under a global
    session.  Queueing the insertion of statement [x] after the anchor
    [b] ([append] with a replacer that hands back [x]) and committing
    yields the list [a; b; x; c]; queueing it before [b] ([prepend]) and
    committing yields [a; x; b; c].  The anchor [b] stays in the list in
    both cases.  Enough fuel gives the result. *)
Theorem insertion_ordering (E : Externals) (g p a b c x : nat) (po bo xo : NodeObj)
    (ks1 ks2 kb : list string) (d : nat) (fn : NodeRef -> St Heap ReplacerResult)
    (w : World) (s : Session) :
  sessions w !! g = Some s -> globalSession s = g -> nodes s = [Ref p] ->
  replacements s = ∅ -> deletions s = ∅ -> insertions s = ∅ ->
  heap w !! p = Some po -> ntype po <> "VariableDeclarationStatement" ->
  keys E (ntype po) = Some (ks1 ++ "statements" :: ks2)%list ->
  get_prop "statements" (props po) = Some (PArr [Ref a; Ref b; Ref c]) ->
  quiet_items E [p; b] (heap w) d (Traverser.child_elements p po ks1) = true ->
  quiet_items E [p; b] (heap w) d (Traverser.child_elements p po ks2) = true ->
  quiet E [p; b] (heap w) d (Ref a) = true ->
  quiet E [p; b] (heap w) d (Ref c) = true ->
  heap w !! b = Some bo -> keys E (ntype bo) = Some kb ->
  keeps_declarators [p; b] (heap w) bo = true ->
  quiet_items E [p; b] (heap w) d (Traverser.child_elements b bo kb) = true ->
  isStatementType E (ntype bo) = true ->
  heap w !! x = Some xo -> isStatementType E (ntype xo) = true ->
  (forall h, fn (Ref b) h = Ok (RvNode x) h) ->
  exists K, forall fuel, K <= fuel ->
    exists w1 w2,
      (append E fuel g (SelNode (Ref b)) (ReplFun fn);; cleanup E fuel g) w = Ok g w1
      /\ heap w1 !! p = Some (with_prop "statements" (PArr [Ref a; Ref b; Ref x; Ref c]) po)
      /\ (prepend E fuel g (SelNode (Ref b)) (ReplFun fn);; cleanup E fuel g) w = Ok g w2
      /\ heap w2 !! p = Some (with_prop "statements" (PArr [Ref a; Ref x; Ref b; Ref c]) po).
Proof.
  intros Hs Hg Hnodes Hrep Hdel Hins Hp Hpty Hks Hst Hq1 Hq2 Hqa Hqc Hb Hkb Hbk Hqb Hbst
    Hx Hxst Hfn.
  destruct (insert_then_commit E g p a b c x po bo xo ks1 ks2 kb d fn w s Hs Hg Hnodes Hrep
              Hdel Hins Hp Hpty Hks Hst Hq1 Hq2 Hqa Hqc Hb Hkb Hbk Hqb Hbst Hx Hxst Hfn true)
    as (Ka & Hafter).
  destruct (insert_then_commit E g p a b c x po bo xo ks1 ks2 kb d fn w s Hs Hg Hnodes Hrep
              Hdel Hins Hp Hpty Hks Hst Hq1 Hq2 Hqa Hqc Hb Hkb Hbk Hqb Hbst Hx Hxst Hfn false)
    as (Kb & Hbefore).
  exists (Ka + Kb). intros fuel Hfuel.
  destruct (Hafter fuel) as (w1 & s1 & Hr1 & Hh1 & _); [lia|].
  destruct (Hbefore fuel) as (w2 & s2 & Hr2 & Hh2 & _); [lia|].
  exists w1, w2.
  assert (Hap : append E fuel g (SelNode (Ref b)) (ReplFun fn) w
                = insert E fuel g (SelNode (Ref b)) (ReplFun fn) true w).
  { unfold append. rewrite (bind_Ok _ _ _ _ _ (get_session_Ok _ _ _ Hs)). by rewrite Hg. }
  assert (Hpre : prepend E fuel g (SelNode (Ref b)) (ReplFun fn) w
                = insert E fuel g (SelNode (Ref b)) (ReplFun fn) false w).
  { unfold prepend. rewrite (bind_Ok _ _ _ _ _ (get_session_Ok _ _ _ Hs)). by rewrite Hg. }
  unfold mbind, St_bind in Hr1, Hr2 |- *. rewrite Hap, Hpre.
  split; [exact Hr1|]. split; [exact Hh1|]. split; [exact Hr2|]. exact Hh2.
Qed.

(** The script [a; b; c] and the statement [x]. *)
Lemma insertion_ordering_witness :
  exists K, forall fuel, K <= fuel ->
    exists w1 w2,
      (append Demo.externals fuel 0 (SelNode (Ref 3)) (ReplFun (fun _ h => Ok (RvNode 8) h));;
       cleanup Demo.externals fuel 0) DemoWorlds.root_world = Ok 0 w1
      /\ heap w1 !! 1
         = Some (with_prop "statements" (PArr [Ref 2; Ref 3; Ref 8; Ref 4])
                   (Demo.script [Ref 2; Ref 3; Ref 4]))
      /\ (prepend Demo.externals fuel 0 (SelNode (Ref 3)) (ReplFun (fun _ h => Ok (RvNode 8) h));;
          cleanup Demo.externals fuel 0) DemoWorlds.root_world = Ok 0 w2
      /\ heap w2 !! 1
         = Some (with_prop "statements" (PArr [Ref 2; Ref 8; Ref 3; Ref 4])
                   (Demo.script [Ref 2; Ref 3; Ref 4])).
Proof.
  apply (insertion_ordering Demo.externals 0 1 2 3 4 8 (Demo.script [Ref 2; Ref 3; Ref 4])
           (Demo.exprStatement 6) (Demo.exprStatement 9) ["directives"] [] ["expression"] 3
           (fun _ h => Ok (RvNode 8) h) DemoWorlds.root_world DemoWorlds.root_session).
  all: first [ vm_compute; reflexivity | intros H; vm_compute in H; discriminate H ].
Defined.

(** The callback returns the queued replacement of a node and does not
    remove the node, whether or not the node is in the deletion set. *)
Lemma cleanup_leave_replacement_first (E : Externals) (g id : nat) (o : NodeObj)
    (parent newNode : NodeRef) (s : Session) (w : World) :
  heap w !! id = Some o -> keeps_declarators [] (heap w) o = true ->
  sessions w !! g = Some s -> replacements s !! id = Some newNode ->
  cleanup_leave E g (Ref id) parent w
  = Ok (newNode, false)
      (add_log (AppliedReplacement id)
         (upd_session g (fun s => set_replacements (base.delete id (replacements s)) s) w)).
Proof.
  intros Ho Hk Hs Hr. unfold cleanup_leave.
  rewrite (bind_Ok _ _ _ _ _ (deref_Ok _ _ _ Ho)).
  rewrite (bind_Ok _ _ _ _ _ (keeps_declarators_sound [] _ o w eq_refl Hk)).
  rewrite (bind_Ok _ _ _ _ _ (get_session_Ok _ _ _ Hs)). rewrite Hr.
  reflexivity.
Qed.

(* ===================================================================== *)
(** ** More about the commit                                             *)
(* ===================================================================== *)

(** X1.  A second commit right after a commit does nothing: the first one
    leaves the session clean, and [cleanup] on a clean session returns
    at once. *)
Theorem cleanup_twice (E : Externals) (fuel this : nat) (w : World) (r : nat) (w' : World) :
  cleanup E fuel this w = Ok r w' ->
  forall f, cleanup E (S f) r w' = Ok r w'.
Proof.
  intros H f. apply cleanup_leaves_clean in H as (s' & Hs' & Hd & Hg).
  by apply (cleanup_clean E f r s').
Qed.

(** The commit of the queued replacement of [b] by [x], and a second commit. *)
Lemma cleanup_twice_witness :
  cleanup Demo.externals 3 0 CommitRuns.committed_world = Ok 0 CommitRuns.committed_world.
Proof.
  refine (cleanup_twice Demo.externals 50 0 CommitRuns.queued_world 0
            CommitRuns.committed_world _ 2).
  vm_compute. reflexivity.
Defined.

(** X2.  A commit writes to one session object only, the global session
    that runs it: the node list, the parent index and the scope tables
    of every other session (the subsessions) stay as they were. *)
Theorem cleanup_changes_one_session (E : Externals) (fuel this : nat) (w : World)
    (r : nat) (w' : World) :
  cleanup E fuel this w = Ok r w' ->
  forall i, i <> r -> sessions w' !! i = sessions w !! i.
Proof.
  intros H i Hi.
  apply cleanup_inv in H as (s & Hs & Hg & [(Hd & ->)|(Hd & f & w1 & result & Hmap & Hrel & ->)]).
  - done.
  - destruct Hrel as (evs & Hlog & Hoth & Hses).
    rewrite sessions_upd_ne by done. by apply Hoth.
Qed.

(** A deletion queued through the subsession for statement [b] and committed. *)
Lemma cleanup_changes_one_session_witness :
  sessions MoreRuns.sub_committed !! 1 = sessions MoreRuns.sub_queued !! 1.
Proof.
  refine (cleanup_changes_one_session Demo.externals 50 1 MoreRuns.sub_queued 0
            MoreRuns.sub_committed _ 1 _).
  - vm_compute. reflexivity.
  - discriminate.
Defined.

(** X3.  What a commit never assigns on the session that runs it: [_root]
    (also when the root node itself was replaced, so that the [root]
    getter still answers the old root), the deletion set, the
    [autoCleanup] flag, and the scope maps [scopeMap], [scopeOwnerMap]
    and [variables]. *)
Theorem cleanup_keeps_root_and_deletions (E : Externals) (fuel this : nat) (w : World)
    (r : nat) (w' : World) :
  cleanup E fuel this w = Ok r w' ->
  exists s s', sessions w !! r = Some s /\ sessions w' !! r = Some s'
    /\ _root s' = _root s /\ deletions s' = deletions s
    /\ autoCleanup s' = autoCleanup s /\ globalSession s' = globalSession s
    /\ scopeMap s' = scopeMap s /\ scopeOwnerMap s' = scopeOwnerMap s
    /\ variables s' = variables s
    /\ (truthy (_root s) = true -> forall f, root (S f) r w' = Ok (_root s) w').
Proof.
  intros H.
  apply cleanup_inv in H as (s & Hs & Hg & [(Hd & ->)|(Hd & f & w1 & result & Hmap & Hrel & ->)]).
  - exists s, s. repeat split; try done. intros Ht f. by apply root_own.
  - destruct Hrel as (evs & Hlog & Hoth & Hses).
    destruct (Hses s Hs) as (s1 & Hs1 & Heq1 & _).
    assert (Hs' : sessions (upd_session r (after_walk E (nodes s) result (heap w1)) w1) !! r
                  = Some (after_walk E (nodes s) result (heap w1) s1))
      by (by rewrite sessions_upd_eq, Hs1).
    exists s, (after_walk E (nodes s) result (heap w1) s1).
    split; [done|]. split; [done|].
    assert (Hroot' : _root (after_walk E (nodes s) result (heap w1) s1) = _root s)
      by (by rewrite Heq1).
    split; [done|]. rewrite Heq1 at 1 2 3 4 5 6. cbn.
    repeat split; try done.
    intros Ht f'. rewrite <- Hroot'. apply (root_own f' r _ _ Hs'). by rewrite Hroot'.
Qed.

(** The commit that replaces the root script by the second script. *)
Lemma cleanup_keeps_root_and_deletions_witness :
  exists s s', sessions MoreRuns.root_queued !! 0 = Some s
    /\ sessions MoreRuns.root_committed !! 0 = Some s'
    /\ _root s' = _root s /\ deletions s' = deletions s
    /\ autoCleanup s' = autoCleanup s /\ globalSession s' = globalSession s
    /\ scopeMap s' = scopeMap s /\ scopeOwnerMap s' = scopeOwnerMap s
    /\ variables s' = variables s
    /\ (truthy (_root s) = true ->
        forall f, root (S f) 0 MoreRuns.root_committed = Ok (_root s) MoreRuns.root_committed).
Proof.
  apply (cleanup_keeps_root_and_deletions Demo.externals 50 0 MoreRuns.root_queued 0
           MoreRuns.root_committed).
  vm_compute. reflexivity.
Defined.

(* ===================================================================== *)
(** ** The scope tables                                                  *)
(* ===================================================================== *)

Lemma recurse_fields_eq astNode variableList children s :
  recurse_fields (MkScope astNode variableList children) s
  = recurse_each children
      (foldl (note_variable (MkScope astNode variableList children))
         (set_scopeOwnerMap (<[astNode := MkScope astNode variableList children]>
                               (scopeOwnerMap s)) s) variableList).
Proof.
  cbn [recurse_fields]. unfold recurse_each.
  generalize (foldl (note_variable (MkScope astNode variableList children))
         (set_scopeOwnerMap (<[astNode := MkScope astNode variableList children]>
                               (scopeOwnerMap s)) s) variableList).
  induction children as [|c rest IH]; intros s0; [done|]. cbn. apply IH.
Qed.

Lemma forEach_note this sc l w :
  forEachSt (fun variable =>
     modify (upd_session this (fun s =>
       set_scopeMap (scopeMap_set variable sc (scopeMap s))
         (set_variables (variables_add variable (variables s)) s)))) l w
  = Ok tt (upd_session this (fun s => foldl (note_variable sc) s l) w).
Proof.
  revert w. induction l as [|v l IH]; intros w.
  - cbn. by rewrite upd_session_id.
  - cbn [forEachSt]. rewrite bind_modify. rewrite IH. by rewrite upd_session_compose.
Qed.

Lemma upd_session_ext this (F G : Session -> Session) w :
  (forall s, F s = G s) -> upd_session this F w = upd_session this G w.
Proof.
  intros H. unfold upd_session. f_equal. apply map_eq. intros i.
  destruct (decide (i = this)) as [->|Hne].
  - rewrite !lookup_alter_eq. destruct (sessions w !! this); cbn; [by rewrite H|done].
  - by rewrite !lookup_alter_ne.
Qed.

Lemma recurse_children_eq this children w :
  Forall (fun c => forall w, recurse this c w = Ok tt (upd_session this (recurse_fields c) w))
    children ->
  (fix each (l : list Scope) : St World unit :=
     match l with
     | [] => mret tt
     | c :: rest => recurse this c;; each rest
     end) children w
  = Ok tt (upd_session this (recurse_each children) w).
Proof.
  intros H. revert w. induction H as [|c rest Hc _ IH]; intros w.
  - unfold recurse_each. cbn. by rewrite upd_session_id.
  - unfold mbind, St_bind. rewrite Hc. unfold mbind, St_bind in IH. rewrite IH.
    by rewrite upd_session_compose.
Qed.

(** [recurse] is [recurse_fields] on the session object. *)
Lemma recurse_eq this sc w :
  recurse this sc w = Ok tt (upd_session this (recurse_fields sc) w).
Proof.
  revert w. induction sc as [astNode variableList children IH] using Scope_ind'. intros w.
  rewrite (upd_session_ext this _ _ w (recurse_fields_eq astNode variableList children)).
  cbn [recurse].
  rewrite bind_modify. unfold mbind at 1, St_bind at 1. rewrite forEach_note.
  rewrite (recurse_children_eq this children _ IH).
  by rewrite !upd_session_compose.
Qed.

Lemma within_trans a b top : within a b -> within b top -> within a top.
Proof.
  intros Hab Hb. induction Hb as [|astNode variableList children c Hc Hb IH]; [done|].
  by eapply within_child.
Qed.

(** [WeakMap.get] after [WeakMap.set]: the key is the identity of the
    object. *)
Lemma scopeMap_get_set u v sc m :
  scopeMap_get u (scopeMap_set v sc m)
  = if decide (vid u = vid v) then Some sc else scopeMap_get u m.
Proof.
  unfold scopeMap_get, scopeMap_set.
  destruct (decide (vid u = vid v)) as [->|Hne].
  - by rewrite lookup_insert_eq.
  - by rewrite lookup_insert_ne.
Qed.

Lemma variables_add_elem u v l : u ∈ variables_add v l -> u = v \/ u ∈ l.
Proof.
  unfold variables_add. destruct (decide (vid v ∈ vid <$> l)).
  - by right.
  - rewrite elem_of_app, list_elem_of_singleton. tauto.
Qed.

Lemma variables_add_keeps u v l : u ∈ l -> u ∈ variables_add v l.
Proof.
  intros H. unfold variables_add. destruct (decide (vid v ∈ vid <$> l)); [done|].
  apply elem_of_app. by left.
Qed.

Lemma variables_add_ids i v l :
  i ∈ vid <$> variables_add v l <-> i = vid v \/ i ∈ vid <$> l.
Proof.
  unfold variables_add. destruct (decide (vid v ∈ vid <$> l)) as [Hin|Hin].
  - split; [by right|]. intros [->|]; done.
  - rewrite fmap_app, elem_of_app. cbn. rewrite list_elem_of_singleton. tauto.
Qed.

Lemma variables_add_NoDup v l :
  NoDup (vid <$> l) -> NoDup (vid <$> variables_add v l).
Proof.
  intros H. unfold variables_add. destruct (decide (vid v ∈ vid <$> l)) as [Hin|Hin]; [done|].
  rewrite fmap_app. apply NoDup_app. split; [done|]. split; [|apply NoDup_singleton].
  intros x Hx Hx'. cbn in Hx'. apply list_elem_of_singleton in Hx' as ->. done.
Qed.

Section ScopeTables.
Context (top : Scope).

Lemma note_variable_ok sc s v :
  within sc top -> v ∈ scope_variableList sc ->
  tables_ok top s -> tables_ok top (note_variable sc s v).
Proof.
  intros Hsc Hv (Hnd & Hok & Hkeys). split; [|split].
  - cbn [note_variable variables set_scopeMap set_variables]. by apply variables_add_NoDup.
  - intros u Hu. unfold note_variable in Hu |- *.
    cbn [scopeMap variables set_scopeMap set_variables] in Hu |- *. rewrite scopeMap_get_set.
    apply variables_add_elem in Hu. split.
    + destruct Hu as [->|Hu]; [by exists sc|]. by apply Hok.
    + destruct (decide (vid u = vid v)) as [Heq|Hne].
      * exists sc. split; [done|]. split; [|done]. by exists v.
      * destruct Hu as [->|Hu]; [done|]. by apply Hok.
  - intros i Hi. unfold note_variable in Hi |- *.
    cbn [scopeMap variables set_scopeMap set_variables] in Hi |- *.
    apply variables_add_ids. unfold scopeMap_set in Hi.
    destruct (decide (i = vid v)) as [->|Hne]; [by left|].
    rewrite lookup_insert_ne in Hi by done. right. by apply Hkeys.
Qed.

Lemma note_variables_ok sc s l :
  within sc top -> l ⊆ scope_variableList sc ->
  tables_ok top s -> tables_ok top (foldl (note_variable sc) s l).
Proof.
  intros Hsc. revert s. induction l as [|v l IH]; intros s Hl Hok; [done|].
  cbn. apply IH.
  - intros x Hx. apply Hl. by right.
  - apply note_variable_ok; [done| |done]. apply Hl. by left.
Qed.

Lemma note_variables_keep sc s l u :
  u ∈ variables s -> u ∈ variables (foldl (note_variable sc) s l).
Proof.
  revert s. induction l as [|v l IH]; intros s Hu; cbn [foldl]; [done|].
  apply IH. cbn. by apply variables_add_keeps.
Qed.

Lemma note_variables_ids sc s l i :
  i ∈ vid <$> variables (foldl (note_variable sc) s l)
  <-> i ∈ vid <$> l \/ i ∈ vid <$> variables s.
Proof.
  revert s. induction l as [|v l IH]; intros s; cbn [foldl].
  - split; [by right|]. intros [H|H]; [by apply elem_of_nil in H|done].
  - rewrite IH. cbn. rewrite variables_add_ids, elem_of_cons. tauto.
Qed.

Lemma note_variables_owner sc s l :
  scopeOwnerMap (foldl (note_variable sc) s l) = scopeOwnerMap s.
Proof. revert s. induction l as [|v l IH]; intros s; cbn [foldl]; [done|]. by rewrite IH. Qed.

Lemma scope_effect_id : scope_effect top (fun s => s) (fun _ => False).
Proof.
  intros s. split; [done|]. split; [done|]. split; [done|]. split; done.
Qed.

Lemma variables_ids (l l' : list ScopeVariable) i :
  (forall v, v ∈ l -> v ∈ l') -> i ∈ vid <$> l -> i ∈ vid <$> l'.
Proof.
  intros H (v & -> & Hv)%list_elem_of_fmap. apply list_elem_of_fmap. exists v. auto.
Qed.

Lemma scope_effect_compose F G cF cG :
  scope_effect top F cF -> scope_effect top G cG ->
  scope_effect top (fun s => G (F s)) (fun sc => cF sc \/ cG sc).
Proof.
  intros HF HG s. destruct (HF s) as (F1 & F2 & F3 & F4 & F5).
  destruct (HG (F s)) as (G1 & G2 & G3 & G4 & G5).
  split; [auto|]. split; [auto|]. split.
  { intros sc' v [Hc|Hc] Hv; [|by eapply G3].
    eapply variables_ids; [exact G2|]. by eapply F3. }
  split; [auto|].
  intros sc' [Hc|Hc]; [by apply G4, F5 | by apply G5].
Qed.

Lemma scope_effect_covers F (c1 c2 : Scope -> Prop) :
  (forall sc, c2 sc -> c1 sc) -> (forall sc, c1 sc -> c2 sc) ->
  scope_effect top F c1 -> scope_effect top F c2.
Proof.
  intros H21 H12 HF s. destruct (HF s) as (F1 & F2 & F3 & F4 & F5).
  split; [done|]. split; [done|]. split; [intros sc' v Hc; apply F3; auto|].
  split; [done|]. intros sc' Hc. apply F5. auto.
Qed.

(** The first half of [recurse] on a scope of the tree: the entry of
    the owner map and the variables of the scope itself. *)
Lemma scope_effect_own astNode variableList children :
  let sc := MkScope astNode variableList children in
  within sc top ->
  scope_effect top
    (fun s => foldl (note_variable sc)
                (set_scopeOwnerMap (<[astNode := sc]> (scopeOwnerMap s)) s) variableList)
    (fun sc' => sc' = sc).
Proof.
  intros sc Hsc s.
  set (s1 := set_scopeOwnerMap (<[astNode := sc]> (scopeOwnerMap s)) s).
  split.
  { intros Hok. apply note_variables_ok; [done|done|]. exact Hok. }
  split. { intros v Hv. by apply note_variables_keep. }
  split.
  { intros sc' v -> Hv. apply note_variables_ids. left.
    apply list_elem_of_fmap. by exists v. }
  split.
  { intros a (sc0 & H0 & Ha & Hw). unfold owner_has. rewrite note_variables_owner.
    cbn. destruct (decide (a = astNode)) as [->|Hne].
    - exists sc. by rewrite lookup_insert_eq.
    - exists sc0. by rewrite lookup_insert_ne. }
  intros sc' ->. exists sc. rewrite note_variables_owner. cbn. by rewrite lookup_insert_eq.
Qed.

Lemma scope_effect_each children :
  Forall (fun c => scope_effect top (recurse_fields c) (fun sc' => within sc' c)) children ->
  scope_effect top (recurse_each children) (fun sc' => exists c, c ∈ children /\ within sc' c).
Proof.
  unfold recurse_each. induction 1 as [|c rest Hc _ IH].
  - eapply scope_effect_covers; [| |apply scope_effect_id]; cbn.
    + intros sc (c & Hc & _). by apply elem_of_nil in Hc.
    + done.
  - cbn [foldl].
    eapply scope_effect_covers; [| |exact (scope_effect_compose _ _ _ _ Hc IH)]; cbn.
    + intros sc (c' & [->|Hc']%elem_of_cons & Hw); [by left|]. right. by exists c'.
    + intros sc [Hw|(c' & Hc' & Hw)]; [exists c|exists c']; split; try done; by constructor.
Qed.

(** The effect of [recurse] on a scope of the tree. *)
Lemma recurse_fields_ok sc :
  within sc top -> scope_effect top (recurse_fields sc) (fun sc' => within sc' sc).
Proof.
  induction sc as [astNode variableList children IH] using Scope_ind'. intros Hsc.
  assert (Hch : Forall (fun c => scope_effect top (recurse_fields c) (fun sc' => within sc' c))
                  children).
  { apply Forall_forall. intros c Hc. rewrite Forall_forall in IH. apply IH; [done|].
    eapply within_trans; [|exact Hsc]. eapply within_child; [exact Hc|constructor]. }
  pose proof (scope_effect_compose _ _ _ _
                (scope_effect_own astNode variableList children Hsc)
                (scope_effect_each children Hch)) as Heff.
  intros s. rewrite recurse_fields_eq.
  refine (scope_effect_covers _ _ _ _ _ Heff s); cbn.
  - intros sc' Hw. inversion Hw as [|? ? ? c Hc Hw']; subst; [by left|]. right. by exists c.
  - intros sc' [->|(c & Hc & Hw)]; [constructor|]. by eapply within_child.
Qed.
End ScopeTables.

(** The objects of the analysis run [run] carry its number. *)
Lemma new_scope_eq run astNode variableList children :
  new_scope run (MkScope astNode variableList children)
  = MkScope astNode (new_variable run <$> variableList) (new_scope run <$> children).
Proof.
  cbn [new_scope]. f_equal.
Qed.

Lemma new_scope_run run top sc v :
  within sc (new_scope run top) -> v ∈ scope_variableList sc -> vrun v = run.
Proof.
  revert sc. induction top as [astNode variableList children IH] using Scope_ind'.
  intros sc Hw Hv. rewrite new_scope_eq in Hw.
  inversion Hw as [|? ? ? c Hc Hw']; subst.
  - cbn in Hv. apply list_elem_of_fmap in Hv as (v0 & -> & _). done.
  - apply list_elem_of_fmap in Hc as (c0 & -> & Hc0).
    rewrite Forall_forall in IH. by apply (IH c0 Hc0 sc).
Qed.

Lemma note_variables_scope_only sc l : scope_only (fun s => foldl (note_variable sc) s l).
Proof.
  induction l as [|v l IH]; intros s; [repeat split|].
  cbn [foldl]. destruct (IH (note_variable sc s v)) as (?&?&?&?&?&?&?&?&?&?).
  repeat split; done.
Qed.

Lemma recurse_fields_scope_only sc : scope_only (recurse_fields sc).
Proof.
  induction sc as [astNode variableList children IH] using Scope_ind'.
  intros s. rewrite recurse_fields_eq.
  set (s2 := foldl _ _ variableList).
  assert (H2 : nodes s2 = nodes s /\ _root s2 = _root s
    /\ globalSession s2 = globalSession s /\ autoCleanup s2 = autoCleanup s
    /\ dirty s2 = dirty s /\ parentMap s2 = parentMap s
    /\ replacements s2 = replacements s /\ deletions s2 = deletions s
    /\ insertions s2 = insertions s /\ lookupTable s2 = lookupTable s).
  { unfold s2. destruct (note_variables_scope_only
      (MkScope astNode variableList children) variableList
      (set_scopeOwnerMap (<[astNode := MkScope astNode variableList children]>
                            (scopeOwnerMap s)) s)) as (?&?&?&?&?&?&?&?&?&?).
    repeat split; done. }
  clearbody s2. revert s2 H2. unfold recurse_each.
  induction IH as [|c rest Hc _ IHr]; intros s2 H2; [exact H2|].
  cbn [foldl]. apply IHr. destruct (Hc s2) as (?&?&?&?&?&?&?&?&?&?).
  destruct H2 as (?&?&?&?&?&?&?&?&?&?). repeat split; congruence.
Qed.

Section LookupTable.
Context (E : Externals).

Lemma with_tables_lookupTable t s : lookupTable (with_tables t s) = Some t.
Proof.
  unfold with_tables.
  destruct (recurse_fields_scope_only (scope t)
              (set_variables [] (set_scopeMap ∅ (set_lookupTable (Some t) s))))
    as (?&?&?&?&?&?&?&?&?&Hl).
  by rewrite Hl.
Qed.

(** [getLookupTable] unfolded: the cached table, or the table built
    from the root. *)
Lemma getLookupTable_inv fuel this w t w' :
  getLookupTable E fuel this w = Ok t w' ->
  exists s, sessions w !! this = Some s /\
    ((lookupTable s = Some t /\ w' = w) \/
     (lookupTable s = None /\ exists f r,
         root f this w = Ok r w
         /\ t = analysed E r w
         /\ w' = upd_session this (with_tables t) (set_analyses (S (analyses w)) w))).
Proof.
  destruct fuel as [|f]; [done|].
  cbn [getLookupTable]. unfold mbind at 1, St_bind at 1.
  destruct (get_session this w) as [s w0| |] eqn:Hs; try done.
  apply get_session_inv in Hs as (-> & Hs). intros H. exists s. split; [done|].
  destruct (lookupTable s) as [t0|] eqn:Ht.
  { inversion H; subst. by left. }
  revert H. unfold mbind at 1, St_bind at 1.
  destruct (root f this w) as [r w1| |] eqn:Hroot; try done.
  pose proof (root_frame _ _ _ _ _ Hroot) as ->.
  rewrite bind_get_state. rewrite bind_modify.
  fold (analysed E r w). set (t1 := analysed E r w).
  set (w1 := set_analyses (S (analyses w)) w).
  rewrite bind_modify.
  destruct f as [|f2]; [done|].
  cbn [_rebuildScopeMap].
  assert (Hs1 : sessions (upd_session this (set_lookupTable (Some t1)) w1) !! this
                = Some (set_lookupTable (Some t1) s)).
  { rewrite sessions_upd_eq. cbn [sessions w1 set_analyses]. by rewrite Hs. }
  destruct f2 as [|f3]; [done|].
  unfold mbind at 1, St_bind at 1.
  rewrite (bind_Ok _ _ _ _ _ (getLookupTable_cached E f3 this _ _ t1 Hs1 eq_refl)).
  rewrite bind_modify. rewrite recurse_eq. rewrite !upd_session_compose.
  unfold mret, St_ret. intros H. inversion H; subst. right. split; [done|].
  exists (S (S f3)), r. split; [done|]. split; [done|]. done.
Qed.
End LookupTable.

(** X15.  The lookup table is cached: after [getLookupTable] has returned, a
    further call returns the same table and leaves the state as it is. *)
Theorem getLookupTable_twice (E : Externals) (fuel this : nat) (w : World)
    (t : ScopeLookup) (w' : World) :
  getLookupTable E fuel this w = Ok t w' ->
  forall f, getLookupTable E (S f) this w' = Ok t w'.
Proof.
  intros H f.
  apply getLookupTable_inv in H as (s & Hs & [(Ht & ->)|(Ht & f0 & r & Hr & Heq & ->)]).
  - by apply (getLookupTable_cached E f this w s).
  - apply (getLookupTable_cached E f this _ (with_tables t s)).
    + rewrite sessions_upd_eq. cbn [sessions set_analyses]. by rewrite Hs.
    + apply with_tables_lookupTable.
Qed.

(** The session of the scope instance after its lookup table was built. *)
Lemma getLookupTable_twice_witness :
  getLookupTable ScopeDemo.externals 1 0 ScopeDemo.world = Ok ScopeDemo.table ScopeDemo.world.
Proof.
  refine (getLookupTable_twice ScopeDemo.externals 5 0 ScopeDemo.start ScopeDemo.table
            ScopeDemo.world _ 0).
  vm_compute. reflexivity.
Defined.

(** X16.  The scope tables after [getLookupTable] has built the lookup table
    of a session that had none.  [variables] holds each [Variable]
    object that a scope of the analysed tree lists, once, and nothing
    else.  [lookupScope] of a listed object answers a scope of the tree
    that lists this very object, the one scope that does when there is
    one only (two objects with the same fields in two scopes lead to
    their own scopes); for an object that this analysis did not make (one of
    another session's table, or of an earlier table of this session) it
    answers [undefined].  [getInnerScope] of the node of each scope of
    the tree answers a scope of the tree with that node.  The heap is
    not touched. *)
Theorem scope_tables_after_build (E : Externals) (fuel this : nat) (w : World) (s : Session)
    (t : ScopeLookup) (w' : World) :
  sessions w !! this = Some s -> lookupTable s = None ->
  getLookupTable E fuel this w = Ok t w' ->
  exists s', sessions w' !! this = Some s' /\ heap w' = heap w
    /\ lookupTable s' = Some t
    /\ NoDup (vid <$> variables s')
    /\ (forall v, v ∈ variables s' ->
          exists sc, within sc (scope t) /\ v ∈ scope_variableList sc)
    /\ (forall sc v, within sc (scope t) -> v ∈ scope_variableList sc ->
          vid v ∈ vid <$> variables s')
    /\ (forall sc v f, within sc (scope t) -> v ∈ scope_variableList sc ->
          exists sc', lookupScope E f this (inl v) w' = Ok (Some sc') w'
                      /\ within sc' (scope t) /\ lists sc' (vid v))
    /\ (forall sc v f, within sc (scope t) -> v ∈ scope_variableList sc ->
          (forall sc2, within sc2 (scope t) -> lists sc2 (vid v) -> sc2 = sc) ->
          lookupScope E f this (inl v) w' = Ok (Some sc) w')
    /\ (forall v f, vrun v <> analyses w -> lookupScope E f this (inl v) w' = Ok None w')
    /\ (forall sc, within sc (scope t) ->
          exists sc', getInnerScope this (scope_astNode sc) w' = Ok (Some sc') w'
                      /\ scope_astNode sc' = scope_astNode sc /\ within sc' (scope t)).
Proof.
  intros Hs Hnone H.
  apply getLookupTable_inv in H as (s0 & Hs0 & [(Ht & ->)|(Ht & f0 & r & Hr & Heq & ->)]).
  { congruence. }
  assert (s0 = s) as -> by congruence.
  set (w1 := set_analyses (S (analyses w)) w).
  assert (Hs' : sessions (upd_session this (with_tables t) w1) !! this = Some (with_tables t s)).
  { rewrite sessions_upd_eq. cbn [sessions w1 set_analyses]. by rewrite Hs. }
  exists (with_tables t s). split; [done|]. split; [done|].
  split; [apply with_tables_lookupTable|].
  set (s1 := set_variables [] (set_scopeMap ∅ (set_lookupTable (Some t) s))).
  destruct (recurse_fields_ok (scope t) (scope t) (within_here _) s1)
    as (Hok & _ & Hcov & _ & Hown).
  destruct Hok as (Hnd & Hmap & Hkeys).
  { split; [apply NoDup_nil_2|]. split.
    - intros v Hv. by apply elem_of_nil in Hv.
    - intros i [x Hi]. cbn in Hi. by rewrite lookup_empty in Hi. }
  assert (Hlook : forall v f,
    lookupScope E f this (inl v) (upd_session this (with_tables t) w1)
    = Ok (scopeMap (with_tables t s) !! vid v) (upd_session this (with_tables t) w1)).
  { intros v f. unfold lookupScope. unfold mbind at 1, St_bind at 1. unfold mret at 1, St_ret at 1.
    by rewrite (bind_Ok _ _ _ _ _ (get_session_Ok _ _ _ Hs')). }
  assert (Hfind : forall sc v, within sc (scope t) -> v ∈ scope_variableList sc ->
    exists sc', scopeMap (with_tables t s) !! vid v = Some sc'
                /\ within sc' (scope t) /\ lists sc' (vid v)).
  { intros sc v Hw Hv.
    pose proof (Hcov sc v Hw Hv) as (v' & Hid & Hv')%list_elem_of_fmap.
    destruct (Hmap v' Hv') as (_ & sc' & Hget & Hl & Hw').
    exists sc'. rewrite Hid. split; [exact Hget|]. by split. }
  unfold with_tables at 2 3 4. fold s1.
  split; [done|]. split.
  { intros v Hv. by destruct (Hmap v Hv) as (Hl & _). }
  split; [exact Hcov|]. split.
  { intros sc v f Hw Hv. destruct (Hfind sc v Hw Hv) as (sc' & Hget & Hw' & Hl).
    exists sc'. rewrite Hlook, Hget. done. }
  split.
  { intros sc v f Hw Hv Huniq. destruct (Hfind sc v Hw Hv) as (sc' & Hget & Hw' & Hl).
    rewrite Hlook, Hget. by rewrite (Huniq sc' Hw' Hl). }
  split.
  { intros v f Hrun. rewrite Hlook.
    destruct (scopeMap (with_tables t s) !! vid v) as [sc|] eqn:Hget; [|done].
    exfalso. apply Hrun.
    assert (Hin : vid v ∈ vid <$> variables (with_tables t s)) by (apply Hkeys; eauto).
    apply list_elem_of_fmap in Hin as (v' & Hid & Hv').
    destruct (Hmap v' Hv') as ((sc0 & Hw0 & Hl0) & _).
    rewrite Heq in Hw0. cbn [scope analysed] in Hw0.
    pose proof (new_scope_run _ _ _ _ Hw0 Hl0) as Hrun'.
    unfold vid in Hid. congruence. }
  intros sc Hw. destruct (Hown sc Hw) as (sc' & Hget & Ha & Hw'). exists sc'.
  split; [|done]. unfold getInnerScope.
  rewrite (bind_Ok _ _ _ _ _ (get_session_Ok _ _ _ Hs')).
  unfold with_tables. fold s1. by rewrite Hget.
Qed.

(** The scope instance: the script scope, a scope nested at statement
    [a] and one nested at statement [b], each of the two with an
    [arguments] object of its own. *)
Lemma scope_tables_after_build_witness :
  exists s', sessions ScopeDemo.world !! 0 = Some s'
    /\ heap ScopeDemo.world = heap ScopeDemo.start
    /\ lookupTable s' = Some ScopeDemo.table
    /\ NoDup (vid <$> variables s')
    /\ (forall v, v ∈ variables s' ->
          exists sc, within sc (scope ScopeDemo.table) /\ v ∈ scope_variableList sc)
    /\ (forall sc v, within sc (scope ScopeDemo.table) -> v ∈ scope_variableList sc ->
          vid v ∈ vid <$> variables s')
    /\ (forall sc v f, within sc (scope ScopeDemo.table) -> v ∈ scope_variableList sc ->
          exists sc', lookupScope ScopeDemo.externals f 0 (inl v) ScopeDemo.world
                      = Ok (Some sc') ScopeDemo.world
                      /\ within sc' (scope ScopeDemo.table) /\ lists sc' (vid v))
    /\ (forall sc v f, within sc (scope ScopeDemo.table) -> v ∈ scope_variableList sc ->
          (forall sc2, within sc2 (scope ScopeDemo.table) -> lists sc2 (vid v) -> sc2 = sc) ->
          lookupScope ScopeDemo.externals f 0 (inl v) ScopeDemo.world
          = Ok (Some sc) ScopeDemo.world)
    /\ (forall v f, vrun v <> analyses ScopeDemo.start ->
          lookupScope ScopeDemo.externals f 0 (inl v) ScopeDemo.world = Ok None ScopeDemo.world)
    /\ (forall sc, within sc (scope ScopeDemo.table) ->
          exists sc', getInnerScope 0 (scope_astNode sc) ScopeDemo.world
                      = Ok (Some sc') ScopeDemo.world
                      /\ scope_astNode sc' = scope_astNode sc
                      /\ within sc' (scope ScopeDemo.table)).
Proof.
  apply (scope_tables_after_build ScopeDemo.externals 5 0 ScopeDemo.start
           ScopeDemo.start_session ScopeDemo.table ScopeDemo.world).
  - reflexivity.
  - reflexivity.
  - vm_compute. reflexivity.
Defined.

(** The root session and the subsession have run an analysis each:
    the objects of the one are no keys of the scope map of the other. *)
Lemma tables_of_two_sessions :
  exists s0 s1, sessions ScopeDemo.two_sessions !! 0 = Some s0
    /\ sessions ScopeDemo.two_sessions !! 1 = Some s1
    /\ vid <$> variables s0 = [(0, 0); (0, 2); (0, 1); (0, 3)]
    /\ vid <$> variables s1 = [(1, 0); (1, 2); (1, 1); (1, 3)]
    /\ Forall (fun v => scopeMap_get v (scopeMap s1) = None) (variables s0)
    /\ Forall (fun v => scopeMap_get v (scopeMap s0) = None) (variables s1)
    /\ Forall (fun v => is_Some (scopeMap_get v (scopeMap s0))) (variables s0).
Proof.
  eexists _, _. split; [vm_compute; reflexivity|]. split; [vm_compute; reflexivity|].
  split; [vm_compute; reflexivity|]. split; [vm_compute; reflexivity|].
  split; [|split]; repeat constructor; vm_compute; eauto.
Qed.

(** On that instance the two [arguments] objects, equal field by
    field, are two entries of [variables], and each leads to the scope
    that lists it; the shared object [a] is one entry. *)
Lemma two_arguments_objects :
  exists s', sessions ScopeDemo.world !! 0 = Some s'
    /\ vid <$> variables s' = [(0, 0); (0, 2); (0, 1); (0, 3)]
    /\ scope_astNode <$> scopeMap_get (new_variable 0 ScopeDemo.args_a) (scopeMap s') = Some 2
    /\ scope_astNode <$> scopeMap_get (new_variable 0 ScopeDemo.args_b) (scopeMap s') = Some 3
    /\ scopeMap_get (new_variable 1 ScopeDemo.args_b) (scopeMap s') = None.
Proof.
  eexists. split; [vm_compute; reflexivity|]. vm_compute. done.
Qed.

(* ===================================================================== *)
(** ** Insertions that are refused or overwritten                        *)
(* ===================================================================== *)

Section InsertEdges.
Context (E : Externals).

(** The callback of [insert] on an anchor that is no statement. *)
Lemma insert_one_refuses_anchor this replacer aft insertion node w :
  isStatement E node (heap w) = false ->
  insert_one E this replacer aft insertion node w
  = Throw (RefactorError "Can only insert before or after Statements or Declarations") w.
Proof.
  intros H. unfold insert_one. rewrite bind_get_state. by rewrite H.
Qed.

(** The callback of [insert] with a replacer function: the function
    runs twice; the first value is tested, the second one is queued. *)
Lemma insert_one_function g s b fn aft insertion x1 h1 x2 h2 w :
  sessions w !! g = Some s ->
  isStatement E (Ref b) (heap w) = true ->
  fn (Ref b) (heap w) = Ok (RvNode x1) h1 ->
  isStatement E (Ref x1) h1 = true ->
  fn (Ref b) h1 = Ok (RvNode x2) h2 ->
  insert_one E g (ReplFun fn) aft insertion (Ref b) w
  = Ok insertion
      (upd_session g (fun s => set_insertions (<[b := MkInsertion aft (Ref x2)]> (insertions s))
                                 (set_dirty true s)) (set_heap h2 w)).
Proof.
  intros Hs Hb H1 Hx1 H2. unfold insert_one. rewrite bind_get_state. rewrite Hb. cbn [negb].
  rewrite (bind_Ok _ _ _ _ _ (isDirty_set _ _ _ true Hs)).
  set (w1 := upd_session g (set_dirty true) w).
  assert (Hg1 : getInsertion E insertion (ReplFun fn) (Ref b) w1
                = Ok (Ref x1, insertion) (set_heap h1 w1)).
  { unfold getInsertion, on_heap. unfold mbind at 1, St_bind at 1. cbn [heap w1 upd_session set_sessions].
    by rewrite H1. }
  rewrite (bind_Ok _ _ _ _ _ Hg1). rewrite bind_get_state.
  cbn [heap set_heap]. rewrite Hx1. cbn [negb].
  assert (Hg2 : getInsertion E insertion (ReplFun fn) (Ref b) (set_heap h1 w1)
                = Ok (Ref x2, insertion) (set_heap h2 w1)).
  { unfold getInsertion, on_heap. unfold mbind at 1, St_bind at 1. cbn [heap set_heap].
    by rewrite H2. }
  rewrite (bind_Ok _ _ _ _ _ Hg2). rewrite bind_modify.
  unfold w1. unfold mret, St_ret. f_equal.
  unfold upd_session, set_sessions, set_heap. cbn. f_equal. by rewrite alter_alter_eq.
Qed.

(** The callback of [insert] when the value of the replacer function
    is no statement: the session has been marked dirty before the
    test. *)
Lemma insert_one_refuses_value g s b fn aft insertion x1 h1 w :
  sessions w !! g = Some s ->
  isStatement E (Ref b) (heap w) = true ->
  fn (Ref b) (heap w) = Ok (RvNode x1) h1 ->
  isStatement E (Ref x1) h1 = false ->
  insert_one E g (ReplFun fn) aft insertion (Ref b) w
  = Throw (RefactorError "Will not insert anything but a Statement or Declaration")
      (set_heap h1 (upd_session g (set_dirty true) w)).
Proof.
  intros Hs Hb H1 Hx1. unfold insert_one. rewrite bind_get_state. rewrite Hb. cbn [negb].
  rewrite (bind_Ok _ _ _ _ _ (isDirty_set _ _ _ true Hs)).
  set (w1 := upd_session g (set_dirty true) w).
  assert (Hg1 : getInsertion E insertion (ReplFun fn) (Ref b) w1
                = Ok (Ref x1, insertion) (set_heap h1 w1)).
  { unfold getInsertion, on_heap. unfold mbind at 1, St_bind at 1. cbn [heap w1 upd_session set_sessions].
    by rewrite H1. }
  rewrite (bind_Ok _ _ _ _ _ Hg1). rewrite bind_get_state.
  cbn [heap set_heap]. by rewrite Hx1.
Qed.

(** [insert] on the global session for one anchor. *)
Lemma insert_single f g s node replacer aft w :
  sessions w !! g = Some s -> globalSession s = g ->
  insert E (S f) g (SelNode node) replacer aft w
  = (insert_one E g replacer aft Null node;; conditionalCleanup E f g) w.
Proof.
  intros Hs Hg. cbn [insert].
  rewrite (bind_Ok _ _ _ _ _ (get_session_Ok _ _ _ Hs)).
  rewrite decide_False by (intros H; by apply H).
  rewrite bind_get_state. cbn [findNodes insert_each].
  unfold mbind, St_bind. destruct (insert_one E g replacer aft Null node w); try done.
Qed.
End InsertEdges.

(** X11.  [append] and [prepend] relative to a node that is no statement
    raise a [RefactorError] and change nothing, whichever session they
    are called on. *)
Theorem insert_refuses_non_statement_anchor (E : Externals) (f this g b : nat)
    (s0 s : Session) (replacer : Replacer) (w : World) :
  sessions w !! this = Some s0 -> globalSession s0 = g ->
  sessions w !! g = Some s -> globalSession s = g ->
  isStatement E (Ref b) (heap w) = false ->
  append E (S f) this (SelNode (Ref b)) replacer w
  = Throw (RefactorError "Can only insert before or after Statements or Declarations") w
  /\ prepend E (S f) this (SelNode (Ref b)) replacer w
     = Throw (RefactorError "Can only insert before or after Statements or Declarations") w.
Proof.
  intros Hs0 Hg0 Hs Hg Hb. unfold append, prepend.
  rewrite !(bind_Ok _ _ _ _ _ (get_session_Ok _ _ _ Hs0)). rewrite Hg0.
  rewrite !(insert_single E f g s _ _ _ w Hs Hg).
  split; apply bind_Throw; by apply insert_one_refuses_anchor.
Qed.

(** The identifier of statement [b] as the anchor. *)
Lemma insert_refuses_non_statement_anchor_witness :
  append Demo.externals 4 0 (SelNode (Ref 6)) (ReplNode 8) DemoWorlds.root_world
  = Throw (RefactorError "Can only insert before or after Statements or Declarations")
      DemoWorlds.root_world
  /\ prepend Demo.externals 4 0 (SelNode (Ref 6)) (ReplNode 8) DemoWorlds.root_world
     = Throw (RefactorError "Can only insert before or after Statements or Declarations")
         DemoWorlds.root_world.
Proof.
  apply (insert_refuses_non_statement_anchor Demo.externals 3 0 0 6 DemoWorlds.root_session
           DemoWorlds.root_session (ReplNode 8) DemoWorlds.root_world).
  all: vm_compute; reflexivity.
Defined.

(** X12.  An insertion whose replacer function hands back a node that is no
    statement is refused with a [RefactorError], but the session has
    been marked dirty by then: nothing is queued, and [generate] fails
    with the dirty-print error until the next commit. *)
Theorem refused_insertion_leaves_session_dirty (E : Externals) (f g b x1 : nat) (s : Session)
    (fn : NodeRef -> St Heap ReplacerResult) (h1 : Heap) (aft : bool) (ast : NodeRef)
    (w : World) :
  sessions w !! g = Some s -> globalSession s = g ->
  isStatement E (Ref b) (heap w) = true ->
  fn (Ref b) (heap w) = Ok (RvNode x1) h1 ->
  isStatement E (Ref x1) h1 = false ->
  exists w',
    insert E (S f) g (SelNode (Ref b)) (ReplFun fn) aft w
    = Throw (RefactorError "Will not insert anything but a Statement or Declaration") w'
    /\ sessions w' !! g = Some (set_dirty true s) /\ heap w' = h1
    /\ generate E g ast w'
       = Throw (RefactorError "refactor .print() called with a dirty AST. This is almost always a bug. Call .cleanup() before printing.") w'.
Proof.
  intros Hs Hg Hb H1 Hx1. eexists. split.
  { rewrite (insert_single E f g s _ _ _ w Hs Hg). apply bind_Throw.
    by apply (insert_one_refuses_value E g s b fn aft Null x1 h1 w). }
  assert (Hs' : sessions (set_heap h1 (upd_session g (set_dirty true) w)) !! g
                = Some (set_dirty true s)).
  { cbn. by rewrite lookup_alter_eq, Hs. }
  split; [done|]. split; [done|].
  by apply (generate_dirty E g (set_dirty true s)).
Qed.

(** A replacer function that hands back the identifier of [x]. *)
Lemma refused_insertion_leaves_session_dirty_witness :
  exists w',
    insert Demo.externals 4 0 (SelNode (Ref 3)) (ReplFun (fun _ h => Ok (RvNode 9) h)) true
      DemoWorlds.root_world
    = Throw (RefactorError "Will not insert anything but a Statement or Declaration") w'
    /\ sessions w' !! 0 = Some (set_dirty true DemoWorlds.root_session)
    /\ heap w' = heap DemoWorlds.root_world
    /\ generate Demo.externals 0 Undefined w'
       = Throw (RefactorError "refactor .print() called with a dirty AST. This is almost always a bug. Call .cleanup() before printing.") w'.
Proof.
  apply (refused_insertion_leaves_session_dirty Demo.externals 3 0 3 9 DemoWorlds.root_session
           (fun _ h => Ok (RvNode 9) h) (heap DemoWorlds.root_world) true Undefined
           DemoWorlds.root_world).
  all: vm_compute; reflexivity.
Defined.

(** X13.  With a replacer function, [insert] runs the function twice for an
    anchor: the value of the first run is the one tested for being a
    statement, the value of the second run is the one queued, untested;
    the heap is the one the second run leaves. *)
Theorem insert_runs_replacer_twice (E : Externals) (f g b x1 x2 : nat) (s : Session)
    (fn : NodeRef -> St Heap ReplacerResult) (h1 h2 : Heap) (aft : bool) (w : World) :
  sessions w !! g = Some s -> globalSession s = g ->
  isStatement E (Ref b) (heap w) = true ->
  fn (Ref b) (heap w) = Ok (RvNode x1) h1 ->
  isStatement E (Ref x1) h1 = true ->
  fn (Ref b) h1 = Ok (RvNode x2) h2 ->
  exists wq,
    insert E (S f) g (SelNode (Ref b)) (ReplFun fn) aft w = conditionalCleanup E f g wq
    /\ heap wq = h2
    /\ sessions wq !! g
       = Some (set_insertions (<[b := MkInsertion aft (Ref x2)]> (insertions s))
                 (set_dirty true s)).
Proof.
  intros Hs Hg Hb H1 Hx1 H2. eexists. split.
  { rewrite (insert_single E f g s _ _ _ w Hs Hg).
    by rewrite (bind_Ok _ _ _ _ _
                  (insert_one_function E g s b fn aft Null x1 h1 x2 h2 w Hs Hb H1 Hx1 H2)). }
  split; [done|]. cbn. by rewrite lookup_alter_eq, Hs.
Qed.

(** A replacer function whose second run hands back the identifier of [x]: that one is queued. *)
Lemma insert_runs_replacer_twice_witness :
  exists wq,
    insert Demo.externals 4 0 (SelNode (Ref 3)) (ReplFun MoreRuns.flip_flop) true
      DemoWorlds.root_world
    = conditionalCleanup Demo.externals 3 0 wq
    /\ heap wq = <[20 := Demo.ident "mark"]> (heap DemoWorlds.root_world)
    /\ sessions wq !! 0
       = Some (set_insertions (<[3 := MkInsertion true (Ref 9)]>
                                 (insertions DemoWorlds.root_session))
                 (set_dirty true DemoWorlds.root_session)).
Proof.
  apply (insert_runs_replacer_twice Demo.externals 3 0 3 8 9 DemoWorlds.root_session
           MoreRuns.flip_flop (<[20 := Demo.ident "mark"]> (heap DemoWorlds.root_world))
           (<[20 := Demo.ident "mark"]> (heap DemoWorlds.root_world)) true
           DemoWorlds.root_world).
  all: vm_compute; reflexivity.
Defined.

(** X14.  The insertion map holds one entry per anchor: a second insertion
    queued against an anchor before the commit replaces the first, so
    of [append] followed by [prepend] only the [prepend] is left. *)
Theorem second_insertion_overwrites_first (E : Externals) (f g b x y : nat) (s : Session)
    (bo xo yo : NodeObj) (fn1 fn2 : NodeRef -> St Heap ReplacerResult) (w : World) :
  sessions w !! g = Some s -> globalSession s = g -> autoCleanup s = false ->
  heap w !! b = Some bo -> isStatementType E (ntype bo) = true ->
  heap w !! x = Some xo -> isStatementType E (ntype xo) = true ->
  heap w !! y = Some yo -> isStatementType E (ntype yo) = true ->
  (forall h, fn1 (Ref b) h = Ok (RvNode x) h) ->
  (forall h, fn2 (Ref b) h = Ok (RvNode y) h) ->
  exists w' s',
    (append E (S (S f)) g (SelNode (Ref b)) (ReplFun fn1);;
     prepend E (S (S f)) g (SelNode (Ref b)) (ReplFun fn2)) w = Ok g w'
    /\ heap w' = heap w /\ sessions w' !! g = Some s'
    /\ insertions s' = <[b := MkInsertion false (Ref y)]> (insertions s).
Proof.
  intros Hs Hg Ha Hb Hbst Hx Hxst Hy Hyst Hf1 Hf2.
  set (w1 := upd_session g (fun s => set_insertions (<[b := MkInsertion true (Ref x)]> (insertions s))
                                       (set_dirty true s)) w).
  set (s1 := set_insertions (<[b := MkInsertion true (Ref x)]> (insertions s)) (set_dirty true s)).
  assert (Hs1 : sessions w1 !! g = Some s1) by (unfold w1; by rewrite sessions_upd_eq, Hs).
  assert (H1 : append E (S (S f)) g (SelNode (Ref b)) (ReplFun fn1) w = Ok g w1).
  { unfold append. rewrite (bind_Ok _ _ _ _ _ (get_session_Ok _ _ _ Hs)). rewrite Hg.
    rewrite (insert_queues E (S f) g s b bo x xo fn1 true w Hs Hg Hb Hbst Hx Hxst Hf1).
    by apply (conditionalCleanup_off E _ _ s1). }
  set (w2 := upd_session g (fun s => set_insertions (<[b := MkInsertion false (Ref y)]> (insertions s))
                                       (set_dirty true s)) w1).
  assert (H2 : prepend E (S (S f)) g (SelNode (Ref b)) (ReplFun fn2) w1 = Ok g w2).
  { unfold prepend. rewrite (bind_Ok _ _ _ _ _ (get_session_Ok _ _ _ Hs1)).
    replace (globalSession s1) with g by done.
    rewrite (insert_queues E (S f) g s1 b bo y yo fn2 false w1 Hs1 Hg Hb Hbst Hy Hyst Hf2).
    apply (conditionalCleanup_off E _ _ (set_insertions (<[b := MkInsertion false (Ref y)]> (insertions s1))
                                           (set_dirty true s1))); [|done].
    unfold w2. by rewrite sessions_upd_eq, Hs1. }
  exists w2, (set_insertions (<[b := MkInsertion false (Ref y)]> (insertions s1)) (set_dirty true s1)).
  split. { unfold mbind, St_bind. by rewrite H1. }
  split; [done|]. split; [unfold w2; by rewrite sessions_upd_eq, Hs1|].
  cbn. apply insert_insert_eq.
Qed.

(** [append] of [x] and then [prepend] of [c] relative to statement [b]. *)
Lemma second_insertion_overwrites_first_witness :
  exists w' s',
    (append Demo.externals 5 0 (SelNode (Ref 3)) (ReplFun (fun _ h => Ok (RvNode 8) h));;
     prepend Demo.externals 5 0 (SelNode (Ref 3)) (ReplFun (fun _ h => Ok (RvNode 4) h)))
      ReplaceRuns.manual_world = Ok 0 w'
    /\ heap w' = heap ReplaceRuns.manual_world /\ sessions w' !! 0 = Some s'
    /\ insertions s' = <[3 := MkInsertion false (Ref 4)]> (insertions ReplaceRuns.manual_session).
Proof.
  apply (second_insertion_overwrites_first Demo.externals 3 0 3 8 4 ReplaceRuns.manual_session
           (Demo.exprStatement 6) (Demo.exprStatement 9) (Demo.exprStatement 7)
           (fun _ h => Ok (RvNode 8) h) (fun _ h => Ok (RvNode 4) h) ReplaceRuns.manual_world).
  all: vm_compute; reflexivity.
Defined.

(* ===================================================================== *)
(** ** Replacements that change nothing, or never end                    *)
(* ===================================================================== *)

Section ReplaceEdges.
Context (E : Externals).

(** The targets on which a replacer function hands back the target
    itself are not queued. *)
Lemma replace_map_identity f this fn (l : list nat) w :
  (forall id h, id ∈ l -> fn (Ref id) h = Ok (RvNode id) h) ->
  mapSt (fun node =>
    replacement ← replacement_for E (ReplFun fn) Null node;
    if truthy node && negb (bool_decide (replacement = node)) then
      _queueReplacement f this node replacement;;
      mret true
    else mret false) (Ref <$> l) w
  = Ok (replicate (length l) false) w.
Proof.
  induction l as [|id l IH]; intros Hfn; [done|].
  cbn [fmap list_fmap mapSt length replicate].
  rewrite (bind_Ok _ _ w false w).
  - rewrite (bind_Ok _ _ _ _ _ (IH ltac:(intros i h Hi; apply Hfn; by right))). done.
  - rewrite (bind_Ok _ _ w (Ref id) w).
    + cbn [truthy andb]. by rewrite bool_decide_eq_true_2.
    + unfold replacement_for. rewrite (bind_Ok _ _ w (RvNode id) w); [done|].
      unfold on_heap. rewrite Hfn by (by left). by rewrite set_heap_id.
Qed.

Lemma filter_replicate_false n :
  filter (fun wasReplaced : bool => wasReplaced = true) (replicate n false) = [].
Proof. induction n as [|n IH]; [done|]. cbn [replicate]. by rewrite filter_cons_False. Qed.

(** [replace] for one target and a replacer function that hands back
    another node: when the call returns, it reports one replacement. *)
Lemma replace_single_count f this id x fn w k w' :
  (forall h, fn (Ref id) h = Ok (RvNode x) h) -> x <> id ->
  replace E f this (SelNode (Ref id)) (ReplFun fn) w = Ok k w' -> k = 1.
Proof.
  intros Hfn Hne H. unfold replace in H.
  assert (Hrep : forall w, replacement_for E (ReplFun fn) Null (Ref id) w = Ok (Ref x) w).
  { intros w0. unfold replacement_for. rewrite (bind_Ok _ _ w0 (RvNode x) w0); [done|].
    unfold on_heap. rewrite Hfn. by rewrite set_heap_id. }
  apply bind_inv_Ok in H as (s & w0 & Hs & H). apply get_session_inv in Hs as (-> & Hs).
  rewrite bind_get_state in H. cbn [findNodes] in H.
  apply bind_inv_Ok in H as (rs & w1 & Hrs & H).
  unfold mret, St_ret in Hrs. inversion Hrs; subst. clear Hrs.
  apply bind_inv_Ok in H as (replaced & w2 & Hmap & H).
  apply bind_inv_Ok in H as (r & w3 & Hcc & H).
  unfold mret, St_ret in H. inversion H; subst. clear H.
  cbn [mapSt] in Hmap.
  apply bind_inv_Ok in Hmap as (b & w4 & Hb & Hmap).
  apply bind_inv_Ok in Hmap as (ys & w5 & Hys & Hmap).
  unfold mret, St_ret in Hys, Hmap. inversion Hys; subst. inversion Hmap; subst.
  clear Hmap Hys.
  rewrite (bind_Ok _ _ _ _ _ (Hrep _)) in Hb. cbn [truthy andb] in Hb.
  rewrite bool_decide_eq_false_2 in Hb by congruence. cbn [negb] in Hb.
  apply bind_inv_Ok in Hb as (u & w6 & Hq & Hb).
  unfold mret, St_ret in Hb. inversion Hb; subst. reflexivity.
Qed.
End ReplaceEdges.

(** X9.  [replace] with a replacer function that hands back each target
    itself queues nothing and reports 0 replacements; on a session with
    [autoCleanup] off, or on a clean global session, it leaves the state
    as it is. *)
Theorem replace_by_identity_queues_nothing (E : Externals) (f this : nat) (s : Session)
    (l : list nat) (fn : NodeRef -> St Heap ReplacerResult) (w : World) :
  sessions w !! this = Some s ->
  autoCleanup s = false \/ (globalSession s = this /\ dirty s = false) ->
  (forall id h, id ∈ l -> fn (Ref id) h = Ok (RvNode id) h) ->
  replace E (S f) this (SelNodes (Ref <$> l)) (ReplFun fn) w = Ok 0 w.
Proof.
  intros Hs Hquiet Hfn. unfold replace.
  rewrite (bind_Ok _ _ _ _ _ (get_session_Ok _ _ _ Hs)). rewrite bind_get_state.
  cbn [findNodes]. rewrite (bind_Ok _ _ w Null w eq_refl).
  rewrite (bind_Ok _ _ _ _ _ (replace_map_identity E (S f) this fn l w Hfn)).
  rewrite (bind_Ok _ _ w this w).
  - unfold mret, St_ret. by rewrite filter_replicate_false.
  - destruct Hquiet as [Ha|[Hg Hd]].
    + by apply (conditionalCleanup_off E _ _ s).
    + unfold conditionalCleanup. rewrite (bind_Ok _ _ _ _ _ (get_session_Ok _ _ _ Hs)).
      destruct (autoCleanup s); [|done].
      by rewrite (bind_Ok _ _ _ _ _ (cleanup_clean E f this s w Hs Hg Hd)).
Qed.

(** Statements [b] and [c] and the replacer function that hands back its argument. *)
Lemma replace_by_identity_queues_nothing_witness :
  replace Demo.externals 4 0 (SelNodes (Ref <$> [3; 4])) (ReplFun MoreRuns.same_node)
    DemoWorlds.root_world
  = Ok 0 DemoWorlds.root_world.
Proof.
  apply (replace_by_identity_queues_nothing Demo.externals 3 0 DemoWorlds.root_session [3; 4]
           MoreRuns.same_node DemoWorlds.root_world).
  - vm_compute. reflexivity.
  - right. split; reflexivity.
  - intros id h _. reflexivity.
Defined.

(** X10.  [replaceRecursive] on an explicitly given node with a replacer
    function that hands back another node never returns a value: every
    round that does not throw reports one replacement, so the method
    calls itself again, and no amount of fuel ends the recursion. *)
Theorem replaceRecursive_never_returns (E : Externals) (this id x : nat)
    (fn : NodeRef -> St Heap ReplacerResult) :
  (forall h, fn (Ref id) h = Ok (RvNode x) h) -> x <> id ->
  forall fuel w,
    returns (replaceRecursive E fuel this (SelNode (Ref id)) (ReplFun fn) w) = false.
Proof.
  intros Hfn Hne fuel. induction fuel as [|f IH]; intros w; [done|].
  cbn [replaceRecursive]. unfold mbind at 1, St_bind at 1.
  destruct (replace E f this (SelNode (Ref id)) (ReplFun fn) w) as [k w1| |] eqn:Hrep; try done.
  apply (replace_single_count E f this id x fn w k w1 Hfn Hne) in Hrep as ->.
  unfold mbind at 1, St_bind at 1.
  destruct (cleanup E f this w1) as [r1 w2| |]; try done.
  rewrite decide_True by lia.
  unfold mbind at 1, St_bind at 1. unfold mbind at 1, St_bind at 1.
  specialize (IH w2).
  destruct (replaceRecursive E f this (SelNode (Ref id)) (ReplFun fn) w2) as [r2 w3| |];
    done.
Qed.

(** Statement [b] and a replacer function that hands back the statement [x]. *)
Lemma replaceRecursive_never_returns_witness :
  returns (replaceRecursive Demo.externals 1000 0 (SelNode (Ref 3))
             (ReplFun (fun _ h => Ok (RvNode 8) h)) DemoWorlds.root_world) = false.
Proof.
  refine (replaceRecursive_never_returns Demo.externals 0 3 8 (fun _ h => Ok (RvNode 8) h)
            _ _ 1000 DemoWorlds.root_world).
  - reflexivity.
  - discriminate.
Defined.

(* ===================================================================== *)
(** ** Queueing only, renaming and delegation                            *)
(* ===================================================================== *)

Section QueueOnly.
Context (E : Externals).

Lemma forEach_queueDeletion f g (l : list nat) w s :
  sessions w !! g = Some s -> globalSession s = g ->
  forEachSt (_queueDeletion (S f) g) (Ref <$> l) w
  = Ok tt (upd_session g
             (fun s => set_deletions (list_to_set l ∪ deletions s)
                         (set_dirty (bool_decide (l <> []) || dirty s) s)) w).
Proof.
  revert w s. induction l as [|id l IH]; intros w s Hs Hg.
  - cbn. f_equal. symmetry. rewrite <- (upd_session_id g w) at 2.
    unfold upd_session. f_equal. apply map_eq. intros i.
    destruct (decide (i = g)) as [->|Hne]; [|by rewrite !lookup_alter_ne].
    rewrite !lookup_alter_eq. destruct (sessions w !! g) as [s0|]; [|done]. cbn. f_equal.
    destruct s0. unfold set_deletions, set_dirty. cbn. f_equal. apply leibniz_equiv.
    rewrite left_id. done. apply _.
  - cbn [fmap list_fmap forEachSt].
    rewrite (bind_Ok _ _ _ _ _ (queueDeletion_global f g s id w Hs Hg)).
    erewrite IH; [|by rewrite sessions_upd_eq, Hs|done].
    rewrite upd_session_compose. f_equal. unfold upd_session. f_equal.
    apply map_eq. intros i.
    destruct (decide (i = g)) as [->|Hne]; [|by rewrite !lookup_alter_ne].
    rewrite !lookup_alter_eq. destruct (sessions w !! g) as [s0|]; [|done]. cbn. f_equal.
    unfold set_deletions, set_dirty. cbn. f_equal.
    + by rewrite orb_true_r.
    + apply leibniz_equiv. intros x. rewrite !elem_of_union, elem_of_singleton. tauto.
Qed.
End QueueOnly.

(** X8.  With [autoCleanup] off, [delete] only queues: the nodes join the
    deletion set of the global session and the session becomes dirty,
    while the tree (the whole heap), the node list and the other two
    queues stay as they are until the commit. *)
Theorem delete_only_queues_when_autoCleanup_off (E : Externals) (f g : nat) (s : Session)
    (l : list nat) (w : World) :
  sessions w !! g = Some s -> globalSession s = g -> autoCleanup s = false ->
  exists w' s',
    delete E (S f) g (Some (SelNodes (Ref <$> l))) w = Ok g w'
    /\ heap w' = heap w /\ log w' = log w /\ sessions w' !! g = Some s'
    /\ deletions s' = list_to_set l ∪ deletions s
    /\ dirty s' = bool_decide (l <> []) || dirty s
    /\ nodes s' = nodes s /\ replacements s' = replacements s
    /\ insertions s' = insertions s.
Proof.
  intros Hs Hg Ha. unfold delete.
  rewrite (bind_Ok _ _ _ _ _ (get_session_Ok _ _ _ Hs)). rewrite bind_get_state.
  cbn [default findNodes].
  set (w1 := upd_session g
             (fun s => set_deletions (list_to_set l ∪ deletions s)
                         (set_dirty (bool_decide (l <> []) || dirty s) s)) w).
  assert (Hs1 : sessions w1 !! g
                = Some (set_deletions (list_to_set l ∪ deletions s)
                          (set_dirty (bool_decide (l <> []) || dirty s) s)))
    by (unfold w1; by rewrite sessions_upd_eq, Hs).
  assert (Hq : (if decide (0 < length (Ref <$> l))
                then forEachSt (_queueDeletion (S f) g) (Ref <$> l) else mret tt) w = Ok tt w1).
  { destruct (decide (0 < length (Ref <$> l))) as [Hl|Hl].
    - by apply (forEach_queueDeletion f g l w s).
    - destruct l as [|id l]; [|cbn in Hl; lia].
      by apply (forEach_queueDeletion f g [] w s). }
  rewrite (bind_Ok _ _ _ _ _ Hq).
  exists w1. eexists. split; [by apply (conditionalCleanup_off E _ _ _ _ Hs1)|].
  split; [done|]. split; [done|]. split; [exact Hs1|]. done.
Qed.

(** Statements [b] and [c], on the session with [autoCleanup] assigned [false]. *)
Lemma delete_only_queues_when_autoCleanup_off_witness :
  exists w' s',
    delete Demo.externals 4 0 (Some (SelNodes (Ref <$> [3; 4]))) ReplaceRuns.manual_world
    = Ok 0 w'
    /\ heap w' = heap ReplaceRuns.manual_world /\ log w' = log ReplaceRuns.manual_world
    /\ sessions w' !! 0 = Some s'
    /\ deletions s' = list_to_set [3; 4] ∪ deletions ReplaceRuns.manual_session
    /\ dirty s' = bool_decide ([3; 4] <> []) || dirty ReplaceRuns.manual_session
    /\ nodes s' = nodes ReplaceRuns.manual_session
    /\ replacements s' = replacements ReplaceRuns.manual_session
    /\ insertions s' = insertions ReplaceRuns.manual_session.
Proof.
  apply (delete_only_queues_when_autoCleanup_off Demo.externals 3 0 ReplaceRuns.manual_session
           [3; 4] ReplaceRuns.manual_world).
  all: vm_compute; reflexivity.
Defined.

Lemma same_but_name_refl h : same_but_name h h.
Proof. intros id. by destruct (h !! id). Qed.

Lemma same_but_name_trans h1 h2 h3 :
  same_but_name h1 h2 -> same_but_name h2 h3 -> same_but_name h1 h3.
Proof.
  intros H12 H23 id. specialize (H12 id). specialize (H23 id).
  destruct (h1 !! id), (h2 !! id), (h3 !! id); try done.
  destruct H12 as [T12 P12], H23 as [T23 P23]. split; [congruence|].
  intros key Hk. by rewrite P23, P12.
Qed.

Lemma same_but_name_renamed newName ids h : same_but_name h (renamed newName ids h).
Proof.
  intros id. rewrite renamed_lookup. destruct (decide (id ∈ ids)); [|by destruct (h !! id)].
  destruct (h !! id) as [o|]; [|done]. cbn. split; [done|].
  intros key Hk. by apply get_set_prop_ne.
Qed.

(** [renameInPlace] writes [name] properties and nothing else. *)
Lemma renameInPlace_frame lookup newName w :
  exists h, renameInPlace lookup newName w = Ok tt (set_heap h w)
            /\ same_but_name (heap w) h.
Proof.
  destruct lookup as [v|]; [|exists (heap w); split; [by rewrite set_heap_id|apply same_but_name_refl]].
  unfold renameInPlace. destruct (decide (newName = "")).
  { exists (heap w). split; [by rewrite set_heap_id|apply same_but_name_refl]. }
  unfold mbind, St_bind. rewrite forEach_set_name. rewrite forEach_set_name.
  eexists. split; [reflexivity|]. cbn [heap set_heap].
  eapply same_but_name_trans; apply same_but_name_renamed.
Qed.

Section Rename.
Context (E : Externals).

Lemma rename_each_frame (t : ScopeLookup) newName (l : list NodeRef) w w' :
  forEachSt (fun node =>
    o ← deref node;
    let node := if decide (ntype o = "VariableDeclarator") then prop_ref "binding" o else node in
    match node with
    | Ref id =>
        match variableMap t !! id with
        | None => mret tt
        | Some lookup => renameInPlace (head lookup) newName
        end
    | _ => mret tt
    end) l w = Ok tt w' ->
  exists h, w' = set_heap h w /\ same_but_name (heap w) h.
Proof.
  revert w. induction l as [|node l IH]; intros w.
  - cbn. inversion 1; subst. exists (heap w'). split; [by rewrite set_heap_id|].
    apply same_but_name_refl.
  - cbn [forEachSt]. intros H. apply bind_inv_Ok in H as ([] & w1 & H1 & H).
    apply IH in H as (h2 & -> & Hh2).
    assert (exists h1, w1 = set_heap h1 w /\ same_but_name (heap w) h1) as (h1 & -> & Hh1).
    { apply bind_inv_Ok in H1 as (o & w0 & Ho & H1). apply deref_inv in Ho as (-> & _).
      destruct (if decide (ntype o = "VariableDeclarator") then prop_ref "binding" o else node)
        as [| |id].
      1,2: inversion H1; subst; exists (heap w1); split;
           [by rewrite set_heap_id|apply same_but_name_refl].
      destruct (variableMap t !! id) as [lookup|].
      - destruct (renameInPlace_frame (head lookup) newName w) as (h & Hr & Hh).
        rewrite Hr in H1. inversion H1; subst. by exists h.
      - inversion H1; subst. exists (heap w1). split; [by rewrite set_heap_id|].
        apply same_but_name_refl. }
    exists h2. split; [done|]. by eapply same_but_name_trans.
Qed.
End Rename.

(** X18.  [rename] never reshapes the tree and never touches the mutation
    queues: when it returns, every object of the heap has its type and
    all its properties other than [name] as before, no object has
    appeared or gone, the sessions other than the one called are as they
    were, and the one called has its node list, its dirty flag and its
    three queues as before (its scope tables may have been built). *)
Theorem rename_only_writes_names (E : Externals) (fuel this : nat) (sel : SelectorOrNode)
    (newName : string) (w : World) (r : nat) (w' : World) :
  rename E fuel this sel newName w = Ok r w' ->
  r = this /\ log w' = log w /\ same_but_name (heap w) (heap w')
  /\ (forall i, i <> this -> sessions w' !! i = sessions w !! i)
  /\ exists s s', sessions w !! this = Some s /\ sessions w' !! this = Some s'
       /\ nodes s' = nodes s /\ dirty s' = dirty s /\ replacements s' = replacements s
       /\ deletions s' = deletions s /\ insertions s' = insertions s.
Proof.
  intros H. unfold rename in H.
  apply bind_inv_Ok in H as (t & w1 & Ht & H).
  apply getLookupTable_frame in Ht as (F & k & HF & ->).
  apply bind_inv_Ok in H as (s1 & w0 & Hs1 & H). apply get_session_inv in Hs1 as (-> & Hs1).
  rewrite bind_get_state in H.
  apply bind_inv_Ok in H as ([] & w2 & Hloop & H).
  unfold mret, St_ret in H. inversion H; subst. clear H.
  apply rename_each_frame in Hloop as (h & -> & Hh).
  split; [done|]. split; [done|]. split; [exact Hh|].
  split. { intros i Hi. cbn. by rewrite lookup_alter_ne. }
  rewrite sessions_upd_eq in Hs1. cbn [sessions set_analyses] in Hs1.
  destruct (sessions w !! r) as [s|] eqn:Hs; [|done]. cbn in Hs1. inversion Hs1; subst.
  exists s, (F s). split; [done|]. split; [cbn; by rewrite lookup_alter_eq, Hs|].
  destruct (HF s) as (?&?&?&?&?&?&?&?&?). done.
Qed.

(** [rename] of the identifier of statement [b] to [y] in the scope instance. *)
Lemma rename_only_writes_names_witness :
  0 = 0 /\ log ScopeDemo.renamed_world = log ScopeDemo.start
  /\ same_but_name (heap ScopeDemo.start) (heap ScopeDemo.renamed_world)
  /\ (forall i, i <> 0 -> sessions ScopeDemo.renamed_world !! i = sessions ScopeDemo.start !! i)
  /\ exists s s', sessions ScopeDemo.start !! 0 = Some s
       /\ sessions ScopeDemo.renamed_world !! 0 = Some s'
       /\ nodes s' = nodes s /\ dirty s' = dirty s /\ replacements s' = replacements s
       /\ deletions s' = deletions s /\ insertions s' = insertions s.
Proof.
  apply (rename_only_writes_names ScopeDemo.externals 5 0 (SelNode (Ref 6)) "y"
           ScopeDemo.start 0 ScopeDemo.renamed_world).
  vm_compute. reflexivity.
Defined.

Section Flat.
Context (E : Externals).

Lemma flat_spec w :
  flat w <-> forall i s, sessions w !! i = Some s ->
               exists gs, sessions w !! globalSession s = Some gs
                          /\ globalSession gs = globalSession s.
Proof.
  unfold flat, delegates_flat. split; intros H i s Hi; specialize (H i s Hi); cbn beta in *.
  - destruct (sessions w !! globalSession s) as [gs|]; [|done].
    exists gs. split; [done|]. by apply bool_decide_eq_true in H.
  - destruct H as (gs & -> & Hg). by apply bool_decide_eq_true.
Qed.

Lemma flat_extend w w' this s' :
  flat w -> sessions w !! this = None ->
  (forall i, i <> this -> sessions w' !! i = sessions w !! i) ->
  sessions w' !! this = Some s' ->
  (globalSession s' = this
   \/ exists gs, sessions w !! globalSession s' = Some gs
                 /\ globalSession gs = globalSession s') ->
  flat w'.
Proof.
  rewrite !flat_spec. intros Hflat Hnew Hoth Hs' Hg i s Hi.
  destruct (decide (i = this)) as [->|Hne].
  - assert (s = s') as -> by congruence.
    destruct Hg as [Hg|(gs & Hgs & Hgg)].
    + exists s'. rewrite Hg. done.
    + exists gs. split; [|done]. rewrite Hoth; [done|]. intros Heq. congruence.
  - rewrite Hoth in Hi by done. destruct (Hflat i s Hi) as (gs & Hgs & Hgg).
    exists gs. split; [|done]. rewrite Hoth; [done|]. intros Heq. congruence.
Qed.

Lemma fresh_session_None (w : World) : sessions w !! fresh (dom (sessions w)) = None.
Proof. apply not_elem_of_dom. apply is_fresh. Qed.

Lemma ctor_tail_global fuel this a ns w1 s1 r w' :
  sessions w1 !! this = Some s1 ->
  ctor_tail E fuel this a ns w1 = Ok r w' ->
  exists s', sessions w' !! this = Some s' /\ globalSession s' = globalSession s1
    /\ forall i, i <> this -> sessions w' !! i = sessions w1 !! i.
Proof.
  intros Hs1 H. apply (ctor_tail_inv E fuel this a ns w1 s1) in H as (-> & F & k & HF & ->); [|done].
  eexists. split; [rewrite sessions_upd_eq; cbn [sessions set_analyses]; by rewrite Hs1|]. split.
  - destruct (HF ((set_parentMap (buildParentMap E ns (heap w1)) ∘ auto_assign a
                     ∘ set_nodes ns) s1)) as (_&_&Hg&_).
    etransitivity; [exact Hg|]. by destruct a as [[]|].
  - intros i Hi. by rewrite sessions_upd_ne.
Qed.
End Flat.

(** X19.  The constructor keeps delegation flat.  A root session is its own
    global session; a subsession takes the global session of its parent
    session, so that a subsession of a subsession delegates to the root
    session directly; and in a store where every session delegates to a
    session that is its own global session, the same holds once the new
    session is there. *)
Theorem constructor_keeps_delegation_flat (E : Externals) (fuel : nat) (son : SourceOrNodes)
    (cfg : RefactorConfig) (w : World) (r : nat) (w' : World) :
  flat w ->
  (forall p, cfg_parentSession cfg = Some p -> is_Some (sessions w !! p)) ->
  constructor E fuel son cfg w = Ok r w' ->
  flat w'
  /\ exists s', sessions w' !! r = Some s'
       /\ match cfg_parentSession cfg with
          | None => globalSession s' = r
          | Some p => exists ps, sessions w !! p = Some ps
                                 /\ globalSession s' = globalSession ps
          end.
Proof.
  intros Hflat Hparent H.
  pose proof (constructor_inv E fuel son cfg w r w' H) as (-> & _).
  rewrite constructor_eq in H. cbv zeta in H.
  set (this := fresh (dom (sessions w))) in *.
  assert (Hnew : sessions w !! this = None) by apply fresh_session_None.
  destruct (cfg_parentSession cfg) as [p|] eqn:Hcfg.
  - destruct (Hparent p eq_refl) as (ps & Hp).
    assert (Hne : p <> this) by (intros ->; congruence).
    rewrite (sessions_alloc_ne _ _ Hne), Hp in H.
    set (w1 := upd_session this (set_globalSession (globalSession ps)) (alloc w)) in *.
    assert (Hs1 : sessions w1 !! this
                  = Some (set_globalSession (globalSession ps) initial_fields)).
    { unfold w1. rewrite sessions_upd_eq. unfold this. by rewrite sessions_alloc_eq. }
    assert (exists a ns, ctor_tail E fuel this a ns w1 = Ok this w') as (a & ns & Ht).
    { destruct son; [done|eauto|eauto]. }
    destruct (ctor_tail_global E fuel this a ns w1 _ _ _ Hs1 Ht) as (s' & Hs' & Hg & Hoth).
    assert (Hoth' : forall i, i <> this -> sessions w' !! i = sessions w !! i).
    { intros i Hi. rewrite Hoth by done. unfold w1. rewrite sessions_upd_ne by done.
      by apply sessions_alloc_ne. }
    split.
    + apply (flat_extend w w' this s' Hflat Hnew Hoth' Hs'). right.
      destruct (proj1 (flat_spec w) Hflat p ps Hp) as (gs & Hgs & Hgg). exists gs. rewrite Hg. cbn. done.
    + exists s'. split; [done|]. exists ps. split; [done|]. by rewrite Hg.
  - assert (exists a ns w1 s1, ctor_tail E fuel this a ns w1 = Ok this w'
              /\ sessions w1 !! this = Some s1 /\ globalSession s1 = this
              /\ forall i, i <> this -> sessions w1 !! i = sessions w !! i)
      as (a & ns & w1 & s1 & Ht & Hs1 & Hg1 & Hoth1).
    { destruct son as [src|n|l]; [|
        |done].
      - destruct (parseScript E src (heap w)) as [[tree h]|]; [|done].
        eexists _, _, _, _. split; [exact H|]. split.
        + rewrite sessions_upd_eq, sessions_upd_eq. cbn [sessions set_heap].
          unfold this. by rewrite sessions_alloc_eq.
        + split; [done|]. intros i Hi. rewrite !sessions_upd_ne by done.
          cbn [sessions set_heap]. by apply sessions_alloc_ne.
      - eexists _, _, _, _. split; [exact H|]. split.
        + rewrite sessions_upd_eq, sessions_upd_eq. unfold this. by rewrite sessions_alloc_eq.
        + split; [done|]. intros i Hi. rewrite !sessions_upd_ne by done.
          by apply sessions_alloc_ne. }
    destruct (ctor_tail_global E fuel this a ns w1 _ _ _ Hs1 Ht) as (s' & Hs' & Hg & Hoth).
    assert (Hoth' : forall i, i <> this -> sessions w' !! i = sessions w !! i).
    { intros i Hi. rewrite Hoth by done. by apply Hoth1. }
    split.
    + apply (flat_extend w w' this s' Hflat Hnew Hoth' Hs'). left. congruence.
    + exists s'. split; [done|]. congruence.
Qed.

(** A subsession of the subsession for statement [b]. *)
Lemma constructor_keeps_delegation_flat_witness :
  flat MoreRuns.subsub_world
  /\ exists s', sessions MoreRuns.subsub_world !! 2 = Some s'
       /\ exists ps, sessions DemoWorlds.sub_world !! 1 = Some ps
                     /\ globalSession s' = globalSession ps.
Proof.
  apply (constructor_keeps_delegation_flat Demo.externals 5 (OneNode (Ref 6))
           (MkConfig None (Some 1)) DemoWorlds.sub_world 2 MoreRuns.subsub_world).
  - apply (bool_decide_unpack (flat _)). vm_compute. exact I.
  - intros p [= <-]. vm_compute. eexists. reflexivity.
  - vm_compute. reflexivity.
Defined.



(* ===================================================================== *)
(** ** Deleting and replacing an element of a statement list             *)
(* ===================================================================== *)












Section ListWalk.
Context (E : Externals) (g p b : nat) (po bo : NodeObj) (pre post : list nat)
  (ks1 ks2 kb : list string) (d : nat) (w0 wb : World) (target : NodeRef) (removed : bool).
Hypothesis Hpb : p <> b.
Hypothesis Hp : heap w0 !! p = Some po.
Hypothesis Hpty : ntype po <> "VariableDeclarationStatement".
Hypothesis Hks : keys E (ntype po) = Some (ks1 ++ "statements" :: ks2)%list.
Hypothesis Hks2 : "statements" ∉ ks2.
Hypothesis Hst :
  get_prop "statements" (props po) = Some (PArr ((Ref <$> pre) ++ Ref b :: (Ref <$> post))).
Hypothesis Hq1 :
  quiet_items E [p; b] (heap w0) d (Traverser.child_elements p po ks1) = true.
Hypothesis Hq2 :
  quiet_items E [p; b] (heap w0) d (Traverser.child_elements p po ks2) = true.
Hypothesis Hqpre : Forall (fun a => quiet E [p; b] (heap w0) d (Ref a) = true) pre.
Hypothesis Hqpost : Forall (fun a => quiet E [p; b] (heap w0) d (Ref a) = true) post.
Hypothesis Hb : heap w0 !! b = Some bo.
Hypothesis Hkb : keys E (ntype bo) = Some kb.
Hypothesis Hqb :
  quiet_items E [p; b] (heap w0) d (Traverser.child_elements b bo kb) = true.
Hypothesis Hcalm : calm g [b] w0.
Hypothesis Hleave : cleanup_leave E g (Ref b) (Ref p) w0 = Ok (target, removed) wb.
Hypothesis Hheapb : heap wb = heap w0.
Hypothesis Hcalmb : calm g [b] wb.
Hypothesis Hcase :
  (target = Undefined /\ removed = true) \/ (target <> Undefined /\ removed = false).


End ListWalk.

Section LeaveCases.
Context (E : Externals) (g : nat).



End LeaveCases.

Section QueueApi.
Context (E : Externals).


End QueueApi.

Section ListCommit.
Context (E : Externals) (g p b : nat) (po bo : NodeObj) (pre post : list nat)
  (ks1 ks2 kb : list string) (d : nat) (w : World) (s : Session).
Hypothesis Hs : sessions w !! g = Some s.
Hypothesis Hg : globalSession s = g.
Hypothesis Hnodes : nodes s = [Ref p].
Hypothesis Hrep : replacements s = ∅.
Hypothesis Hdel : deletions s = ∅.
Hypothesis Hins : insertions s = ∅.
Hypothesis Hpb : p <> b.
Hypothesis Hp : heap w !! p = Some po.
Hypothesis Hpty : ntype po <> "VariableDeclarationStatement".
Hypothesis Hks : keys E (ntype po) = Some (ks1 ++ "statements" :: ks2)%list.
Hypothesis Hks2 : "statements" ∉ ks2.
Hypothesis Hst :
  get_prop "statements" (props po) = Some (PArr ((Ref <$> pre) ++ Ref b :: (Ref <$> post))).
Hypothesis Hq1 : quiet_items E [p; b] (heap w) d (Traverser.child_elements p po ks1) = true.
Hypothesis Hq2 : quiet_items E [p; b] (heap w) d (Traverser.child_elements p po ks2) = true.
Hypothesis Hqpre : Forall (fun a => quiet E [p; b] (heap w) d (Ref a) = true) pre.
Hypothesis Hqpost : Forall (fun a => quiet E [p; b] (heap w) d (Ref a) = true) post.
Hypothesis Hb : heap w !! b = Some bo.
Hypothesis Hkb : keys E (ntype bo) = Some kb.
Hypothesis Hbk : keeps_declarators [p; b] (heap w) bo = true.
Hypothesis Hqb : quiet_items E [p; b] (heap w) d (Traverser.child_elements b bo kb) = true.


End ListCommit.





Section EmptyCommit.
Context (E : Externals) (g : nat).

Lemma walk_quiet_roots avoid d w (roots : list nat) :
  calm g avoid w ->
  forallb (fun r => quiet E avoid (heap w) d (Ref r)) roots = true ->
  exists K, forall fuel,
    mapSt (fun node => Traverser.replace E (cleanup_leave E g) node (K + fuel)) (Ref <$> roots) w
    = Ok (Ref <$> roots) w.
Proof.
  intros Hcalm. destruct (run_quiet E g avoid d w Hcalm) as [Hnode _].
  induction roots as [|r roots IH]; intros Hq.
  - exists 0. done.
  - cbn [forallb] in Hq. apply andb_prop in Hq as [Hr Hq].
    destruct (IH Hq) as (K2 & HK2).
    set (e := Traverser.MkElement (Ref r) Traverser.RootSlot).
    destruct (Hnode (Ref r) Traverser.RootSlot [] e [] (Ref r) Hr) as (k1 & Hk1).
    exists (k1 + K2). intros fuel. cbn [fmap list_fmap mapSt].
    rewrite (bind_Ok _ _ w (Ref r) w).
    + replace (k1 + K2 + fuel) with (K2 + (k1 + fuel)) by lia.
      by rewrite (bind_Ok _ _ _ _ _ (HK2 _)).
    + unfold Traverser.replace. fold e. rewrite <- Nat.add_assoc. rewrite Hk1.
      by destruct (K2 + fuel).
Qed.
End EmptyCommit.

(** X4.  A commit of a dirty session whose replacement and insertion
    maps are empty, over trees that are made of objects of the heap of
    known node types, none of them in the deletion set and none a
    variable declaration statement without declarators, changes no
    object: the heap and the node list are as before, nothing is
    logged, and the session is clean.  (Without the last condition the
    commit does change the tree: it takes such a statement out.) *)
Theorem commit_without_applicable_mutations (E : Externals) (g : nat) (s : Session)
    (roots : list nat) (d : nat) (w : World) :
  sessions w !! g = Some s -> globalSession s = g -> dirty s = true ->
  nodes s = Ref <$> roots -> replacements s = ∅ -> insertions s = ∅ ->
  forallb (fun r => quiet E (elements (deletions s)) (heap w) d (Ref r)) roots = true ->
  exists K, forall fuel, K <= fuel ->
    exists w' s',
      cleanup E fuel g w = Ok g w' /\ heap w' = heap w /\ log w' = log w
      /\ sessions w' !! g = Some s' /\ dirty s' = false /\ nodes s' = nodes s
      /\ deletions s' = deletions s.
Proof.
  intros Hs Hg Hd Hnodes Hrep Hins Hq.
  assert (Hcalm : calm g (elements (deletions s)) w).
  { exists s. split; [done|]. intros id Hid. rewrite Hrep, Hins.
    split; [done|]. split; [done|]. intros Hin. apply Hid. by apply elem_of_elements. }
  destruct (walk_quiet_roots E g _ d w roots Hcalm Hq) as (K & HK).
  exists (S K). intros fuel Hfuel.
  destruct (Nat.le_exists_sub _ _ Hfuel) as (f' & -> & _).
  replace (f' + S K) with (S (K + f')) by lia.
  eexists _, _. split.
  { apply (cleanup_run E (K + f') g s w (Ref <$> roots) w s Hs Hg Hd); [|done|done].
    rewrite Hnodes. apply HK. }
  split; [done|]. split; [done|]. split; [by rewrite sessions_upd_eq, Hs|].
  cbn. by rewrite Hnodes.
Qed.

(** The session over [a; b; c], dirty with nothing queued. *)
Lemma commit_without_applicable_mutations_witness :
  exists K, forall fuel, K <= fuel ->
    exists w' s',
      cleanup Demo.externals fuel 0 MoreRuns.dirty_world = Ok 0 w'
      /\ heap w' = heap MoreRuns.dirty_world /\ log w' = log MoreRuns.dirty_world
      /\ sessions w' !! 0 = Some s' /\ dirty s' = false
      /\ nodes s' = nodes MoreRuns.dirty_session
      /\ deletions s' = deletions MoreRuns.dirty_session.
Proof.
  apply (commit_without_applicable_mutations Demo.externals 0 MoreRuns.dirty_session [1] 4
           MoreRuns.dirty_world).
  all: vm_compute; reflexivity.
Defined.

(* ===================================================================== *)
(** ** Subsessions and declarations without declarators                  *)
(* ===================================================================== *)

Section SubSession.
Context (E : Externals).

Lemma item_nodes_nodes (ns : list NodeRef) : item_nodes (ItemNode <$> ns) = ns.
Proof. unfold item_nodes. induction ns as [|n ns IH]; [done|]. cbn. by f_equal. Qed.
End SubSession.

(** X20.  [subSession] makes a new session object and touches nothing else:
    the heap, the log and every session that was there stay as they
    were.  The new session holds the selected nodes (those of the other
    session, when one is passed), is clean, has [autoCleanup] on and
    empty queues. *)
Theorem subSession_makes_a_fresh_view (E : Externals) (fuel this : nat)
    (q : SelectorOrNode + nat) (w : World) (r : nat) (w' : World) :
  subSession E fuel this q w = Ok r w' ->
  r = fresh (dom (sessions w)) /\ heap w' = heap w /\ log w' = log w
  /\ (forall i, i <> r -> sessions w' !! i = sessions w !! i)
  /\ exists s', sessions w' !! r = Some s'
       /\ dirty s' = false /\ autoCleanup s' = true
       /\ replacements s' = ∅ /\ deletions s' = ∅ /\ insertions s' = ∅
       /\ match q with
          | inl sel => exists s, sessions w !! this = Some s
                                 /\ nodes s' = findNodes E (nodes s) sel (heap w)
          | inr other => exists o, sessions w !! other = Some o /\ nodes s' = nodes o
          end.
Proof.
  intros H. unfold subSession in H.
  apply bind_inv_Ok in H as (ns & w0 & Hns & H).
  assert (w0 = w /\ match q with
          | inl sel => exists s, sessions w !! this = Some s
                                 /\ ns = findNodes E (nodes s) sel (heap w)
          | inr other => exists o, sessions w !! other = Some o /\ ns = nodes o
          end) as [-> Hsel].
  { destruct q as [sel|other].
    - apply bind_inv_Ok in Hns as (s & w1 & Hs & Hns). apply get_session_inv in Hs as (-> & Hs).
      rewrite bind_get_state in Hns. inversion Hns; subst. eauto.
    - apply bind_inv_Ok in Hns as (o & w1 & Ho & Hns). apply get_session_inv in Ho as (-> & Ho).
      inversion Hns; subst. eauto. }
  pose proof (constructor_inv E _ _ _ _ _ _ H) as (-> & s' & ns' & g & Hs' & Hc).
  destruct Hc as [Hn _ Ha Hd Hr Hdl Hi _ Hoth].
  rewrite constructor_eq in H. cbv zeta in H. cbn [cfg_parentSession cfg_autoCleanup] in H.
  destruct (sessions (alloc w) !! this) as [ps|] eqn:Hp; [|done].
  set (new := fresh (dom (sessions w))) in *.
  set (w1 := upd_session new (set_globalSession (globalSession ps)) (alloc w)) in *.
  assert (Hs1 : sessions w1 !! new = Some (set_globalSession (globalSession ps) initial_fields)).
  { unfold w1. rewrite sessions_upd_eq. unfold new. by rewrite sessions_alloc_eq. }
  apply (ctor_tail_inv E fuel new None _ w1 _ _ _ Hs1) in H as (_ & F & k & HF & ->).
  split; [done|]. split; [done|]. split; [done|]. split; [exact Hoth|].
  exists s'. split; [done|]. split; [done|]. split; [done|]. split; [done|].
  split; [done|]. split; [done|].
  rewrite sessions_upd_eq in Hs'. cbn [sessions set_analyses] in Hs'.
  rewrite Hs1 in Hs'. cbn in Hs'. injection Hs' as Heq.
  assert (Hnodes : nodes s' = ns).
  { rewrite <- Heq. destruct (HF (set_parentMap (buildParentMap E (item_nodes (ItemNode <$> ns)) (heap w1))
                       (set_nodes (item_nodes (ItemNode <$> ns))
                          (set_globalSession (globalSession ps) initial_fields)))) as (Hnf & _).
    etransitivity; [exact Hnf|]. cbn. apply item_nodes_nodes. }
  destruct q as [sel|other].
  - destruct Hsel as (s & Hs & ->). exists s. split; [done|exact Hnodes].
  - destruct Hsel as (o & Ho & ->). exists o. split; [done|exact Hnodes].
Qed.

(** The subsession for statement [b] of the session over [a; b; c]. *)
Lemma subSession_makes_a_fresh_view_witness :
  1 = fresh (dom (sessions DemoWorlds.root_world))
  /\ heap DemoWorlds.sub_world = heap DemoWorlds.root_world
  /\ log DemoWorlds.sub_world = log DemoWorlds.root_world
  /\ (forall i, i <> 1 -> sessions DemoWorlds.sub_world !! i = sessions DemoWorlds.root_world !! i)
  /\ exists s', sessions DemoWorlds.sub_world !! 1 = Some s'
       /\ dirty s' = false /\ autoCleanup s' = true
       /\ replacements s' = ∅ /\ deletions s' = ∅ /\ insertions s' = ∅
       /\ exists s, sessions DemoWorlds.root_world !! 0 = Some s
                    /\ nodes s' = findNodes Demo.externals (nodes s) (SelNode (Ref 3))
                                    (heap DemoWorlds.root_world).
Proof.
  apply (subSession_makes_a_fresh_view Demo.externals 5 0 (inl (SelNode (Ref 3)))
           DemoWorlds.root_world 1 DemoWorlds.sub_world).
  vm_compute. reflexivity.
Defined.


